(** * Screening session orchestration: a shallow embedding

    The development follows the TypeScript sources of the screening
    front end:

    - [Js]            : the fragments of the JavaScript runtime the code
                        relies on (values, truthiness, array helpers);
    - [Api]           : [services/api.ts], the result normalisation;
    - [History]       : [lib/history.ts], the per-user result cache;
    - [SpeechRecorder]: [components/assessment/SpeechRecorder.tsx];
    - [CognitiveTasks]: [components/assessment/CognitiveTasks.tsx];
    - [Assessment]    : [pages/Assessment.tsx], the task catalog and the
                        four-phase orchestrator.

    Numbers are modelled as rationals ([Q], compared with [==]); the
    source computes with IEEE doubles.  What the language leaves to the
    engine (how a number is written out, the wording of its own errors)
    is a parameter, [Js.Engine].  Asynchronous handlers are run to
    completion, one event at a time, and every outside effect they
    perform (network call, timer, toast, console line, callback) is
    appended to an explicit trace. *)

From Stdlib Require Import QArith Qminmax Qround Lqa.
From stdpp Require Import base decidable option list strings gmap numbers pretty.

Local Open Scope Z_scope.
Set Warnings "-register-all".

(* ================================================================== *)
(** * JavaScript runtime fragments *)
(* ================================================================== *)

Module Js.

(** Run-time values: what a [catch] clause may receive and what
    [response.json()] may produce.  [object] is a plain object, read
    through its first binding of a key; [error] is an instance of
    [Error] (or of a subclass, [name] telling which) with its
    [message]. *)
Inductive value : Type :=
| undefined
| null
| boolean (b : bool)
| number (q : Q)
| str (s : string)
| array (items : list value)
| object (fields : list (string * value))
| error (name message : string).

(** What the language leaves to the engine: how a number is written out
    ([Number.prototype.toString]), the wording of the [TypeError] raised
    when property [k] of [v], which is [null] or [undefined], is read,
    and the wording of the one raised when an object cannot be converted
    to a primitive value.  Everything below holds for every engine. *)
Class Engine := {
  Number_toString : Q → string;
  cannot_read : value → string → string;
  cannot_convert : string
}.

(** Truthiness, as used by [if (v)], [!v], [a || b] and [c ? x : y]. *)
Definition truthy (v : value) : bool :=
  match v with
  | undefined | null => false
  | boolean b => b
  | number q => negb (Qeq_bool q 0)
  | str s => negb (String.eqb s "")
  | array _ | object _ | error _ _ => true
  end.

(** [v === "text"] *)
Definition is_str (v : value) (s : string) : bool :=
  match v with
  | str s' => String.eqb s' s
  | _ => false
  end.

(** [a ?? b] *)
Definition nullish (v : value) : bool :=
  match v with
  | undefined | null => true
  | _ => false
  end.

Definition coalesce (a b : value) : value :=
  if nullish a then b else a.

Definition lookup_field (k : string) (fields : list (string * value)) : value :=
  match list_find (λ kv, kv.1 = k) fields with
  | Some (_, (_, v)) => v
  | None => undefined
  end.

(** [(raw as any).k]: reading a property of [undefined] or [null]
    throws a [TypeError]; a missing property reads as [undefined]. *)
Definition get (k : string) (v : value) : option value :=
  match v with
  | undefined | null => None
  | object fields => Some (lookup_field k fields)
  | error name message =>
      Some (lookup_field k [("name", str name); ("message", str message)])
  | _ => Some undefined
  end.

(** Truthiness of a [number | null] state field. *)
Definition truthy_time (t : option Q) : bool :=
  match t with
  | Some q => negb (Qeq_bool q 0)
  | None => false
  end.

(** Truthiness of a [string | null] state field. *)
Definition truthy_id (s : option string) : bool :=
  match s with
  | Some s => negb (String.eqb s "")
  | None => false
  end.

(** [a === b] between a value parsed from storage and a value received
    from the network: primitives compare by content, arrays and objects
    by identity, and two such values never share an identity. *)
Definition strict_eq (a b : value) : bool :=
  match a, b with
  | undefined, undefined | null, null => true
  | boolean x, boolean y => Bool.eqb x y
  | number x, number y => Qeq_bool x y
  | str x, str y => String.eqb x y
  | _, _ => false
  end.

(** How an awaited promise settles, and how a call completes. *)
Inductive completion (A : Type) : Type :=
| Return (a : A)
| Throw (e : value).
Arguments Return {A} a.
Arguments Throw {A} e.

Section Arrays.
Context {A : Type} `{EqDecision A}.

(** [arr.indexOf(x)]: first position holding [x], or [-1]. *)
Fixpoint indexOf_from (k : Z) (l : list A) (x : A) : Z :=
  match l with
  | [] => -1
  | y :: l' => if decide (y = x) then k else indexOf_from (k + 1) l' x
  end.

Definition indexOf (l : list A) (x : A) : Z := indexOf_from 0 l x.

(** [arr.includes(x)] *)
Definition includes (l : list A) (x : A) : bool := bool_decide (x ∈ l).

(** [arr[i]] for a numeric [i]; [None] is [undefined]. *)
Definition nth_js (l : list A) (i : Z) : option A :=
  if decide (0 ≤ i) then l !! Z.to_nat i else None.

(** [Array.from(new Set(arr))]: a set iterates in insertion order, so
    the first occurrence of every element is kept. *)
Definition from_Set (l : list A) : list A :=
  fold_left (λ acc x, if decide (x ∈ acc) then acc else acc ++ [x]) l [].

End Arrays.

(** [arr.join(sep)] on strings *)
Fixpoint join (sep : string) (l : list string) : string :=
  match l with
  | [] => ""
  | [s] => s
  | s :: l' => s +:+ sep +:+ join sep l'
  end.

(** [String(d)] on the integers the catalog uses *)
Definition String_of (d : Z) : string := pretty d.

(** [String(v)]; [None] when the conversion throws a [TypeError].  An
    array is the join of its elements with [","], [null] and
    [undefined] elements counting as empty.  A plain object is
    ["[object Object]"], unless it has a property [toString] of its own:
    that shadows the inherited method, is not callable (no value here
    is), and the conversion throws.  An error is its name and
    message. *)
Fixpoint ToString {engine : Engine} (v : value) : option string :=
  match v with
  | undefined => Some "undefined"
  | null => Some "null"
  | boolean b => Some (if b then "true" else "false")
  | number q => Some (Number_toString q)
  | str s => Some s
  | array items =>
      join "," <$>
        (fix elements (l : list value) : option (list string) :=
           match l with
           | [] => Some []
           | x :: l' =>
               match (match x with
                      | undefined | null => Some ""
                      | _ => ToString x
                      end), elements l' with
               | Some s, Some ss => Some (s :: ss)
               | _, _ => None
               end
           end) items
  | object fields =>
      if bool_decide ("toString" ∈ fields.*1) then None
      else Some "[object Object]"
  | error name message =>
      Some (if String.eqb message "" then name
            else if String.eqb name "" then message
            else name +:+ ": " +:+ message)
  end.

(** The engine the examples run on.  It words its [TypeError]s as V8
    does and writes a whole number in decimal; no example writes out a
    number that is not whole, and for such a number this engine writes
    the whole part only. *)
Definition example_engine : Engine :=
  {| Number_toString := λ q, pretty (Qfloor q);
     cannot_read := λ v k,
       "Cannot read properties of "
       +:+ (match v with null => "null" | _ => "undefined" end)
       +:+ " (reading '" +:+ k +:+ "')";
     cannot_convert := "Cannot convert object to primitive value" |}.

(** An [Error] with the given message. *)
Definition Error (message : string) : value := error "Error" message.

(** A [TypeError] with the given message. *)
Definition TypeError (message : string) : value := error "TypeError" message.

(** What [throw new Error(msg)] throws: an [Error] whose message is
    [String(msg)], empty when [msg] is [undefined]; the [TypeError] of
    the conversion when that throws. *)
Definition thrown_new_Error {engine : Engine} (msg : value) : value :=
  match msg with
  | undefined => Error ""
  | _ => match ToString msg with
         | Some message => Error message
         | None => TypeError cannot_convert
         end
  end.

(** The fields [JSON.stringify] writes for an object: for each key its
    first binding, unless that is left out ([None]). *)
Fixpoint written {A} (seen : list string) (l : list (string * option A))
  : list (string * A) :=
  match l with
  | [] => []
  | (k, o) :: l' =>
      if bool_decide (k ∈ seen) then written seen l'
      else match o with
           | Some v => (k, v) :: written (k :: seen) l'
           | None => written (k :: seen) l'
           end
  end.

(** [JSON.parse(JSON.stringify(v))]: what is read back after [v] was
    written as JSON text.  [undefined] is not written: as a field it is
    left out ([None]), as an array element it becomes [null].  An error
    has no enumerable property and is written as [{}].  (The order of an
    object's fields carries no meaning.) *)
Fixpoint JSON_image (v : value) : option value :=
  match v with
  | undefined => None
  | null => Some null
  | boolean b => Some (boolean b)
  | number q => Some (number q)
  | str s => Some (str s)
  | array items =>
      Some (array ((fix elements (l : list value) : list value :=
                      match l with
                      | [] => []
                      | x :: l' => default null (JSON_image x) :: elements l'
                      end) items))
  | object fields =>
      Some (object
              (written []
                 ((fix each (l : list (string * value))
                     : list (string * option value) :=
                     match l with
                     | [] => []
                     | (k, x) :: l' => (k, JSON_image x) :: each l'
                     end) fields)))
  | error _ _ => Some (object [])
  end.

(** The element of an array read back after it was written. *)
Definition JSON_element (v : value) : value := default null (JSON_image v).

(** [prop k v] is [v.k] for a [v] already known not to be nullish. *)
Definition prop (k : string) (v : value) : value :=
  default undefined (get k v).

(** [Math.round(x)]: the nearest integer, a half being rounded up. *)
Definition round (x : Q) : Z := Qfloor (x + (1 # 2)).

End Js.

(* ================================================================== *)
(** * services/api.ts *)
(* ================================================================== *)

Module Api.

(** What [fetch] hands back: the status flag and the body as parsed by
    [response.json()], [None] when parsing fails. *)
Record Response := {
  ok : bool;
  json : option Js.value
}.

(** [await response.json().catch(() => null)] *)
Definition raw_of (r : Response) : Js.value :=
  default Js.null (json r).

(** [typeof raw === "string" ? raw : raw?.detail || "Request failed"] *)
Definition failure_message (raw : Js.value) : Js.value :=
  match raw with
  | Js.str _ => raw
  | _ =>
      let detail := default Js.undefined (Js.get "detail" raw) in
      if Js.truthy detail then detail else Js.str "Request failed"
  end.

(** [rawRisk === "Moderate" ? "Medium" : rawRisk] *)
Definition normalizedRisk (rawRisk : Js.value) : Js.value :=
  if Js.is_str rawRisk "Moderate" then Js.str "Medium" else rawRisk.

Definition zero_scores : Js.value :=
  Js.object [("memoryScore", Js.number 0); ("attentionScore", Js.number 0);
             ("languageScore", Js.number 0); ("executiveScore", Js.number 0)].

(** The camel-case copy made when the body carries [sub_scores]. *)
Definition camel_scores (ss : Js.value) : Js.value :=
  Js.object
    [("memoryScore", Js.coalesce (Js.prop "memory_score" ss) (Js.number 0));
     ("attentionScore", Js.coalesce (Js.prop "attention_score" ss) (Js.number 0));
     ("languageScore", Js.coalesce (Js.prop "language_score" ss) (Js.number 0));
     ("executiveScore", Js.coalesce (Js.prop "executive_score" ss) (Js.number 0))].

(** The object assembled from a body that is neither [null] nor
    [undefined]. *)
Definition normalize (raw : Js.value) : Js.value :=
  let rawRisk := Js.coalesce (Js.prop "riskLevel" raw) (Js.prop "risk_level" raw) in
  let subScores :=
    if Js.truthy (Js.prop "sub_scores" raw)
    then camel_scores (Js.prop "sub_scores" raw)
    else Js.coalesce (Js.prop "subScores" raw)
           (Js.coalesce (Js.prop "sub_scores" raw) zero_scores) in
  Js.object
    [("assessmentId",
        Js.coalesce (Js.prop "assessmentId" raw) (Js.prop "assessment_id" raw));
     ("riskLevel", normalizedRisk rawRisk);
     ("probability", Js.prop "probability" raw);
     ("featureImportances",
        Js.coalesce (Js.prop "featureImportances" raw)
          (Js.coalesce (Js.prop "feature_importances" raw) (Js.array [])));
     ("subScores", subScores);
     ("recommendations",
        Js.coalesce (Js.prop "recommendations" raw) (Js.array []));
     ("generatedAt",
        Js.coalesce (Js.prop "generatedAt" raw) (Js.prop "generated_at" raw))].

(** [fetchAssessmentResult], given how the request settled.  A rejected
    [fetch] rethrows; a non-2xx status throws an [Error]; reading
    [riskLevel] off a [null] body throws a [TypeError]. *)
Definition fetchAssessmentResult {engine : Js.Engine} (http : Js.completion Response)
  : Js.completion Js.value :=
  match http with
  | Js.Throw e => Js.Throw e
  | Js.Return response =>
      let raw := raw_of response in
      if negb (ok response) then Js.Throw (Js.thrown_new_Error (failure_message raw))
      else if Js.nullish raw then Js.Throw (Js.TypeError (Js.cannot_read raw "riskLevel"))
      else Js.Return (normalize raw)
  end.

(** The risk level carried by a returned [AssessmentResult]. *)
Definition riskLevel (result : Js.value) : Js.value :=
  Js.prop "riskLevel" result.

(** The three-level scale of the [AssessmentResult] type. *)
Definition canonical (risk : Js.value) : bool :=
  Js.is_str risk "Low" || Js.is_str risk "Medium" || Js.is_str risk "High".

(** The records the cognitive phase transmits. *)
Inductive TaskCategory := speech | cognitive.

(** [metadata] is an open record in the declaration; this is the one
    shape the code builds. *)
Record Metadata := {
  expectedSequence : list Z;
  selectedSequence : list Z
}.

Record InteractionLog := {
  taskId : string;
  taskType : TaskCategory;
  prompt : string;
  responseTimeMs : Q;
  correct : option bool;
  errors : option nat;
  metadata : option Metadata
}.

Record CognitiveScores := {
  memoryScore : Q;
  attentionScore : Q;
  languageScore : Q;
  executiveScore : Q
}.

(** Equality of score records, field by field. *)
Definition scores_eq (a b : CognitiveScores) : Prop :=
  (memoryScore a == memoryScore b)%Q ∧ (attentionScore a == attentionScore b)%Q ∧
  (languageScore a == languageScore b)%Q ∧ (executiveScore a == executiveScore b)%Q.

(** [registerUser], given how the request settled.  The body is read
    leniently, a non-2xx status throws, and the access token is taken
    under either spelling. *)
Definition registerUser {engine : Js.Engine} (http : Js.completion Response)
  : Js.completion Js.value :=
  match http with
  | Js.Throw e => Js.Throw e
  | Js.Return response =>
      let raw := raw_of response in
      if negb (ok response) then Js.Throw (Js.thrown_new_Error (failure_message raw))
      else if Js.nullish raw then Js.Throw (Js.TypeError (Js.cannot_read raw "user"))
      else Js.Return
             (Js.object
                [("user", Js.prop "user" raw);
                 ("accessToken",
                    Js.coalesce (Js.prop "accessToken" raw)
                      (Js.prop "access_token" raw))])
  end.

(** [startAssessment], given how the request settled. *)
Definition startAssessment {engine : Js.Engine} (http : Js.completion Response)
  : Js.completion Js.value :=
  match http with
  | Js.Throw e => Js.Throw e
  | Js.Return response =>
      let raw := raw_of response in
      if negb (ok response) then Js.Throw (Js.thrown_new_Error (failure_message raw))
      else if Js.nullish raw then Js.Throw (Js.TypeError (Js.cannot_read raw "assessmentId"))
      else Js.Return
             (Js.object
                [("assessmentId",
                    Js.coalesce (Js.prop "assessmentId" raw)
                      (Js.prop "assessment_id" raw))])
  end.

Record CognitiveSubmissionPayload := {
  assessmentId : string;
  logs : list InteractionLog;
  cognitiveScores : CognitiveScores;
  clockDrawing : option string
}.

Definition category_name (c : TaskCategory) : string :=
  match c with speech => "speech" | cognitive => "cognitive" end.

Definition numbers (l : list Z) : Js.value :=
  Js.array ((λ k, Js.number (inject_Z k)) <$> l).

Definition metadata_value (m : Metadata) : Js.value :=
  Js.object [("expectedSequence", numbers (expectedSequence m));
             ("selectedSequence", numbers (selectedSequence m))].

(** One entry of [logs_snake]; an absent optional field is [undefined]. *)
Definition log_snake (l : InteractionLog) : Js.value :=
  Js.object
    [("task_id", Js.str (taskId l));
     ("task_type", Js.str (category_name (taskType l)));
     ("prompt", Js.str (prompt l));
     ("response_time_ms", Js.number (inject_Z (Js.round (responseTimeMs l))));
     ("correct", match correct l with
                 | Some b => Js.boolean b
                 | None => Js.null
                 end);
     ("errors", match errors l with
                | Some n => Js.number (inject_Z (Z.of_nat n))
                | None => Js.undefined
                end);
     ("metadata", match metadata l with
                  | Some m => metadata_value m
                  | None => Js.undefined
                  end)].

Definition scores_snake (c : CognitiveScores) : Js.value :=
  Js.object [("memory_score", Js.number (memoryScore c));
             ("attention_score", Js.number (attentionScore c));
             ("language_score", Js.number (languageScore c));
             ("executive_score", Js.number (executiveScore c))].

(** The object [submitCognitiveData] serialises as the request body. *)
Definition cognitive_body (payload : CognitiveSubmissionPayload) : Js.value :=
  Js.object
    [("logs", Js.array (log_snake <$> logs payload));
     ("cognitive_scores", scores_snake (cognitiveScores payload));
     ("clock_drawing", match clockDrawing payload with
                       | Some text => Js.str text
                       | None => Js.undefined
                       end)].

End Api.

(* ================================================================== *)
(** * lib/history.ts *)
(* ================================================================== *)

Module History.

(** [localStorage] holds strings, which this module only writes with
    [JSON.stringify] and reads with [JSON.parse].  A stored string is
    represented by what [JSON.parse] makes of it: the value it parses
    to, or the fact that it does not parse (the empty string is such a
    string).  Access to the storage is taken to be granted and a write
    to be accepted. *)
Inductive Item :=
| unparsable
| parsed (v : Js.value).

Definition Storage := gmap string Item.

Definition KEY (userId : string) : string := "ms_history_" +:+ userId.

(** [raw ? JSON.parse(raw) : []], and [[]] when parsing throws.  What
    is returned is whatever the text parses to, an array or not. *)
Definition loadAssessmentHistory (ls : Storage) (userId : string) : Js.value :=
  match ls !! KEY userId with
  | Some (parsed v) => v
  | Some unparsable | None => Js.array []
  end.

(** [r.assessmentId === result.assessmentId]; [None] when reading the
    property throws, [r] or [result] being [null] or [undefined]. *)
Definition same_id (result r : Js.value) : option bool :=
  match Js.get "assessmentId" r, Js.get "assessmentId" result with
  | Some a, Some b => Some (Js.strict_eq a b)
  | _, _ => None
  end.

(** [arr.find((r) => r.assessmentId === result.assessmentId)]: the
    first entry the test holds of, [undefined] when there is none, and
    [None] when the test throws before one is found. *)
Fixpoint find (result : Js.value) (arr : list Js.value) : option Js.value :=
  match arr with
  | [] => Some Js.undefined
  | r :: arr' =>
      match same_id result r with
      | None => None
      | Some true => Some r
      | Some false => find result arr'
      end
  end.

(** The result is pushed and the array written back unless [find]
    returned something truthy.  Every exception ends the call without a
    write: the test throwing, or [arr.find] not being callable because
    what was loaded is not an array. *)
Definition saveAssessmentResult (ls : Storage) (userId : string)
    (result : Js.value) : Storage :=
  match loadAssessmentHistory ls userId with
  | Js.array arr =>
      match find result arr with
      | Some found =>
          if Js.truthy found then ls
          else <[KEY userId :=
                   parsed (Js.JSON_element (Js.array (arr ++ [result])))]> ls
      | None => ls
      end
  | _ => ls
  end.

Definition clearAssessmentHistory (ls : Storage) (userId : string) : Storage :=
  delete (KEY userId) ls.

(** No two entries with the same [assessmentId]. *)
Fixpoint distinct_ids (arr : list Js.value) : Prop :=
  match arr with
  | [] => True
  | r :: arr' =>
      Forall (λ r', Js.strict_eq (Js.prop "assessmentId" r')
                      (Js.prop "assessmentId" r) = false) arr'
      ∧ distinct_ids arr'
  end.

End History.

(* ================================================================== *)
(** * components/assessment/SpeechRecorder.tsx *)
(* ================================================================== *)

Module SpeechRecorder.

Record SpeechTask := {
  id : string;
  title : string;
  description : string;
  prompt : string;
  maxDurationMs : option Q
}.

Record Blob := {
  size : N;
  type : string
}.

(** The argument of [onUpload]. *)
Record Payload := {
  taskId : string;
  blob : Blob;
  durationMs : Q
}.

(** The [onUpload] prop.  Its first argument counts the calls already
    made while handling the current chunk, so that a function may fail a
    few times and then succeed; it answers how the returned promise
    settles. *)
Definition UploadFn := nat → Payload → Js.completion unit.

(** What the handler does to the outside world, in order. *)
Inductive Effect :=
| onUpload_call (p : Payload)
| setTimeout_wait (ms : Z)
| console_error (e : Js.value)
| toast (title : string) (description : option string)
| onComplete_call.

(** Component state: the two [useState] cells the handler writes and the
    [chunksRef] buffer. *)
Record State := {
  currentIndex : nat;
  elapsedMs : Q;
  chunksRef : list Blob
}.

(** What a [handleDataAvailable] closure captured at render time. *)
Record Closure := {
  tasks : list SpeechTask;
  c_currentIndex : nat;
  c_elapsedMs : Q
}.

Definition render (ts : list SpeechTask) (st : State) : Closure :=
  {| tasks := ts; c_currentIndex := currentIndex st; c_elapsedMs := elapsedMs st |}.

(** [tasks[currentIndex]] *)
Definition currentTask (c : Closure) : option SpeechTask :=
  tasks c !! c_currentIndex c.

(** [new Blob(chunks, { type: chunks[0]?.type || "audio/webm" })] *)
Definition assemble (chunks : list Blob) : Blob :=
  {| size := foldr (λ b n, (size b + n)%N) 0%N chunks;
     type := match chunks with
             | b :: _ => if String.eqb (type b) "" then "audio/webm" else type b
             | [] => "audio/webm"
             end |}.

(** The retry loop [for (let i = 0; i < 3; i++) { try { await onUpload(..);
    lastErr = undefined; break; } catch (e) { lastErr = e; await 600ms } }],
    entered at iteration [i] with [n] iterations left.  It yields the
    final [lastErr] and the effects performed. *)
Fixpoint retry (onUpload : UploadFn) (p : Payload) (i n : nat)
    (lastErr : Js.value) : Js.value * list Effect :=
  match n with
  | O => (lastErr, [])
  | S n' =>
      match onUpload i p with
      | Js.Return _ => (Js.undefined, [onUpload_call p])
      | Js.Throw e =>
          let '(lastErr', effects) := retry onUpload p (S i) n' e in
          (lastErr', onUpload_call p :: setTimeout_wait 600 :: effects)
      end
  end.

Definition handleDataAvailable (c : Closure) (onUpload : UploadFn)
    (data : Blob) (st : State) : State * list Effect :=
  match currentTask c with
  | None => (st, [])
  | Some task =>
      if (size data =? 0)%N then (st, [])
      else
        let chunks := chunksRef st ++ [data] in
        let p := {| taskId := id task; blob := assemble chunks;
                    durationMs := c_elapsedMs c |} in
        let '(lastErr, effects) := retry onUpload p 0 3 Js.undefined in
        if Js.truthy lastErr then
          (* [throw lastErr], caught by the enclosing [catch] *)
          ({| currentIndex := currentIndex st; elapsedMs := elapsedMs st;
              chunksRef := chunks |},
           effects ++ [console_error lastErr;
                       toast "Upload failed"
                         (Some "Could not upload speech sample. Please try again.")])
        else if Z.of_nat (c_currentIndex c) <? Z.of_nat (length (tasks c)) - 1 then
          ({| currentIndex := currentIndex st + 1; elapsedMs := 0%Q;
              chunksRef := [] |}, effects)
        else
          ({| currentIndex := currentIndex st; elapsedMs := elapsedMs st;
              chunksRef := [] |}, effects ++ [onComplete_call])
  end.

Definition is_upload (e : Effect) : bool :=
  match e with onUpload_call _ => true | _ => false end.

(** [k] failed attempts, each followed by its 600 ms wait. *)
Definition rounds (k : nat) (p : Payload) : list Effect :=
  concat (replicate k [onUpload_call p; setTimeout_wait 600]).

(** Number of [onUpload] calls in a trace. *)
Definition attempts (effects : list Effect) : nat :=
  length (List.filter is_upload effects).

End SpeechRecorder.

(* ================================================================== *)
(** * components/assessment/CognitiveTasks.tsx *)
(* ================================================================== *)

Module CognitiveTasks.

Inductive TaskType := word_recall | digit_span | tapping | clock_drawing | attention.

#[global] Instance TaskType_eq_dec : EqDecision TaskType.
Proof. solve_decision. Defined.

Record CognitiveTask := {
  id : string;
  type : TaskType;
  title : string;
  description : string;
  prompt : string;
  options : option (list string);
  correctAnswer : option Z;
  durationMs : option Q;
  sequenceAnswer : option (list Z)
}.

Record TaskState := {
  startTime : option Q;
  responseTimeMs : Q;
  correct : option bool;
  errors : nat;
  selectedOption : option Z;
  freeResponse : option string;
  sequence : option (list Z)
}.

(** [Partial<TaskState>]: [None] is an absent key. *)
Record Overrides := {
  o_responseTimeMs : option Q;
  o_correct : option (option bool);
  o_errors : option nat;
  o_selectedOption : option Z;
  o_freeResponse : option string;
  o_sequence : option (list Z)
}.

Definition no_overrides : Overrides :=
  {| o_responseTimeMs := None; o_correct := None; o_errors := None;
     o_selectedOption := None; o_freeResponse := None; o_sequence := None |}.

Record CognitiveCompletionPayload := {
  logs : list Api.InteractionLog;
  scores : Api.CognitiveScores;
  clockDrawing : option string
}.

Inductive Effect :=
| toast (title : string) (description : option string)
| console_error (e : Js.value)
| onComplete_call (payload : CognitiveCompletionPayload).

(** The three [useState] cells. *)
Record State := {
  currentIndex : nat;
  taskStates : gmap string TaskState;
  isFinished : bool
}.

Definition initial : State :=
  {| currentIndex := 0; taskStates := ∅; isFinished := false |}.

(** [{ startTime: null, responseTimeMs: 0, correct: null, errors: 0 }] *)
Definition blank : TaskState :=
  {| startTime := None; responseTimeMs := 0%Q; correct := None; errors := 0%nat;
     selectedOption := None; freeResponse := None; sequence := None |}.

Definition set_taskStates (st : State) (m : gmap string TaskState) : State :=
  {| currentIndex := currentIndex st; taskStates := m; isFinished := isFinished st |}.

Definition with_startTime (cur : TaskState) (t : option Q) : TaskState :=
  {| startTime := t; responseTimeMs := responseTimeMs cur;
     correct := correct cur; errors := errors cur;
     selectedOption := selectedOption cur; freeResponse := freeResponse cur;
     sequence := sequence cur |}.

Definition with_sequence (cur : TaskState) (s : list Z) : TaskState :=
  {| startTime := startTime cur; responseTimeMs := responseTimeMs cur;
     correct := correct cur; errors := errors cur;
     selectedOption := selectedOption cur; freeResponse := freeResponse cur;
     sequence := Some s |}.

Definition with_freeResponse (cur : TaskState) (text : string) : TaskState :=
  {| startTime := startTime cur; responseTimeMs := responseTimeMs cur;
     correct := correct cur; errors := errors cur;
     selectedOption := selectedOption cur; freeResponse := Some text;
     sequence := sequence cur |}.

(** [{ ...cur, selectedOption: optionIndex, correct: isCorrect }] *)
Definition with_choice (cur : TaskState) (optionIndex : Z)
    (isCorrect : option bool) : TaskState :=
  {| startTime := startTime cur; responseTimeMs := responseTimeMs cur;
     correct := isCorrect; errors := errors cur;
     selectedOption := Some optionIndex; freeResponse := freeResponse cur;
     sequence := sequence cur |}.

(** [{ ...currentState, ...overrides, startTime: null, responseTimeMs }] *)
Definition completed (cur : TaskState) (o : Overrides) (responseTime : Q)
  : TaskState :=
  {| startTime := None;
     responseTimeMs := responseTime;
     correct := default (correct cur) (o_correct o);
     errors := default (errors cur) (o_errors o);
     selectedOption := match o_selectedOption o with
                       | Some i => Some i
                       | None => selectedOption cur
                       end;
     freeResponse := match o_freeResponse o with
                     | Some s => Some s
                     | None => freeResponse cur
                     end;
     sequence := match o_sequence o with
                 | Some s => Some s
                 | None => sequence cur
                 end |}.

(** [taskStates[id]?.sequence ?? []] *)
Definition selection (m : gmap string TaskState) (taskId : string) : list Z :=
  default [] (m !! taskId ≫= sequence).

(** [taskStates[id]?.startTime] is truthy: the task is active. *)
Definition started (m : gmap string TaskState) (taskId : string) : bool :=
  match m !! taskId with
  | Some cur => Js.truthy_time (startTime cur)
  | None => false
  end.

Definition startTaskTimer (taskId : string) (now : Q) (st : State) : State :=
  let prev := taskStates st in
  set_taskStates st
    (<[taskId := with_startTime (default blank (prev !! taskId)) (Some now)]> prev).

(** [ts] and [c] are the [tasks] prop and the state the calling closure
    was rendered from; [st] is the state the updaters run on. *)
Definition completeTask (ts : list CognitiveTask) (c : State)
    (taskId : string) (overrides : Overrides) (now : Q) (st : State) : State :=
  let prev := taskStates st in
  let next :=
    match prev !! taskId with
    | Some currentState =>
        match startTime currentState with
        | Some t0 =>
            if Js.truthy_time (Some t0) then
              let responseTime :=
                default (now - t0)%Q (o_responseTimeMs overrides) in
              <[taskId := completed currentState overrides responseTime]> prev
            else prev
        | None => prev
        end
    | None => prev
    end in
  if Z.of_nat (currentIndex c) <? Z.of_nat (length ts) - 1 then
    {| currentIndex := currentIndex st + 1; taskStates := next;
       isFinished := isFinished st |}
  else
    {| currentIndex := currentIndex st; taskStates := next; isFinished := true |}.

Definition handleOptionSelect (ts : list CognitiveTask) (task : CognitiveTask)
    (optionIndex : Z) (now : Q) (st : State) : State * list Effect :=
  if negb (started (taskStates st) (id task)) then
    (st, [toast "Start the task first" (Some "Press Begin before answering.")])
  else
    match sequenceAnswer task, options task with
    | Some expected, Some _ =>
        (* sequence mode: accumulate, no completion *)
        let prev := taskStates st in
        let cur := default blank (prev !! id task) in
        let seq := default [] (sequence cur) in
        if Js.includes seq optionIndex
           || bool_decide (length expected ≤ length seq)%nat
        then (st, [])
        else (set_taskStates st
                (<[id task := with_sequence cur (seq ++ [optionIndex])]> prev), [])
    | _, _ =>
        (* single-choice mode *)
        let isCorrect :=
          match correctAnswer task with
          | Some a => Some (bool_decide (optionIndex = a))
          | None => None
          end in
        let prev := taskStates st in
        let st1 :=
          set_taskStates st
            (<[id task := with_choice (default blank (prev !! id task))
                            optionIndex isCorrect]> prev) in
        (completeTask ts st (id task)
           {| o_responseTimeMs := None; o_correct := Some isCorrect;
              o_errors := None; o_selectedOption := Some optionIndex;
              o_freeResponse := None; o_sequence := None |} now st1, [])
    end.

(** The counting loop of the Complete button:
    [for (let i = 0; i < len; i++) if (expected[i] !== seq[i]) mismatches++],
    entered at index [i] with [n] iterations left. *)
Fixpoint count_from (expected seq : list Z) (i n mismatches : nat) : nat :=
  match n with
  | O => mismatches
  | S n' =>
      count_from expected seq (S i) n'
        (if decide (expected !! i = seq !! i) then mismatches else S mismatches)
  end.

Definition count_mismatches (expected seq : list Z) : nat :=
  count_from expected seq 0 (Nat.max (length expected) (length seq)) 0.

(** The [onClick] of the Complete button.  [now0] and [now1] are the
    clock readings of [startTaskTimer] and [completeTask]. *)
Definition handleCompleteClick (ts : list CognitiveTask)
    (currentTask : CognitiveTask) (now0 now1 : Q) (st : State) : State :=
  match sequenceAnswer currentTask with
  | Some expected =>
      let seq :=
        match taskStates st !! id currentTask with
        | Some state => default [] (sequence state)
        | None => []
        end in
      let mismatches := count_mismatches expected seq in
      let isCorrect :=
        (mismatches =? 0)%nat && (length seq =? length expected)%nat in
      completeTask ts st (id currentTask)
        {| o_responseTimeMs := None; o_correct := Some (Some isCorrect);
           o_errors := Some mismatches; o_selectedOption := None;
           o_freeResponse := None; o_sequence := None |} now1 st
  | None =>
      let noInput :=
        match options currentTask with
        | Some (_ :: _) => false
        | _ => true
        end in
      let st1 :=
        if noInput && negb (started (taskStates st) (id currentTask))
        then startTaskTimer (id currentTask) now0 st
        else st in
      let markCorrect :=
        if decide (type currentTask = clock_drawing)
        then {| o_responseTimeMs := None; o_correct := Some (Some true);
                o_errors := None; o_selectedOption := None;
                o_freeResponse := None; o_sequence := None |}
        else no_overrides in
      completeTask ts st (id currentTask) markCorrect now1 st1
  end.

(** The [onClick] of the Undo button. *)
Definition handleUndoClick (currentTask : CognitiveTask) (st : State) : State :=
  let prev := taskStates st in
  match prev !! id currentTask with
  | Some cur =>
      match sequence cur with
      | Some (x :: s) =>
          set_taskStates st
            (<[id currentTask := with_sequence cur (removelast (x :: s))]> prev)
      | _ => st
      end
  | None => st
  end.

(** The [onChange] of the clock description. *)
Definition handleFreeResponseChange (currentTask : CognitiveTask)
    (text : string) (st : State) : State :=
  let prev := taskStates st in
  set_taskStates st
    (<[id currentTask :=
         with_freeResponse (default blank (prev !! id currentTask)) text]> prev).

(** ** Submission *)

Definition log_of (states : gmap string TaskState) (task : CognitiveTask)
  : Api.InteractionLog :=
  let state := states !! id task in
  {| Api.taskId := id task;
     Api.taskType := Api.cognitive;
     Api.prompt := prompt task;
     Api.responseTimeMs := default 0%Q (responseTimeMs <$> state);
     Api.correct := state ≫= correct;
     Api.errors := errors <$> state;
     Api.metadata :=
       match sequenceAnswer task with
       | Some expected =>
           Some {| Api.expectedSequence := expected;
                   Api.selectedSequence := default [] (state ≫= sequence) |}
       | None => None
       end |}.

(** [Math.max(0, (state?.correct ? 1 : 0) - (state?.errors ?? 0) * 0.1)] *)
Definition adjustedScore (state : option TaskState) : Q :=
  let baseScore : Q :=
    match state ≫= correct with
    | Some true => 1%Q
    | _ => 0%Q
    end in
  let penalty : Q :=
    (inject_Z (Z.of_nat (default 0%nat (errors <$> state))) * (1 # 10))%Q in
  Qmax 0 (baseScore - penalty)%Q.

(** The body of the [reduce] callback. *)
Definition score_step (states : gmap string TaskState)
    (acc : Api.CognitiveScores) (task : CognitiveTask) : Api.CognitiveScores :=
  let adjusted := adjustedScore (states !! id task) in
  let bump (hit : bool) (x : Q) : Q := if hit then (x + adjusted)%Q else x in
  {| Api.memoryScore :=
       bump (bool_decide (type task = word_recall)) (Api.memoryScore acc);
     Api.attentionScore :=
       bump (bool_decide (type task = digit_span)
             || bool_decide (type task = attention)) (Api.attentionScore acc);
     Api.languageScore :=
       bump (bool_decide (type task = tapping)) (Api.languageScore acc);
     Api.executiveScore :=
       bump (bool_decide (type task = clock_drawing)) (Api.executiveScore acc) |}.

Definition zero_scores : Api.CognitiveScores :=
  {| Api.memoryScore := 0%Q; Api.attentionScore := 0%Q;
     Api.languageScore := 0%Q; Api.executiveScore := 0%Q |}.

Definition payload_of (ts : list CognitiveTask) (states : gmap string TaskState)
  : CognitiveCompletionPayload :=
  {| logs := log_of states <$> ts;
     scores := fold_left (score_step states) ts zero_scores;
     clockDrawing :=
       match list_find (λ t, type t = clock_drawing) ts with
       | Some (_, clock) => states !! id clock ≫= freeResponse
       | None => None
       end |}.

(** The scoring rule in the words of the design: the total of a domain
    is the sum of the adjusted scores of the tasks whose kind is
    attributed to it.  It is compared with [payload_of] below. *)
Definition domain_total (kinds : list TaskType)
    (states : gmap string TaskState) (ts : list CognitiveTask) : Q :=
  foldr (λ t total, (adjustedScore (states !! id t) + total)%Q) 0%Q
    (filter (λ t, type t ∈ kinds) ts).

(** [handleFinish]: [onComplete] tells how the awaited callback settles. *)
Definition handleFinish (ts : list CognitiveTask) (st : State)
    (onComplete : CognitiveCompletionPayload → Js.completion unit) : list Effect :=
  let payload := payload_of ts (taskStates st) in
  match onComplete payload with
  | Js.Return _ => [onComplete_call payload; toast "Cognitive tasks submitted" None]
  | Js.Throw error =>
      [onComplete_call payload; console_error error;
       toast "Submission failed"
         (Some "Could not submit cognitive responses. Please try again.")]
  end.

(** [Math.round(((currentIndex + (isFinished ? 1 : 0)) / tasks.length) * 100)] *)
Definition progress (ts : list CognitiveTask) (st : State) : Z :=
  Js.round
    ((inject_Z (Z.of_nat (currentIndex st + (if isFinished st then 1 else 0)))
      / inject_Z (Z.of_nat (length ts))) * 100)%Q.

(** ** The component as a transition system *)

Inductive Event :=
| BeginClick (now : Q)
| CompleteClick (now0 now1 : Q)
| OptionClick (optionIndex : Z) (now : Q)
| UndoClick
| FreeResponseChange (text : string).

(** One user event on the rendered component.  Nothing is rendered, and
    no handler can run, when [tasks[currentIndex]] is undefined.  The
    [disabled] flags of the buttons are not consulted: every handler may
    run in every state, which only enlarges the set of runs. *)
Definition step (ts : list CognitiveTask) (st : State) (ev : Event) : State :=
  match ts !! currentIndex st with
  | None => st
  | Some currentTask =>
      match ev with
      | BeginClick now => startTaskTimer (id currentTask) now st
      | CompleteClick now0 now1 => handleCompleteClick ts currentTask now0 now1 st
      | OptionClick optionIndex now =>
          (handleOptionSelect ts currentTask optionIndex now st).1
      | UndoClick => handleUndoClick currentTask st
      | FreeResponseChange text => handleFreeResponseChange currentTask text st
      end
  end.

Definition run (ts : list CognitiveTask) (evs : list Event) : State :=
  fold_left (step ts) evs initial.

(** How one event may change the selection of the task it is delivered
    to: not at all, by appending an index that is new while the
    selection is shorter than the expected permutation, or by dropping
    the last index. *)
Inductive seq_change (task : CognitiveTask) : list Z → list Z → Prop :=
| seq_same s : seq_change task s s
| seq_push s i expected :
    sequenceAnswer task = Some expected →
    i ∉ s → (length s < length expected)%nat →
    seq_change task s (s ++ [i])
| seq_pop s x : seq_change task (s ++ [x]) s.

(** The selection of every sequence task holds pairwise distinct indices
    and is no longer than the expected permutation. *)
Definition seq_inv (ts : list CognitiveTask) (st : State) : Prop :=
  ∀ t expected,
    t ∈ ts → sequenceAnswer t = Some expected →
    NoDup (selection (taskStates st) (id t)) ∧
    (length (selection (taskStates st) (id t)) ≤ length expected)%nat.

(** The error count of a task state is non-zero only for a sequence
    task that is not recorded as correct. *)
Definition score_inv (ts : list CognitiveTask) (st : State) : Prop :=
  ∀ t cur,
    t ∈ ts → taskStates st !! id t = Some cur →
    (sequenceAnswer t = None → errors cur = 0%nat) ∧
    (correct cur = Some true → errors cur = 0%nat).

End CognitiveTasks.

(* ================================================================== *)
(** * pages/Assessment.tsx *)
(* ================================================================== *)

Module Assessment.

Import CognitiveTasks.

(** ** Task catalog *)

Definition SPEECH_TASKS : list SpeechRecorder.SpeechTask :=
  [ {| SpeechRecorder.id := "picture-description";
       SpeechRecorder.title := "Picture Description";
       SpeechRecorder.description :=
         "Describe the scene shown in the picture prompt in as much detail as possible.";
       SpeechRecorder.prompt :=
         "Imagine you are looking at a photo of a family cooking together in a kitchen. Describe everything you see.";
       SpeechRecorder.maxDurationMs := Some (90000 # 1) |};
    {| SpeechRecorder.id := "story-recall";
       SpeechRecorder.title := "Story Recall";
       SpeechRecorder.description :=
         "Listen to a short story and retell it in your own words.";
       SpeechRecorder.prompt :=
         "Recall a memorable event from your life and describe what happened, who was involved, and how it made you feel.";
       SpeechRecorder.maxDurationMs := Some (120000 # 1) |};
    {| SpeechRecorder.id := "free-conversation";
       SpeechRecorder.title := "Open Conversation";
       SpeechRecorder.description :=
         "Speak freely about any topic of your choice for at least one minute.";
       SpeechRecorder.prompt :=
         "Share your thoughts about how technology has changed communication in your lifetime.";
       SpeechRecorder.maxDurationMs := Some (90000 # 1) |} ].

(** [[...arr].sort(() => Math.random() - 0.5)].  The comparator ignores
    its arguments, so the call returns some rearrangement of a copy of
    [arr]; which one depends on the engine's sorting procedure and on the
    random draws.  The draws are modelled by a list of picks: each pick
    chooses (modulo the number of remaining elements) the element that
    comes next.  Every rearrangement is obtained from some list of picks
    and nothing else is. *)
Fixpoint shuffle_go {A : Type} (n : nat) (picks : list nat) (arr : list A)
  : list A :=
  match n with
  | O => []
  | S n' =>
      let i := (hd 0 picks `mod` length arr)%nat in
      match arr !! i with
      | Some x => x :: shuffle_go n' (tl picks) (delete i arr)
      | None => []
      end
  end.

Definition shuffle {A : Type} (picks : list nat) (arr : list A) : list A :=
  shuffle_go (length arr) picks arr.

Definition makeWordRecallTask (picks : list nat) (id title : string)
    (words : list string) : CognitiveTask :=
  let options := shuffle picks words in
  let sequenceAnswer := (λ w, Js.indexOf options w) <$> words in
  {| id := id;
     type := word_recall;
     title := title;
     description :=
       "Remember the list of words and tap them in the same order after Begin.";
     prompt := "Remember the words: " +:+ Js.join ", " words +:+ ".";
     options := Some options;
     correctAnswer := None;
     durationMs := None;
     sequenceAnswer := Some sequenceAnswer |}.

(** [picks1] drives the inner shuffle (the distractor draw) and [picks2]
    the outer one (the order of the options). *)
Definition makeDigitSpanTask (picks1 picks2 : list nat) (id title : string)
    (digits : list Z) : CognitiveTask :=
  let pool :=
    shuffle picks2
      (Js.from_Set (digits ++ take 5 (shuffle picks1 [0; 1; 2; 3; 4; 5; 6; 7; 8; 9]))) in
  let options := Js.String_of <$> pool in
  let sequenceAnswer := (λ d, Js.indexOf options (Js.String_of d)) <$> digits in
  {| id := id;
     type := digit_span;
     title := title;
     description := "Tap the digits in the exact order after Begin.";
     prompt := Js.join ", " (Js.String_of <$> digits);
     options := Some options;
     correctAnswer := None;
     durationMs := None;
     sequenceAnswer := Some sequenceAnswer |}.

Definition WORDS_BY_LANG : gmap string (list string) :=
  list_to_map
    [("en",
        ["Apple"; "Train"; "Moon"; "Garden"; "Candle"; "Bridge"; "Star"; "Window"; "River"; "Mirror"; "Bottle"]);
     ("hi",
        ["सेब"; "रेल"; "चाँद"; "बाग"; "मोमबत्ती"; "पुल"; "तारा"; "खिड़की"; "नदी"; "आईना"; "बोतल"]);
     ("bn",
        ["আপেল"; "ট্রেন"; "চাঁদ"; "উদ্যান"; "মোমবাতি"; "সেতু"; "তারকা"; "জানালা"; "নদী"; "আয়না"; "বোতল"]);
     ("ta",
        ["ஆப்பிள்"; "ரயில்"; "நிலா"; "தோட்டம்"; " மெழுகுவர்த்தி"; "பாலம்"; "நட்சத்திரம்"; "ஜன்னல்"; "நதி"; "கண்ணாடி"; "பாட்டில்"])].

(** [WORDS_BY_LANG[language] ?? WORDS_BY_LANG.en] *)
Definition lexicon (language : string) : list string :=
  match WORDS_BY_LANG !! language with
  | Some lex => lex
  | None => default [] (WORDS_BY_LANG !! "en")
  end.

Definition attention1 : CognitiveTask :=
  {| id := "attention-sequence";
     type := attention;
     title := "Attention Pattern";
     description := "Continue the color sequence.";
     prompt := "Red → Blue → Red → Blue → ?";
     options := Some ["Red"; "Blue"; "Green"];
     correctAnswer := Some 0;
     durationMs := None;
     sequenceAnswer := None |}.

Definition visualSearch : CognitiveTask :=
  {| id := "attention-visual";
     type := attention;
     title := "Visual Search";
     description := "Find the odd-one-out.";
     prompt := "Square, Square, Circle, Square → Which is different?";
     options := Some ["Circle"; "Square"; "Triangle"];
     correctAnswer := Some 0;
     durationMs := None;
     sequenceAnswer := None |}.

Definition clock : CognitiveTask :=
  {| id := "clock-drawing";
     type := clock_drawing;
     title := "Clock Drawing";
     description := "Imagine drawing a clock showing the time 10 past 11.";
     prompt :=
       "Picture a clock and describe how you would place the numbers and hands for 11:10.";
     options := None;
     correctAnswer := None;
     durationMs := None;
     sequenceAnswer := None |}.

(** [rnd k] holds the picks of the [k]-th call of [shuffle], in
    evaluation order. *)
Definition generateCognitiveTasks (rnd : nat → list nat) (language : string)
  : list CognitiveTask :=
  let lex := lexicon language in
  let poolA := take 5 (shuffle (rnd 0%nat) lex) in
  let poolB :=
    take 5 (shuffle (rnd 1%nat)
              (List.filter (λ w, negb (Js.includes poolA w)) lex)) in
  let word1 := makeWordRecallTask (rnd 2%nat) "word-recall" "Word Recall" poolA in
  let word2 :=
    makeWordRecallTask (rnd 3%nat) "word-recall-2" "Word Recall II" poolB in
  let digit1 :=
    makeDigitSpanTask (rnd 4%nat) (rnd 5%nat) "digit-span" "Digit Span"
      [3; 9; 1; 4; 7] in
  let digit2 :=
    makeDigitSpanTask (rnd 6%nat) (rnd 7%nat) "digit-span-reverse"
      "Digit Span (Reverse)" [7; 2; 9; 3] in
  [word1; digit1; attention1; word2; digit2; visualSearch; clock].

(** ** Orchestrator *)

Record UserProfile := {
  user_id : string;
  name : string;
  age : Z;
  language : string;
  consent : bool;
  accessToken : option string
}.

(** The session context ([UserSessionContext]). *)
Record Session := {
  user : option UserProfile;
  assessmentId : option string
}.

(** The [useState] cells of the page, and the browser's [localStorage]. *)
Record State := {
  activeStepIndex : nat;
  isLoading : bool;
  isSpeechUploading : bool;
  result : option Js.value;
  isResultPending : bool;
  history : Js.value;
  localStorage : History.Storage
}.

Inductive Effect :=
| toast (title : string) (description : option Js.value)
| console_error (e : Js.value)
| uploadSpeechSample_call (taskId : string)
| submitCognitiveData_call (payload : CognitiveCompletionPayload)
| requestRiskPrediction_call
| fetchAssessmentResult_call
| sleep (ms : Z).

(** How the backend answers during one run of a handler: the outcome of
    the submission, of the prediction trigger, and of the [i]-th result
    request. *)
Record Server := {
  submit : Js.completion Js.value;
  predict : Js.completion Js.value;
  fetch : nat → Js.completion Api.Response
}.

(** [STEP_CONFIG.length] *)
Definition STEP_COUNT : nat := 4.

Definition set_step (st : State) (i : nat) : State :=
  {| activeStepIndex := i; isLoading := isLoading st;
     isSpeechUploading := isSpeechUploading st; result := result st;
     isResultPending := isResultPending st; history := history st;
     localStorage := localStorage st |}.

Definition set_isLoading (st : State) (b : bool) : State :=
  {| activeStepIndex := activeStepIndex st; isLoading := b;
     isSpeechUploading := isSpeechUploading st; result := result st;
     isResultPending := isResultPending st; history := history st;
     localStorage := localStorage st |}.

Definition set_isSpeechUploading (st : State) (b : bool) : State :=
  {| activeStepIndex := activeStepIndex st; isLoading := isLoading st;
     isSpeechUploading := b; result := result st;
     isResultPending := isResultPending st; history := history st;
     localStorage := localStorage st |}.

Definition set_isResultPending (st : State) (b : bool) : State :=
  {| activeStepIndex := activeStepIndex st; isLoading := isLoading st;
     isSpeechUploading := isSpeechUploading st; result := result st;
     isResultPending := b; history := history st;
     localStorage := localStorage st |}.

Definition set_result (st : State) (r : option Js.value) : State :=
  {| activeStepIndex := activeStepIndex st; isLoading := isLoading st;
     isSpeechUploading := isSpeechUploading st; result := r;
     isResultPending := isResultPending st; history := history st;
     localStorage := localStorage st |}.

(** [saveAssessmentResult(user.id, fetched); setHistory(loadAssessmentHistory(user.id))] *)
Definition remember (st : State) (userId : string) (fetched : Js.value) : State :=
  let ls := History.saveAssessmentResult (localStorage st) userId fetched in
  {| activeStepIndex := activeStepIndex st; isLoading := isLoading st;
     isSpeechUploading := isSpeechUploading st; result := result st;
     isResultPending := isResultPending st;
     history := History.loadAssessmentHistory ls userId;
     localStorage := ls |}.

Definition advanceStep (st : State) : State :=
  set_step st (Nat.min (activeStepIndex st + 1) (STEP_COUNT - 1)).

Definition resetAssessment (ses : Session) (st : State) : Session * State :=
  ({| user := None; assessmentId := None |},
   set_isResultPending (set_result (set_step st 0) None) false).

(** [error instanceof Error ? error.message : fallback] *)
Definition describe (error : Js.value) (fallback : string) : Js.value :=
  match error with
  | Js.error _ message => Js.str message
  | _ => Js.str fallback
  end.

(** [!assessmentId || !user] *)
Definition not_started (ses : Session) : bool :=
  negb (Js.truthy_id (assessmentId ses)) || negb (bool_decide (is_Some (user ses))).

(** The [onUpload] prop handed to the recorder.  [upload] tells how
    [uploadSpeechSample] settles.  Every path returns normally: the
    promise the recorder awaits is always fulfilled.  (The description
    of the success toast, a sentence naming the duration and the task,
    is left out.) *)
Definition handleSpeechUpload (ses : Session) (upload : Js.completion Js.value)
    (p : SpeechRecorder.Payload) (st : State)
  : Js.completion unit * State * list Effect :=
  if not_started ses then
    (Js.Return tt, st,
     [toast "Assessment not started"
        (Some (Js.str "Please complete onboarding first."))])
  else
    let st1 := set_isSpeechUploading st true in
    match upload with
    | Js.Return _ =>
        (Js.Return tt, set_isSpeechUploading st1 false,
         [uploadSpeechSample_call (SpeechRecorder.taskId p);
          toast "Speech sample captured" None])
    | Js.Throw error =>
        (Js.Return tt, set_isSpeechUploading st1 false,
         [uploadSpeechSample_call (SpeechRecorder.taskId p);
          console_error error;
          toast "Upload failed"
            (Some (describe error "Check your connection and try again."))])
    end.

(** The polling loop
    [for (let i = 0; i < 15; i++) { try { fetched = await fetch..; break; }
     catch (err) { await sleep(1000); } }],
    entered at iteration [i] with [n] iterations left and [fetched] still
    [null]. *)
Fixpoint poll {engine : Js.Engine} (fetch : nat → Js.completion Api.Response) (i n : nat)
  : Js.value * list Effect :=
  match n with
  | O => (Js.null, [])
  | S n' =>
      match Api.fetchAssessmentResult (fetch i) with
      | Js.Return r => (r, [fetchAssessmentResult_call])
      | Js.Throw _ =>
          let '(fetched, effects) := poll fetch (S i) n' in
          (fetched, fetchAssessmentResult_call :: sleep 1000 :: effects)
      end
  end.

Definition handleCognitiveComplete {engine : Js.Engine} (ses : Session) (srv : Server)
    (payload : CognitiveCompletionPayload) (st : State) : State * list Effect :=
  if not_started ses then
    (st, [toast "Assessment not started"
            (Some (Js.str "Please complete onboarding first."))])
  else
    let userId := default "" (user_id <$> user ses) in
    let st1 := set_isResultPending (advanceStep (set_isLoading st true)) true in
    let failed (error : Js.value) (effects : list Effect) :=
      (set_isLoading (set_isResultPending st1 false) false,
       effects ++ [console_error error;
                   toast "Prediction failed"
                     (Some (describe error "Please try again later."))]) in
    match submit srv with
    | Js.Throw error => failed error [submitCognitiveData_call payload]
    | Js.Return _ =>
        let e1 := [submitCognitiveData_call payload;
                   toast "Cognitive data captured" None] in
        match predict srv with
        | Js.Throw error => failed error (e1 ++ [requestRiskPrediction_call])
        | Js.Return _ =>
            let '(fetched, e2) := poll (fetch srv) 0 15 in
            let e := e1 ++ requestRiskPrediction_call :: e2 in
            if Js.truthy fetched then
              let st2 := remember (set_result st1 (Some fetched)) userId fetched in
              (set_isLoading (set_isResultPending st2 false) false, e)
            else
              (set_isLoading (set_isResultPending st1 false) false,
               e ++ [toast "Prediction pending"
                       (Some (Js.str "Result is taking longer than usual. Please wait a few seconds and retry."))])
        end
    end.

(** [k] unsuccessful result requests, each followed by its one-second
    sleep. *)
Definition polls (k : nat) : list Effect :=
  concat (replicate k [fetchAssessmentResult_call; sleep 1000]).

Definition is_fetch (e : Effect) : bool :=
  match e with fetchAssessmentResult_call => true | _ => false end.

(** Number of result requests in a trace. *)
Definition fetches (effects : list Effect) : nat :=
  length (List.filter is_fetch effects).

(** ** Onboarding *)

Record OnboardingFormValues := {
  v_name : string;
  v_age : Z;
  v_language : string;
  v_consent : bool
}.

Inductive OnboardingEffect :=
| registerUser_call (values : OnboardingFormValues)
| startAssessment_call (token : option string)
| onboarding_toast (title : string) (description : option Js.value)
| onboarding_error (e : Js.value).

(** [handleOnboardingSubmit].  [register] tells how [registerUser]
    settles, its answer being read at the declared type: the profile
    that [setUser] receives.  [start] tells how [startAssessment]
    settles and which identifier it carries. *)
Definition handleOnboardingSubmit (values : OnboardingFormValues)
    (register : Js.completion UserProfile)
    (start : Js.completion (option string))
    (ses : Session) (st : State) : Session * State * list OnboardingEffect :=
  let failed (ses' : Session) (error : Js.value) (effects : list OnboardingEffect) :=
    (ses', set_isLoading st false,
     effects ++ [onboarding_error error;
                 onboarding_toast "Could not register"
                   (Some (describe error "Please try again later."))]) in
  match register with
  | Js.Throw error => failed ses error [registerUser_call values]
  | Js.Return profile =>
      let ses1 := {| user := Some profile; assessmentId := assessmentId ses |} in
      let e1 := [registerUser_call values;
                 startAssessment_call (accessToken profile)] in
      match start with
      | Js.Throw error => failed ses1 error e1
      | Js.Return newId =>
          ({| user := Some profile; assessmentId := newId |},
           set_isLoading (advanceStep (set_isLoading st true)) false,
           e1 ++ [onboarding_toast "Registration successful"
                    (Some (Js.str "You can now begin your spoken assessment."))])
      end
  end.

(** [handleSpeechComplete] *)
Definition handleSpeechComplete (st : State) : State * list Effect :=
  (advanceStep st,
   [toast "Speech tasks done"
      (Some (Js.str "Continue with the cognitive exercises."))]).

(** ** The recorder on the page

    The page renders the recorder with [onUpload={handleSpeechUpload}]
    and [onComplete={handleSpeechComplete}].  [upload i] tells how
    [uploadSpeechSample] settles the [i]-th time it is called while one
    chunk is handled. *)

(** The page state the [i]-th call of [onUpload] runs on: the calls
    before it have run. *)
Fixpoint page_before (ses : Session) (upload : nat → Js.completion Js.value)
    (p : SpeechRecorder.Payload) (i : nat) (st : State) : State :=
  match i with
  | O => st
  | S j => (handleSpeechUpload ses (upload j) p (page_before ses upload p j st)).1.2
  end.

(** How the promise of the [i]-th call settles, which is all the
    recorder's retry loop looks at. *)
Definition onUpload_settles (ses : Session)
    (upload : nat → Js.completion Js.value) (st : State)
  : SpeechRecorder.UploadFn :=
  λ i p, (handleSpeechUpload ses (upload i) p (page_before ses upload p i st)).1.1.

(** An effect of the recorder, or one of the page inside a callback. *)
Inductive ChunkEffect :=
| in_recorder (e : SpeechRecorder.Effect)
| on_page (e : Effect).

(** The recorder's trace with the callbacks run on the page: each call
    of [onUpload] is followed by what [handleSpeechUpload] does, the
    call of [onComplete] by what [handleSpeechComplete] does.  [i]
    counts the calls of [onUpload] made so far. *)
Fixpoint with_page (ses : Session) (upload : nat → Js.completion Js.value)
    (i : nat) (effects : list SpeechRecorder.Effect) (st : State)
  : State * list ChunkEffect :=
  match effects with
  | [] => (st, [])
  | SpeechRecorder.onUpload_call p :: rest =>
      let '(_, st1, here) := handleSpeechUpload ses (upload i) p st in
      let '(st2, later) := with_page ses upload (S i) rest st1 in
      (st2, in_recorder (SpeechRecorder.onUpload_call p)
              :: (on_page <$> here) ++ later)
  | SpeechRecorder.onComplete_call :: rest =>
      let '(st1, here) := handleSpeechComplete st in
      let '(st2, later) := with_page ses upload i rest st1 in
      (st2, in_recorder SpeechRecorder.onComplete_call
              :: (on_page <$> here) ++ later)
  | e :: rest =>
      let '(st1, later) := with_page ses upload i rest st in
      (st1, in_recorder e :: later)
  end.

(** One chunk handled by the recorder on the page: the recorder's state,
    the page's state and everything done, in order. *)
Definition speech_chunk (ses : Session) (upload : nat → Js.completion Js.value)
    (c : SpeechRecorder.Closure) (data : SpeechRecorder.Blob)
    (page : State) (rec : SpeechRecorder.State)
  : SpeechRecorder.State * State * list ChunkEffect :=
  let r := SpeechRecorder.handleDataAvailable c (onUpload_settles ses upload page)
             data rec in
  let '(page', trace) := with_page ses upload 0 r.2 page in
  (r.1, page', trace).

End Assessment.

(* ================================================================== *)
(** * Properties *)
(* ================================================================== *)

(** ** Array helpers *)

Section ArrayFacts.
Context {A : Type} `{EqDecision A}.
Implicit Types (l : list A) (x : A).

Lemma indexOf_from_found k l x :
  x ∈ l →
  ∃ j : nat, Js.indexOf_from k l x = k + Z.of_nat j ∧ l !! j = Some x.
Proof.
  revert k. induction l as [|y l IH]; intros k Hin.
  - by apply elem_of_nil in Hin.
  - simpl. destruct (decide (y = x)) as [->|Hne].
    + exists 0%nat. split; [lia | done].
    + apply elem_of_cons in Hin as [->|Hin]; [done|].
      destruct (IH (k + 1) Hin) as (j & Hj & Hl).
      exists (S j). split; [lia | done].
Qed.

Lemma indexOf_from_missing k l x : x ∉ l → Js.indexOf_from k l x = -1.
Proof.
  revert k. induction l as [|y l IH]; intros k Hin; [done|].
  simpl. apply not_elem_of_cons in Hin as [Hne Hin].
  destruct (decide (y = x)); [congruence | by apply IH].
Qed.

(** Reading an array at the index [indexOf] returned gives the element
    back, and that index is in range. *)
Lemma nth_js_indexOf l x :
  x ∈ l →
  0 ≤ Js.indexOf l x < Z.of_nat (length l) ∧
  Js.nth_js l (Js.indexOf l x) = Some x.
Proof.
  intros Hin. destruct (indexOf_from_found 0 l x Hin) as (j & Hj & Hl).
  unfold Js.indexOf, Js.nth_js. rewrite Hj.
  apply lookup_lt_Some in Hl as Hlt.
  split; [lia|]. destruct (decide (0 ≤ 0 + Z.of_nat j)); [|lia].
  by replace (Z.to_nat (0 + Z.of_nat j)) with j by lia.
Qed.

Lemma from_Set_fold (acc l : list A) :
  NoDup acc →
  NoDup (fold_left (λ acc x, if decide (x ∈ acc) then acc else acc ++ [x]) l acc)
  ∧ ∀ x, x ∈ fold_left (λ acc x, if decide (x ∈ acc) then acc else acc ++ [x]) l acc
         ↔ x ∈ acc ∨ x ∈ l.
Proof.
  revert acc. induction l as [|y l IH]; intros acc Hacc; simpl.
  - split; [done|]. intros x. rewrite elem_of_nil. tauto.
  - destruct (decide (y ∈ acc)) as [Hy|Hy].
    + destruct (IH acc Hacc) as [Hnd Hel]. split; [done|].
      intros x. rewrite Hel, elem_of_cons. split; [tauto|].
      intros [?|[->|?]]; tauto.
    + assert (NoDup (acc ++ [y])) as Hacc'.
      { apply NoDup_app. split_and!; [done| |apply NoDup_singleton].
        intros z Hz ->%list_elem_of_singleton. done. }
      destruct (IH _ Hacc') as [Hnd Hel]. split; [done|].
      intros x. rewrite Hel, elem_of_app, list_elem_of_singleton, elem_of_cons.
      tauto.
Qed.

Lemma from_Set_NoDup l : NoDup (Js.from_Set l).
Proof. apply from_Set_fold, NoDup_nil_2. Qed.

Lemma elem_of_from_Set l x : x ∈ Js.from_Set l ↔ x ∈ l.
Proof.
  unfold Js.from_Set.
  destruct (from_Set_fold [] l (NoDup_nil_2 )) as [_ Hel].
  rewrite Hel, elem_of_nil. tauto.
Qed.

Lemma filter_eq_missing l x : x ∉ l → filter (λ y, y = x) l = [].
Proof.
  induction l as [|y l IH]; [done|].
  intros [Hne Hin]%not_elem_of_cons.
  rewrite filter_cons_False by congruence. by apply IH.
Qed.

(** In a duplicate-free array, a member occurs exactly once. *)
Lemma NoDup_occurs_once l x :
  NoDup l → x ∈ l → length (filter (λ y, y = x) l) = 1%nat.
Proof.
  induction 1 as [|y l Hy Hnd IH]; intros Hin.
  - by apply elem_of_nil in Hin.
  - rewrite filter_cons. destruct (decide (y = x)) as [->|Hne].
    + simpl. by rewrite filter_eq_missing.
    + apply elem_of_cons in Hin as [->|Hin]; [done | by apply IH].
Qed.

End ArrayFacts.

(** ** Task catalog *)

Section CatalogFacts.
Import CognitiveTasks Assessment.

Lemma shuffle_go_Permutation {A} n picks (arr : list A) :
  length arr = n → shuffle_go n picks arr ≡ₚ arr.
Proof.
  revert picks arr. induction n as [|n IH]; intros picks arr Hlen; simpl.
  - by apply nil_length_inv in Hlen as ->.
  - assert (hd 0 picks `mod` length arr < length arr)%nat as Hlt
      by (apply Nat.mod_upper_bound; lia).
    destruct (lookup_lt_is_Some_2 _ _ Hlt) as [x Hx]. rewrite Hx.
    etrans; [|symmetry; apply (delete_Permutation arr _ x Hx)].
    constructor. apply IH. rewrite length_delete by eauto. lia.
Qed.

(** A shuffle rearranges its argument. *)
Lemma shuffle_Permutation {A} picks (arr : list A) : shuffle picks arr ≡ₚ arr.
Proof. by apply shuffle_go_Permutation. Qed.

(** Every rearrangement is the outcome of some draws. *)
Lemma shuffle_any {A} (arr arr' : list A) :
  arr ≡ₚ arr' → ∃ picks, shuffle picks arr = arr'.
Proof.
  revert arr. induction arr' as [|x l' IH]; intros arr Hp.
  - apply Permutation_nil_r in Hp as ->. by exists [].
  - assert (x ∈ arr) as Hin by (rewrite Hp; left).
    apply list_elem_of_lookup in Hin as [i Hi].
    assert (delete i arr ≡ₚ l') as Hd.
    { apply (Permutation_cons_inv (a := x)).
      by rewrite <- (delete_Permutation arr i x Hi). }
    destruct (IH _ Hd) as [picks' Hpicks].
    exists (i :: picks'). unfold shuffle in *.
    apply lookup_lt_Some in Hi as Hlt.
    destruct (length arr) as [|n] eqn:Hlen; [lia|]. simpl.
    rewrite Hlen, Nat.mod_small, Hi by lia. f_equal.
    rewrite length_delete in Hpicks by eauto.
    by replace (length arr - 1)%nat with n in Hpicks by lia.
Qed.

Lemma String_of_inj : Inj (=) (=) Js.String_of.
Proof. unfold Js.String_of. apply _. Qed.

(** The expected indices lead back to the targets, for any array of
    options that contains the targets. *)
Lemma indices_recover {A B} `{EqDecision B} (f : A → B)
    (targets : list A) (opts : list B) :
  (∀ x, x ∈ targets → f x ∈ opts) →
  Forall2 (λ x k, 0 ≤ k < Z.of_nat (length opts) ∧ Js.nth_js opts k = Some (f x))
    targets ((λ x, Js.indexOf opts (f x)) <$> targets).
Proof.
  intros Hin. apply Forall2_fmap_r, Forall_Forall2_diag, Forall_forall.
  intros x Hx. by apply nth_js_indexOf, Hin.
Qed.

(** The option pool of a digit-span task: duplicate-free, and holding
    every target digit. *)
Lemma digit_pool picks1 picks2 (digits : list Z) :
  let pool :=
    shuffle picks2
      (Js.from_Set (digits ++ take 5 (shuffle picks1 [0; 1; 2; 3; 4; 5; 6; 7; 8; 9]))) in
  NoDup pool ∧ ∀ d, d ∈ digits → d ∈ pool.
Proof.
  intros pool. unfold pool. split.
  - rewrite shuffle_Permutation. apply from_Set_NoDup.
  - intros d Hd. rewrite shuffle_Permutation, elem_of_from_Set, elem_of_app.
    by left.
Qed.

Lemma makeWordRecallTask_indices picks id title (words : list string) :
  ∃ opts sa,
    options (makeWordRecallTask picks id title words) = Some opts ∧
    sequenceAnswer (makeWordRecallTask picks id title words) = Some sa ∧
    Forall2 (λ w k, 0 ≤ k < Z.of_nat (length opts) ∧ Js.nth_js opts k = Some w)
      words sa.
Proof.
  eexists _, _. split_and!; [done..|].
  apply (indices_recover (λ w, w)). intros w Hw. by rewrite shuffle_Permutation.
Qed.

Lemma makeDigitSpanTask_indices picks1 picks2 id title (digits : list Z) :
  ∃ opts sa,
    options (makeDigitSpanTask picks1 picks2 id title digits) = Some opts ∧
    sequenceAnswer (makeDigitSpanTask picks1 picks2 id title digits) = Some sa ∧
    Forall2 (λ d k, 0 ≤ k < Z.of_nat (length opts) ∧
                    Js.nth_js opts k = Some (Js.String_of d)) digits sa ∧
    NoDup opts ∧
    Forall (λ d, length (filter (λ o, o = Js.String_of d) opts) = 1%nat) digits.
Proof.
  destruct (digit_pool picks1 picks2 digits) as [Hnd Hin].
  assert (∀ d, d ∈ digits →
    Js.String_of d ∈ Js.String_of <$>
      shuffle picks2
        (Js.from_Set (digits ++ take 5 (shuffle picks1 [0; 1; 2; 3; 4; 5; 6; 7; 8; 9]))))
    as Hin' by (intros d Hd; apply list_elem_of_fmap_2, Hin, Hd).
  assert (NoDup (Js.String_of <$>
      shuffle picks2
        (Js.from_Set (digits ++ take 5 (shuffle picks1 [0; 1; 2; 3; 4; 5; 6; 7; 8; 9])))))
    as Hnd' by (apply (NoDup_fmap_2 _), Hnd; apply String_of_inj).
  eexists _, _. split_and!; [done..| | |].
  - by apply (indices_recover Js.String_of).
  - done.
  - apply Forall_forall. intros d Hd. apply NoDup_occurs_once; auto.
Qed.

Lemma expected_indices_valid {A} (P : A → Z → Prop) (n : Z) targets sa :
  Forall2 (λ x k, 0 ≤ k < n ∧ P x k) targets sa → Forall (λ k, 0 ≤ k < n) sa.
Proof.
  intros H. eapply Forall2_Forall_r; [exact H|].
  apply Forall_forall. intros x _ k [Hk _]. exact Hk.
Qed.

Lemma word_task_valid picks id title (words : list string) sa :
  sequenceAnswer (makeWordRecallTask picks id title words) = Some sa →
  ∃ opts, options (makeWordRecallTask picks id title words) = Some opts ∧
          Forall (λ k, 0 ≤ k < Z.of_nat (length opts)) sa.
Proof.
  destruct (makeWordRecallTask_indices picks id title words)
    as (opts & sa' & Ho & Hs & Hall).
  rewrite Hs. intros [= <-]. exists opts. split; [exact Ho|].
  exact (expected_indices_valid (λ w k, Js.nth_js opts k = Some w) _ _ _ Hall).
Qed.

Lemma digit_task_valid picks1 picks2 id title (digits : list Z) sa :
  sequenceAnswer (makeDigitSpanTask picks1 picks2 id title digits) = Some sa →
  ∃ opts, options (makeDigitSpanTask picks1 picks2 id title digits) = Some opts ∧
          Forall (λ k, 0 ≤ k < Z.of_nat (length opts)) sa.
Proof.
  destruct (makeDigitSpanTask_indices picks1 picks2 id title digits)
    as (opts & sa' & Ho & Hs & Hall & _).
  rewrite Hs. intros [= <-]. exists opts. split; [exact Ho|].
  exact (expected_indices_valid
           (λ d k, Js.nth_js opts k = Some (Js.String_of d)) _ _ _ Hall).
Qed.

(** C4. In a generated word-recall task, and in a generated digit-span
    task, reading the options at the [i]-th expected index gives the
    [i]-th target back, and every expected index is a valid position of
    the options.  In a digit-span task the options hold no digit twice
    (a distractor equal to a target is not added), so each target digit
    occurs exactly once among them.  In the catalog generated for a
    session, every task with expected indices has options, and the
    indices are positions of these options. *)
Theorem expected_indices_recover_targets :
  (∀ picks id title (words : list string),
     ∃ opts sa,
       options (makeWordRecallTask picks id title words) = Some opts ∧
       sequenceAnswer (makeWordRecallTask picks id title words) = Some sa ∧
       Forall2 (λ w k, 0 ≤ k < Z.of_nat (length opts) ∧ Js.nth_js opts k = Some w)
         words sa)
  ∧
  (∀ picks1 picks2 id title (digits : list Z),
     ∃ opts sa,
       options (makeDigitSpanTask picks1 picks2 id title digits) = Some opts ∧
       sequenceAnswer (makeDigitSpanTask picks1 picks2 id title digits) = Some sa ∧
       Forall2 (λ d k, 0 ≤ k < Z.of_nat (length opts) ∧
                       Js.nth_js opts k = Some (Js.String_of d)) digits sa ∧
       NoDup opts ∧
       Forall (λ d, length (filter (λ o, o = Js.String_of d) opts) = 1%nat) digits)
  ∧
  (∀ rnd language,
     Forall (λ t, ∀ sa, sequenceAnswer t = Some sa →
                  ∃ opts, options t = Some opts ∧
                          Forall (λ k, 0 ≤ k < Z.of_nat (length opts)) sa)
       (generateCognitiveTasks rnd language)).
Proof.
  split_and!.
  - intros. apply makeWordRecallTask_indices.
  - intros. apply makeDigitSpanTask_indices.
  - intros rnd language. unfold generateCognitiveTasks.
    repeat apply Forall_cons_2; [..|apply Forall_nil_2];
      try (intros sa Hsa; discriminate Hsa).
    + apply word_task_valid.
    + apply digit_task_valid.
    + apply word_task_valid.
    + apply digit_task_valid.
Qed.

(** The identifiers of a generated catalog are pairwise distinct. *)
Lemma generated_ids_distinct rnd language :
  NoDup (id <$> generateCognitiveTasks rnd language).
Proof.
  change (id <$> generateCognitiveTasks rnd language)
    with ["word-recall"; "digit-span"; "attention-sequence"; "word-recall-2";
          "digit-span-reverse"; "attention-visual"; "clock-drawing"].
  apply (bool_decide_unpack _). vm_compute. exact I.
Qed.

Example word_recall_example :
  let t := makeWordRecallTask [2; 0]%nat "word-recall" "Word Recall"
             ["Moon"; "Star"; "River"] in
  options t = Some ["River"; "Moon"; "Star"] ∧
  sequenceAnswer t = Some [1; 2; 0] ∧
  prompt t = "Remember the words: Moon, Star, River.".
Proof. by vm_compute. Qed.

(** Four of the five drawn distractors (3, 9, 1, 4, 6 here) are target
    digits already; only 6 joins the option pool. *)
Example digit_span_example :
  let t := makeDigitSpanTask [3; 8; 1; 2; 3]%nat [4; 2; 0; 2; 1]%nat "digit-span"
             "Digit Span" [3; 9; 1; 4; 7] in
  take 5 (shuffle [3; 8; 1; 2; 3]%nat [0; 1; 2; 3; 4; 5; 6; 7; 8; 9])
    = [3; 9; 1; 4; 6] ∧
  options t = Some ["7"; "1"; "3"; "6"; "4"; "9"] ∧
  sequenceAnswer t = Some [2; 5; 1; 4; 0] ∧
  prompt t = "3, 9, 1, 4, 7".
Proof. by vm_compute. Qed.

End CatalogFacts.

(** ** Scoring *)

Section ScoringFacts.
Import CognitiveTasks.

Lemma penalty_nonneg (n : nat) : (0 <= inject_Z (Z.of_nat n) * (1 # 10))%Q.
Proof.
  assert (0 <= inject_Z (Z.of_nat n))%Q
    by (change 0%Q with (inject_Z 0); rewrite <- Zle_Qle; lia).
  lra.
Qed.

Lemma penalty_ten (n : nat) :
  (10 ≤ n)%nat → (1 <= inject_Z (Z.of_nat n) * (1 # 10))%Q.
Proof.
  intros Hn.
  assert (inject_Z 10 <= inject_Z (Z.of_nat n))%Q by (rewrite <- Zle_Qle; lia).
  change (inject_Z 10) with 10%Q in *. lra.
Qed.

Lemma adjustedScore_bounds state :
  (0 <= adjustedScore state)%Q ∧ (adjustedScore state <= 1)%Q.
Proof.
  unfold adjustedScore.
  pose proof (penalty_nonneg (default 0%nat (errors <$> state))) as Hp.
  split; [apply Q.le_max_l|].
  apply Q.max_lub; [lra|].
  destruct (state ≫= correct) as [[]|]; lra.
Qed.

(** A task without a recorded state scores zero. *)
Lemma adjustedScore_None : (adjustedScore None == 0)%Q.
Proof. reflexivity. Qed.

(** C5. The adjusted score of a task lies between 0 and 1, whatever its
    state (a missing state included), and it is 0 as soon as the error
    count reaches 10, correct or not. *)
Theorem adjustedScore_range (state : option TaskState) :
  (0 <= adjustedScore state)%Q ∧ (adjustedScore state <= 1)%Q ∧
  ∀ cur, state = Some cur → (10 ≤ errors cur)%nat → (adjustedScore state == 0)%Q.
Proof.
  destruct (adjustedScore_bounds state) as [H0 H1]. split_and!; [done..|].
  intros cur -> Herr. unfold adjustedScore. simpl.
  pose proof (penalty_ten _ Herr) as Hp.
  apply Q.max_l. destruct (correct cur) as [[]|]; lra.
Qed.

Lemma adjustedScore_range_witness :
  let cur := {| startTime := None; responseTimeMs := 0; correct := Some true;
                errors := 12; selectedOption := None; freeResponse := None;
                sequence := Some [2; 0; 1] |} in
  (10 ≤ errors cur)%nat ∧ (adjustedScore (Some cur) == 0)%Q.
Proof.
  intros cur. assert (10 ≤ errors cur)%nat as H by (simpl; lia).
  split; [exact H|].
  exact (proj2 (proj2 (adjustedScore_range (Some cur))) cur eq_refl H).
Defined.

(** A correct task without errors scores one. *)
Lemma adjustedScore_perfect cur :
  correct cur = Some true → errors cur = 0%nat → (adjustedScore (Some cur) == 1)%Q.
Proof.
  intros Hc He. unfold adjustedScore. simpl. rewrite Hc, He. reflexivity.
Qed.

Lemma domain_total_cons kinds states t ts :
  (domain_total kinds states (t :: ts) ==
   (if bool_decide (type t ∈ kinds) then adjustedScore (states !! id t) else 0)
   + domain_total kinds states ts)%Q.
Proof.
  unfold domain_total. rewrite filter_cons.
  case_bool_decide as Hk; destruct (decide (type t ∈ kinds)); try done;
    simpl; lra.
Qed.

Lemma domain_total_empty kinds ts : (domain_total kinds ∅ ts == 0)%Q.
Proof.
  induction ts as [|t ts IH]; [reflexivity|].
  rewrite domain_total_cons, IH, lookup_empty.
  pose proof adjustedScore_None. case_bool_decide; lra.
Qed.

(** The [reduce] adds, to what the accumulator held, the total of each
    domain. *)
Lemma fold_score_step states ts acc :
  Api.scores_eq (fold_left (score_step states) ts acc)
    {| Api.memoryScore := Api.memoryScore acc + domain_total [word_recall] states ts;
       Api.attentionScore :=
         Api.attentionScore acc + domain_total [digit_span; attention] states ts;
       Api.languageScore := Api.languageScore acc + domain_total [tapping] states ts;
       Api.executiveScore :=
         Api.executiveScore acc + domain_total [clock_drawing] states ts |}.
Proof.
  revert acc. induction ts as [|t ts IH]; intros acc.
  - unfold Api.scores_eq, domain_total; simpl. split_and!; lra.
  - simpl fold_left. destruct (IH (score_step states acc t)) as (Hm & Ha & Hl & He).
    unfold Api.scores_eq in *. simpl in *.
    rewrite Hm, Ha, Hl, He, !domain_total_cons.
    destruct (type t); simpl; split_and!; lra.
Qed.

(** C7. Each domain score is the sum of the adjusted scores of the tasks
    attributed to it: word-recall to memory, digit-span and attention to
    attention, clock-drawing to executive, tapping to language.  A
    correct word-recall task without errors adds exactly 1 to memory and
    leaves the three other scores as they were; when the session has no
    other word-recall task its memory score is exactly 1. *)
Theorem domain_attribution :
  (∀ ts states,
     let s := scores (payload_of ts states) in
     (Api.memoryScore s == domain_total [word_recall] states ts)%Q ∧
     (Api.attentionScore s == domain_total [digit_span; attention] states ts)%Q ∧
     (Api.executiveScore s == domain_total [clock_drawing] states ts)%Q ∧
     (Api.languageScore s == domain_total [tapping] states ts)%Q)
  ∧
  (∀ t cur states,
     type t = word_recall → states !! id t = Some cur →
     correct cur = Some true → errors cur = 0%nat →
     (∀ acc,
        (Api.memoryScore (score_step states acc t) == Api.memoryScore acc + 1)%Q ∧
        Api.attentionScore (score_step states acc t) = Api.attentionScore acc ∧
        Api.languageScore (score_step states acc t) = Api.languageScore acc ∧
        Api.executiveScore (score_step states acc t) = Api.executiveScore acc)
     ∧
     (∀ ts1 ts2,
        Forall (λ t', type t' ≠ word_recall) (ts1 ++ ts2) →
        (Api.memoryScore (scores (payload_of (ts1 ++ t :: ts2) states)) == 1)%Q)).
Proof.
  split.
  - intros ts states s. subst s. simpl.
    destruct (fold_score_step states ts zero_scores) as (Hm & Ha & Hl & He).
    simpl in *. split_and!; lra.
  - intros t cur states Ht Hcur Hc He.
    pose proof (adjustedScore_perfect cur Hc He) as Hadj. split.
    + intros acc. unfold score_step. rewrite Ht, Hcur. simpl.
      split_and!; [lra | done..].
    + intros ts1 ts2 Hno. simpl.
      destruct (fold_score_step states (ts1 ++ t :: ts2) zero_scores)
        as (Hm & _). simpl in Hm. rewrite Hm.
      assert (∀ l, Forall (λ t', type t' ≠ word_recall) l →
                   filter (λ t', type t' ∈ [word_recall]) l = []) as Hnil.
      { induction 1 as [|t' l Ht' _ IH]; [done|].
        rewrite filter_cons_False; [done|].
        by intros Heq%list_elem_of_singleton. }
      apply Forall_app in Hno as [H1 H2].
      unfold domain_total. rewrite filter_app, (Hnil _ H1).
      rewrite filter_cons_True by (rewrite Ht; by apply list_elem_of_singleton).
      rewrite (Hnil _ H2). simpl. rewrite Hcur. lra.
Qed.

Lemma domain_attribution_witness :
  let t := Assessment.makeWordRecallTask [1; 0; 2]%nat "word-recall"
             "Word Recall" ["Moon"; "Star"; "River"] in
  let cur := {| startTime := None; responseTimeMs := 5200; correct := Some true;
                errors := 0; selectedOption := None; freeResponse := None;
                sequence := Some [1; 0; 2] |} in
  let states : gmap string TaskState := {[ "word-recall" := cur ]} in
  (Api.memoryScore
     (scores (payload_of ([Assessment.attention1] ++ t :: [Assessment.clock]) states))
   == 1)%Q.
Proof.
  intros t cur states.
  refine (proj2 (proj2 domain_attribution t cur states eq_refl _ eq_refl eq_refl)
            [Assessment.attention1] [Assessment.clock] _).
  - reflexivity.
  - repeat constructor; discriminate.
Defined.

(** C10. Assembling the submission yields, for every task list and every
    map of task states, one log per task, in task order.  A task without
    a recorded state gets a log with response time 0, unknown
    correctness, no error count, and (for a sequence task) an empty
    selected sequence; it changes none of the four domain scores.  With
    no state at all the four scores are zero.  [handleFinish] hands the
    assembled submission to its callback whatever the states are. *)
Theorem submission_total (ts : list CognitiveTask)
    (states : gmap string TaskState) :
  length (logs (payload_of ts states)) = length ts ∧
  (∀ i t, ts !! i = Some t →
     ∃ l, logs (payload_of ts states) !! i = Some l ∧
          Api.taskId l = id t ∧ Api.taskType l = Api.cognitive ∧
          Api.prompt l = prompt t ∧
          (states !! id t = None →
             Api.responseTimeMs l = 0%Q ∧ Api.correct l = None ∧
             Api.errors l = None ∧
             Api.metadata l =
               (λ expected, {| Api.expectedSequence := expected;
                               Api.selectedSequence := [] |})
               <$> sequenceAnswer t ∧
             ∀ acc, Api.scores_eq (score_step states acc t) acc))
  ∧ (states = ∅ → Api.scores_eq (scores (payload_of ts states)) zero_scores)
  ∧ (∀ st onComplete,
       taskStates st = states →
       ∃ rest, handleFinish ts st onComplete
               = onComplete_call (payload_of ts states) :: rest).
Proof.
  split_and!; [| | |intros st onComplete <-; unfold handleFinish;
                     destruct (onComplete _); eauto].
  - simpl. apply length_fmap.
  - intros i t Hi. exists (log_of states t). simpl.
    rewrite list_lookup_fmap, Hi. split_and!; [done..|].
    intros Hnone. unfold log_of. rewrite Hnone. simpl.
    split_and!; [done..| |].
    + by destruct (sequenceAnswer t).
    + intros acc. unfold Api.scores_eq, score_step. rewrite Hnone. simpl.
      pose proof adjustedScore_None.
      destruct (type t); simpl; split_and!; lra.
  - intros ->. simpl.
    destruct (fold_score_step ∅ ts zero_scores) as (Hm & Ha & Hl & He).
    unfold Api.scores_eq in *. simpl in *.
    rewrite Hm, Ha, Hl, He, !domain_total_empty. split_and!; lra.
Qed.

Lemma submission_total_witness :
  let ts := Assessment.generateCognitiveTasks (λ _, []) "en" in
  ∃ l, logs (payload_of ts ∅) !! 1%nat = Some l ∧
       Api.responseTimeMs l = 0%Q ∧ Api.correct l = None ∧
       Api.errors l = None.
Proof.
  intros ts.
  destruct (proj1 (proj2 (submission_total ts ∅)) 1%nat
              (Assessment.makeDigitSpanTask [] [] "digit-span" "Digit Span"
                 [3; 9; 1; 4; 7]) eq_refl)
    as (l & Hl & _ & _ & _ & Hnone).
  destruct (Hnone (lookup_empty _)) as (Hr & Hc & He & _).
  exists l. split_and!; [exact Hl | exact Hr | exact Hc | exact He].
Defined.

End ScoringFacts.

(** ** The cognitive task state machine *)

Section StateMachineFacts.
Import CognitiveTasks.

Lemma truthy_time_Some t : ¬ (t == 0)%Q → Js.truthy_time (Some t) = true.
Proof.
  intros Hne. simpl. destruct (Qeq_bool t 0) eqn:E; [|done].
  by apply Qeq_bool_iff in E.
Qed.

(** The counting loop counts the positions, among those it visits, at
    which the two arrays differ (a position past the end of an array
    reads as [undefined] there). *)
Lemma count_from_spec expected sel i n m :
  count_from expected sel i n m =
  (m + length (filter (λ j, expected !! j ≠ sel !! j) (seq i n)))%nat.
Proof.
  revert i m. induction n as [|n IH]; intros i m; simpl; [lia|].
  rewrite IH, filter_cons.
  destruct (decide (expected !! i = sel !! i)) as [Heq|Hne];
    destruct (decide (expected !! i ≠ sel !! i)); try done; simpl; lia.
Qed.

Lemma count_mismatches_spec expected sel :
  count_mismatches expected sel =
  length (filter (λ j, expected !! j ≠ sel !! j)
            (seq 0 (Nat.max (length expected) (length sel)))).
Proof. unfold count_mismatches. by rewrite count_from_spec. Qed.

Lemma count_mismatches_same l : count_mismatches l l = 0%nat.
Proof.
  rewrite count_mismatches_spec.
  induction (seq 0 (Nat.max (length l) (length l))) as [|j js IH]; [done|].
  by rewrite filter_cons_False by (intros H; by apply H).
Qed.

Lemma filter_all {A} (P : A → Prop) `{∀ x, Decision (P x)} (l : list A) :
  Forall P l → filter P l = l.
Proof.
  induction 1 as [|x l Hx _ IH]; [done|]. by rewrite filter_cons_True, IH.
Qed.

(** Every position that only the longer array has counts as a mismatch:
    the count is the number of differences within the common length plus
    the difference of the lengths. *)
Lemma count_mismatches_missing expected sel :
  count_mismatches expected sel =
  (length (filter (λ j, expected !! j ≠ sel !! j)
             (seq 0 (Nat.min (length expected) (length sel))))
   + (Nat.max (length expected) (length sel)
      - Nat.min (length expected) (length sel)))%nat.
Proof.
  rewrite count_mismatches_spec.
  set (a := Nat.min (length expected) (length sel)).
  set (b := Nat.max (length expected) (length sel)).
  replace b with (a + (b - a))%nat at 1 by lia.
  rewrite seq_app, filter_app, length_app. f_equal.
  rewrite filter_all; [apply length_seq|].
  apply Forall_forall. intros j [Hlo Hhi]%elem_of_seq.
  destruct (decide (length expected ≤ length sel)%nat).
  - rewrite (lookup_ge_None_2 expected) by lia.
    destruct (lookup_lt_is_Some_2 sel j) as [x ->]; [lia | done].
  - rewrite (lookup_ge_None_2 sel) by lia.
    destruct (lookup_lt_is_Some_2 expected j) as [x ->]; [lia | done].
Qed.

(** No mismatch is found exactly when the selection is the expected
    array; the length test of the handler then holds as well, and any
    other selection counts at least one error. *)
Lemma count_mismatches_zero expected sel :
  count_mismatches expected sel = 0%nat ↔ expected = sel.
Proof.
  split; [|intros ->; apply count_mismatches_same].
  rewrite count_mismatches_spec. intros H%length_zero_iff_nil.
  apply list_eq. intros j.
  destruct (decide (j < Nat.max (length expected) (length sel))%nat) as [Hlt|Hge].
  - destruct (decide (expected !! j = sel !! j)) as [|Hne]; [done|].
    assert (j ∈ filter (λ j, expected !! j ≠ sel !! j)
                  (seq 0 (Nat.max (length expected) (length sel)))) as Hin.
    { apply list_elem_of_filter. split; [done|]. apply elem_of_seq. lia. }
    rewrite H in Hin. by apply elem_of_nil in Hin.
  - rewrite !lookup_ge_None_2 by lia. done.
Qed.

Lemma count_mismatches_pos expected sel :
  expected ≠ sel → (1 ≤ count_mismatches expected sel)%nat.
Proof.
  intros Hne. destruct (count_mismatches expected sel) eqn:E; [|lia].
  by apply count_mismatches_zero in E.
Qed.

(** What [completeTask] stores for an active task. *)
Lemma completeTask_active ts c taskId overrides now st cur t0 :
  taskStates st !! taskId = Some cur →
  startTime cur = Some t0 → ¬ (t0 == 0)%Q →
  taskStates (completeTask ts c taskId overrides now st) !! taskId =
  Some (completed cur overrides (default (now - t0)%Q (o_responseTimeMs overrides))).
Proof.
  intros Hcur Ht0 Hne. unfold completeTask. rewrite Hcur, Ht0.
  rewrite truthy_time_Some by done.
  destruct (_ <? _); simpl; apply lookup_insert_eq.
Qed.

(** C3. Completing an active sequence task records, as its error count,
    the number of positions below the longer of the two lengths at which
    the expected permutation and the accumulated selection differ (a
    position missing from the shorter one differs), and records the task
    as correct exactly when that number is zero and the lengths are
    equal.  Submitting exactly the expected permutation gives
    [correct = true] and [errors = 0]. *)
Theorem sequence_completion ts st task expected cur t0 now0 now1 :
  ts !! currentIndex st = Some task →
  sequenceAnswer task = Some expected →
  taskStates st !! id task = Some cur →
  startTime cur = Some t0 → ¬ (t0 == 0)%Q →
  let sel := default [] (sequence cur) in
  let mismatches :=
    length (filter (λ i, expected !! i ≠ sel !! i)
              (seq 0 (Nat.max (length expected) (length sel)))) in
  ∃ cur',
    taskStates (step ts st (CompleteClick now0 now1)) !! id task = Some cur' ∧
    errors cur' = mismatches ∧
    correct cur' =
      Some (bool_decide (mismatches = 0%nat ∧ length sel = length expected)) ∧
    startTime cur' = None ∧
    sequence cur' = sequence cur ∧
    (sel = expected → correct cur' = Some true ∧ errors cur' = 0%nat).
Proof.
  intros Hcurrent Hseq Hcur Ht0 Hne sel mismatches.
  unfold step. rewrite Hcurrent. unfold handleCompleteClick. rewrite Hseq, Hcur.
  fold sel. eexists. split; [by eapply completeTask_active|].
  simpl. rewrite count_mismatches_spec. fold mismatches.
  assert (Some ((mismatches =? 0)%nat && (length sel =? length expected)%nat) =
          Some (bool_decide (mismatches = 0%nat ∧ length sel = length expected)))
    as Hcorrect.
  { f_equal. apply eq_true_iff_eq.
    rewrite andb_true_iff, bool_decide_eq_true, !Nat.eqb_eq. done. }
  split_and!; [done..|].
  intros Hsel. rewrite Hcorrect.
  assert (mismatches = 0%nat) as Hz.
  { unfold mismatches. rewrite <- count_mismatches_spec, Hsel.
    apply count_mismatches_same. }
  rewrite Hz. split; [|done].
  f_equal. apply bool_decide_eq_true. by rewrite Hsel.
Qed.

(** *** Selections *)

Lemma selection_insert (m : gmap string TaskState) k cur' k' :
  default [] (sequence cur') = selection m k →
  selection (<[k := cur']> m) k' = selection m k'.
Proof.
  intros Hsame. unfold selection in *.
  destruct (decide (k = k')) as [<-|Hne].
  - by rewrite lookup_insert_eq.
  - by rewrite lookup_insert_ne.
Qed.

Lemma selection_default (m : gmap string TaskState) k :
  default [] (sequence (default blank (m !! k))) = selection m k.
Proof. unfold selection. by destruct (m !! k). Qed.

Lemma selection_startTaskTimer taskId now st k :
  selection (taskStates (startTaskTimer taskId now st)) k =
  selection (taskStates st) k.
Proof. apply selection_insert, selection_default. Qed.

Lemma selection_completeTask ts c taskId overrides now st k :
  o_sequence overrides = None →
  selection (taskStates (completeTask ts c taskId overrides now st)) k =
  selection (taskStates st) k.
Proof.
  intros Hov. unfold completeTask.
  assert (selection
            match taskStates st !! taskId with
            | Some currentState =>
                match startTime currentState with
                | Some t0 =>
                    if Js.truthy_time (Some t0)
                    then <[taskId := completed currentState overrides
                             (default (now - t0)%Q (o_responseTimeMs overrides))]>
                           (taskStates st)
                    else taskStates st
                | None => taskStates st
                end
            | None => taskStates st
            end k = selection (taskStates st) k) as Hsel.
  { destruct (taskStates st !! taskId) as [cur|] eqn:Hcur; [|done].
    destruct (startTime cur) as [t0|]; [|done].
    destruct (Js.truthy_time (Some t0)); [|done].
    apply selection_insert. unfold selection. rewrite Hcur. simpl.
    by rewrite Hov. }
  by destruct (_ <? _).
Qed.

(** *** What a selection event does *)

(** In sequence mode, an event that is not refused appends its index. *)
Lemma handleOptionSelect_sequence ts task expected opts i now st :
  sequenceAnswer task = Some expected → options task = Some opts →
  let sel := selection (taskStates st) (id task) in
  let st' := (handleOptionSelect ts task i now st).1 in
  currentIndex st' = currentIndex st ∧ isFinished st' = isFinished st ∧
  (taskStates st' !! id task ≫= startTime) =
    (taskStates st !! id task ≫= startTime) ∧
  (∀ k, k ≠ id task → taskStates st' !! k = taskStates st !! k) ∧
  (started (taskStates st) (id task) = false ∨ i ∈ sel ∨
     (length expected ≤ length sel)%nat → st' = st) ∧
  (started (taskStates st) (id task) = true → i ∉ sel →
     (length sel < length expected)%nat →
     selection (taskStates st') (id task) = sel ++ [i]).
Proof.
  intros Hseq Hopts sel st'. subst st'. unfold handleOptionSelect.
  rewrite Hseq, Hopts.
  destruct (started (taskStates st) (id task)) eqn:Hstarted; simpl;
    [|split_and!; try done; intros _ ?; lia || done].
  rewrite selection_default. fold sel.
  destruct (Js.includes sel i || bool_decide (length expected ≤ length sel)%nat)
    eqn:Hrefuse; simpl.
  - apply orb_true_iff in Hrefuse as Hr.
    unfold Js.includes in Hr. rewrite !bool_decide_eq_true in Hr.
    split_and!; try done. intros _ Hnotin Hlt. destruct Hr; [done | lia].
  - apply orb_false_iff in Hrefuse as [Hin Hlen].
    unfold Js.includes in Hin. rewrite bool_decide_eq_false in Hin, Hlen.
    unfold started in Hstarted.
    destruct (taskStates st !! id task) as [cur|] eqn:Hcur; [|done].
    split_and!; try done.
    + by rewrite lookup_insert_eq.
    + intros k Hk. by rewrite lookup_insert_ne.
    + intros [?|[?|?]]; [done | done | lia].
    + intros _ _ _. unfold selection. by rewrite lookup_insert_eq.
Qed.

Lemma handleUndoClick_pops task st cur sel x :
  taskStates st !! id task = Some cur →
  sequence cur = Some (sel ++ [x]) →
  handleUndoClick task st =
  set_taskStates st (<[id task := with_sequence cur sel]> (taskStates st)).
Proof.
  intros Hcur Hsel. unfold handleUndoClick. rewrite Hcur, Hsel.
  destruct (sel ++ [x]) as [|y l] eqn:E; [by destruct sel|].
  by rewrite <- E, removelast_last.
Qed.

(** *** One event changes one selection, and only in the three ways *)

Lemma step_frame ts st ev task k :
  ts !! currentIndex st = Some task → k ≠ id task →
  selection (taskStates (step ts st ev)) k = selection (taskStates st) k.
Proof.
  intros Hcurrent Hk. unfold step. rewrite Hcurrent.
  destruct ev as [now|now0 now1|i now| |text].
  - apply selection_startTaskTimer.
  - unfold handleCompleteClick.
    destruct (sequenceAnswer task); [by apply selection_completeTask|].
    rewrite selection_completeTask by (by destruct (decide _)).
    destruct (_ && _); [apply selection_startTaskTimer | done].
  - unfold handleOptionSelect.
    destruct (started _ _); [|done].
    destruct (sequenceAnswer task) as [expected|], (options task) as [opts|];
      simpl.
    2-4: rewrite selection_completeTask by done;
         apply selection_insert, selection_default.
    destruct (_ || _); [done|]. simpl. unfold selection.
    by rewrite lookup_insert_ne.
  - unfold handleUndoClick.
    destruct (taskStates st !! id task) as [cur|]; [|done].
    destruct (sequence cur) as [[|x s]|]; try done.
    simpl. unfold selection. by rewrite lookup_insert_ne.
  - unfold handleFreeResponseChange. simpl.
    apply selection_insert, selection_default.
Qed.

(** A single-choice selection completes the task and leaves the
    selection alone. *)
Local Ltac single_choice_keeps_selection :=
  unfold handleOptionSelect;
  repeat match goal with
         | H : sequenceAnswer _ = _ |- _ => rewrite H
         | H : options _ = _ |- _ => rewrite H
         end;
  destruct (started _ _); [|constructor]; simpl;
  rewrite selection_completeTask by done; simpl;
  rewrite selection_insert by apply selection_default; constructor.

Lemma step_seq_change ts st ev task :
  ts !! currentIndex st = Some task →
  seq_change task (selection (taskStates st) (id task))
    (selection (taskStates (step ts st ev)) (id task)).
Proof.
  intros Hcurrent. unfold step. rewrite Hcurrent.
  destruct ev as [now|now0 now1|i now| |text].
  - rewrite selection_startTaskTimer. constructor.
  - unfold handleCompleteClick.
    destruct (sequenceAnswer task).
    + rewrite selection_completeTask by done. constructor.
    + rewrite selection_completeTask by (by destruct (decide _)).
      destruct (_ && _); [rewrite selection_startTaskTimer|]; constructor.
  - destruct (sequenceAnswer task) as [expected|] eqn:Hseq,
             (options task) as [opts|] eqn:Hopts.
    + destruct (handleOptionSelect_sequence ts task expected opts i now st
                  Hseq Hopts) as (_ & _ & _ & _ & Hrefused & Hpushed).
      destruct (started (taskStates st) (id task)) eqn:Hst;
        [|rewrite Hrefused by auto; constructor].
      destruct (decide (i ∈ selection (taskStates st) (id task)));
        [rewrite Hrefused by auto; constructor|].
      destruct (decide (length expected
                        ≤ length (selection (taskStates st) (id task)))%nat);
        [rewrite Hrefused by auto; constructor|].
      rewrite Hpushed by (done || lia). econstructor; [done..|lia].
    + single_choice_keeps_selection.
    + single_choice_keeps_selection.
    + single_choice_keeps_selection.
  - unfold handleUndoClick.
    destruct (taskStates st !! id task) as [cur|] eqn:Hcur; [|constructor].
    destruct (sequence cur) as [[|x s]|] eqn:Hs; try constructor.
    simpl. unfold selection at 2. rewrite lookup_insert_eq. simpl.
    unfold selection. rewrite Hcur. simpl. rewrite Hs. simpl.
    rewrite (app_removelast_last x (l := x :: s)) at 1 by done.
    constructor.
  - unfold handleFreeResponseChange. simpl.
    rewrite selection_insert by apply selection_default. constructor.
Qed.

Lemma seq_change_inv task expected s s' :
  sequenceAnswer task = Some expected → seq_change task s s' →
  NoDup s ∧ (length s ≤ length expected)%nat →
  NoDup s' ∧ (length s' ≤ length expected)%nat.
Proof.
  intros Hseq Hch [Hnd Hlen]. destruct Hch as [s|s i e He Hi Hlt|s x].
  - done.
  - rewrite He in Hseq. injection Hseq as ->. split.
    + apply NoDup_app. split_and!; [done| |apply NoDup_singleton].
      intros z Hz ->%list_elem_of_singleton. done.
    + rewrite length_app. simpl. lia.
  - apply NoDup_app in Hnd as (Hnd & _ & _). split; [done|].
    rewrite length_app in Hlen. lia.
Qed.

Lemma same_id_same_task (ts : list CognitiveTask) t t' :
  NoDup (id <$> ts) → t ∈ ts → t' ∈ ts → id t = id t' → t = t'.
Proof.
  intros Hnd [i Hi]%list_elem_of_lookup [j Hj]%list_elem_of_lookup Hid.
  assert (i = j) as ->.
  { apply (NoDup_lookup _ i j (id t) Hnd); rewrite list_lookup_fmap.
    - by rewrite Hi.
    - by rewrite Hj, Hid. }
  congruence.
Qed.

Lemma step_inv ts st ev :
  NoDup (id <$> ts) → seq_inv ts st → seq_inv ts (step ts st ev).
Proof.
  intros Hnd Hinv t expected Ht Hseq.
  destruct (ts !! currentIndex st) as [task|] eqn:Hcurrent;
    [|unfold step; rewrite Hcurrent; by apply Hinv].
  destruct (decide (id t = id task)) as [Hid|Hid].
  - assert (t = task) as ->
      by (eapply same_id_same_task; eauto using list_elem_of_lookup_2).
    eapply seq_change_inv; [done | by apply step_seq_change | by apply Hinv].
  - rewrite (step_frame ts st ev task) by done. by apply Hinv.
Qed.

Lemma fold_step_inv ts evs st :
  NoDup (id <$> ts) → seq_inv ts st → seq_inv ts (fold_left (step ts) evs st).
Proof.
  intros Hnd. revert st. induction evs as [|ev evs IH]; intros st Hinv; [done|].
  simpl. by apply IH, step_inv.
Qed.

Lemma initial_inv ts : seq_inv ts initial.
Proof.
  intros t expected _ _. unfold selection. simpl. rewrite lookup_empty. simpl.
  split; [apply NoDup_nil_2 | lia].
Qed.

(** C8. Along every run of the component over tasks with distinct
    identifiers, the selection of each sequence task holds pairwise
    distinct indices and is no longer than the expected permutation.  A
    selection event on a sequence task whose index is already selected,
    or that arrives when the selection has the expected length, leaves
    the state as it was; no selection event on a sequence task moves the
    task pointer, finishes the run or touches the start time.  Undo
    drops the most recent index and nothing else. *)
Theorem selection_invariants (ts : list CognitiveTask) :
  (∀ evs, NoDup (id <$> ts) → seq_inv ts (run ts evs))
  ∧
  (∀ task expected opts i now st,
     sequenceAnswer task = Some expected → options task = Some opts →
     let sel := selection (taskStates st) (id task) in
     let st' := (handleOptionSelect ts task i now st).1 in
     (i ∈ sel ∨ (length expected ≤ length sel)%nat → st' = st) ∧
     currentIndex st' = currentIndex st ∧ isFinished st' = isFinished st ∧
     (taskStates st' !! id task ≫= startTime) =
       (taskStates st !! id task ≫= startTime))
  ∧
  (∀ task st cur sel x,
     taskStates st !! id task = Some cur → sequence cur = Some (sel ++ [x]) →
     let st' := handleUndoClick task st in
     taskStates st' !! id task = Some (with_sequence cur sel) ∧
     startTime (with_sequence cur sel) = startTime cur ∧
     currentIndex st' = currentIndex st ∧ isFinished st' = isFinished st ∧
     ∀ k, k ≠ id task → taskStates st' !! k = taskStates st !! k).
Proof.
  split_and!.
  - intros evs Hnd. by apply fold_step_inv, initial_inv.
  - intros task expected opts i now st Hseq Hopts sel st'.
    destruct (handleOptionSelect_sequence ts task expected opts i now st
                Hseq Hopts) as (Hidx & Hfin & Hstart & _ & Hrefused & _).
    split_and!; [|done..]. intros H. apply Hrefused. tauto.
  - intros task st cur sel x Hcur Hsel st'. subst st'.
    rewrite (handleUndoClick_pops task st cur sel x Hcur Hsel). simpl.
    split_and!; [apply lookup_insert_eq | done..|].
    intros k Hk. by rewrite lookup_insert_ne.
Qed.

Lemma selection_invariants_witness :
  let ts := [Assessment.makeWordRecallTask [2; 0]%nat "word-recall"
               "Word Recall" ["Moon"; "Star"; "River"];
             Assessment.clock] in
  let evs := [BeginClick 100; OptionClick 1 200; OptionClick 1 300;
              OptionClick 0 400; UndoClick; OptionClick 2 500;
              OptionClick 0 600; OptionClick 1 700] in
  NoDup (id <$> ts) ∧
  NoDup (selection (taskStates (run ts evs)) "word-recall") ∧
  (length (selection (taskStates (run ts evs)) "word-recall") ≤ 3)%nat.
Proof.
  intros ts evs.
  assert (NoDup (id <$> ts)) as Hnd
    by (apply (bool_decide_unpack _); vm_compute; exact I).
  split; [exact Hnd|].
  refine (proj1 (selection_invariants ts) evs Hnd
            (Assessment.makeWordRecallTask [2; 0]%nat "word-recall"
               "Word Recall" ["Moon"; "Star"; "River"])
            _ _ eq_refl).
  left.
Defined.

Lemma sequence_completion_witness :
  let task := Assessment.makeWordRecallTask [2; 0]%nat "word-recall"
                "Word Recall" ["Moon"; "Star"; "River"] in
  let cur := {| startTime := Some 1000%Q; responseTimeMs := 0; correct := None;
                errors := 0; selectedOption := None; freeResponse := None;
                sequence := Some [1; 2; 0] |} in
  let st := {| currentIndex := 0; taskStates := {[ "word-recall" := cur ]};
               isFinished := false |} in
  sequenceAnswer task = Some [1; 2; 0] ∧
  ∃ cur',
    taskStates (step [task; Assessment.clock] st (CompleteClick 4000 4000))
      !! "word-recall" = Some cur' ∧
    correct cur' = Some true ∧ errors cur' = 0%nat.
Proof.
  intros task cur st. split; [reflexivity|].
  assert (¬ (1000 == 0)%Q) as Hne by (intros H; discriminate H).
  destruct (sequence_completion [task; Assessment.clock] st task [1; 2; 0] cur
              1000%Q 4000%Q 4000%Q eq_refl eq_refl eq_refl eq_refl Hne)
    as (cur' & Hcur' & _ & _ & _ & _ & Hexact).
  exists cur'. split; [exact Hcur'|]. exact (Hexact eq_refl).
Defined.

End StateMachineFacts.

(** ** The capture and upload pipeline *)

Section UploadFacts.
Import SpeechRecorder.

Lemma attempts_app e1 e2 : attempts (e1 ++ e2) = (attempts e1 + attempts e2)%nat.
Proof. unfold attempts. by rewrite List.filter_app, length_app. Qed.

Lemma attempts_rounds k p : attempts (rounds k p) = k.
Proof.
  induction k as [|k IH]; [done|].
  change (rounds (S k) p)
    with ([onUpload_call p; setTimeout_wait 600] ++ rounds k p).
  rewrite attempts_app, IH. done.
Qed.

(** The loop never calls [onUpload] more often than it has iterations. *)
Lemma retry_attempts_le onUpload p i n lastErr :
  (attempts (retry onUpload p i n lastErr).2 ≤ n)%nat.
Proof.
  revert i lastErr. induction n as [|n IH]; intros i lastErr; simpl; [done|].
  destruct (onUpload i p) as [[]|e]; [simpl; unfold attempts; simpl; lia|].
  specialize (IH (S i) e). destruct (retry onUpload p (S i) n e) as [l effs].
  simpl in *. unfold attempts in *. simpl. lia.
Qed.

(** The loop stops at the first attempt that succeeds. *)
Lemma retry_first_success onUpload p i n k lastErr :
  (k < n)%nat →
  (∀ j, (j < k)%nat → ∃ e, onUpload (i + j)%nat p = Js.Throw e) →
  onUpload (i + k)%nat p = Js.Return tt →
  retry onUpload p i n lastErr = (Js.undefined, rounds k p ++ [onUpload_call p]).
Proof.
  revert i k lastErr. induction n as [|n IH]; intros i k lastErr Hk Hfail Hok;
    [lia|]. simpl.
  destruct k as [|k].
  - rewrite Nat.add_0_r in Hok. by rewrite Hok.
  - destruct (Hfail 0%nat ltac:(lia)) as [e He]. rewrite Nat.add_0_r in He.
    rewrite He. rewrite (IH (S i) k e); [done | lia | |].
    + intros j Hj. destruct (Hfail (S j) ltac:(lia)) as [e' He'].
      exists e'. by replace (S i + j)%nat with (i + S j)%nat by lia.
    + by replace (S i + k)%nat with (i + S k)%nat by lia.
Qed.

(** When every attempt fails, the loop makes all of them and is left
    with the error of the last one. *)
Lemma retry_all_fail onUpload p i n lastErr (errs : nat → Js.value) :
  (∀ j, (j < n)%nat → onUpload (i + j)%nat p = Js.Throw (errs (i + j)%nat)) →
  retry onUpload p i n lastErr =
  (match n with O => lastErr | S n' => errs (i + n')%nat end, rounds n p).
Proof.
  revert i lastErr. induction n as [|n IH]; intros i lastErr Hfail; [done|].
  simpl. pose proof (Hfail 0%nat ltac:(lia)) as H0.
  rewrite Nat.add_0_r in H0. rewrite H0, (IH (S i)).
  - destruct n as [|n']; [by rewrite Nat.add_0_r|].
    by replace (S i + n')%nat with (i + S n')%nat by lia.
  - intros j Hj. replace (S i + j)%nat with (i + S j)%nat by lia.
    apply Hfail. lia.
Qed.

(** At most three upload attempts per chunk, whatever [onUpload] does. *)
Lemma handleDataAvailable_attempts_le c onUpload data st :
  (attempts (handleDataAvailable c onUpload data st).2 ≤ 3)%nat.
Proof.
  unfold handleDataAvailable.
  destruct (currentTask c) as [task|]; [|simpl; unfold attempts; simpl; lia].
  destruct (size data =? 0)%N; [simpl; unfold attempts; simpl; lia|].
  match goal with |- context [retry ?f ?p 0 3 ?e] =>
    pose proof (retry_attempts_le f p 0 3 e) as Hle;
    destruct (retry f p 0 3 e) as [lastErr effects] end.
  simpl in Hle.
  assert (attempts [onComplete_call] = 0%nat) as Hc by done.
  assert (∀ e t d, attempts [console_error e; toast t d] = 0%nat) as Hl by done.
  destruct (Js.truthy lastErr); [|destruct (_ <? _)]; simpl;
    rewrite ?attempts_app, ?Hc, ?Hl; lia.
Qed.

(** Three failures whose last error is a truthy value: the error is
    logged, the buffer keeps every chunk, the task stays current. *)
Lemma upload_failure_keeps_task c st onUpload data task (errs : nat → Js.value) :
  currentTask c = Some task →
  size data ≠ 0%N →
  (∀ j p, (j < 3)%nat → onUpload j p = Js.Throw (errs j)) →
  Js.truthy (errs 2%nat) = true →
  let p := {| taskId := id task; blob := assemble (chunksRef st ++ [data]);
              durationMs := c_elapsedMs c |} in
  handleDataAvailable c onUpload data st =
  ({| currentIndex := currentIndex st; elapsedMs := elapsedMs st;
      chunksRef := chunksRef st ++ [data] |},
   rounds 3 p ++
   [console_error (errs 2%nat);
    toast "Upload failed"
      (Some "Could not upload speech sample. Please try again.")]).
Proof.
  intros Hcurrent Hsize Hfail Htruthy p.
  unfold handleDataAvailable. rewrite Hcurrent.
  apply N.eqb_neq in Hsize. rewrite Hsize.
  fold p. rewrite (retry_all_fail onUpload p 0 3 Js.undefined errs)
    by (intros j Hj; by apply Hfail).
  simpl. by rewrite Htruthy.
Qed.

(** When an upload succeeds within the retry loop (at attempt [k], after
    [k] failures each followed by a 600 ms wait), the buffer is emptied.
    Whether a task remains is decided on the task index the handler was
    created with: if one remains after that, the stored index grows by
    one and the elapsed time is reset to zero; otherwise the completion
    callback is invoked.  For a handler created in the render of the
    state it runs on, this is the task that is current. *)
Lemma upload_success_advances c st onUpload data task k :
  currentTask c = Some task →
  size data ≠ 0%N →
  (k < 3)%nat →
  (∀ j p, (j < k)%nat → ∃ e, onUpload j p = Js.Throw e) →
  (∀ p, onUpload k p = Js.Return tt) →
  let p := {| taskId := id task; blob := assemble (chunksRef st ++ [data]);
              durationMs := c_elapsedMs c |} in
  let r := handleDataAvailable c onUpload data st in
  chunksRef r.1 = [] ∧ attempts r.2 = S k ∧
  if decide (c_currentIndex c + 1 < length (tasks c))%nat
  then currentIndex r.1 = (currentIndex st + 1)%nat ∧ elapsedMs r.1 = 0%Q ∧
       r.2 = rounds k p ++ [onUpload_call p]
  else currentIndex r.1 = currentIndex st ∧ elapsedMs r.1 = elapsedMs st ∧
       r.2 = rounds k p ++ [onUpload_call p; onComplete_call].
Proof.
  intros Hcurrent Hsize Hk Hfail Hok p r. subst r.
  unfold handleDataAvailable. rewrite Hcurrent.
  apply N.eqb_neq in Hsize. rewrite Hsize. fold p.
  rewrite (retry_first_success onUpload p 0 3 k Js.undefined)
    by (done || (intros j Hj; by apply Hfail) || apply Hok).
  simpl.
  destruct (decide (c_currentIndex c + 1 < length (tasks c))%nat) as [Hlt|Hge].
  - replace (Z.of_nat (c_currentIndex c) <? Z.of_nat (length (tasks c)) - 1)
      with true by (symmetry; apply Z.ltb_lt; lia).
    simpl. rewrite attempts_app, attempts_rounds. split_and!; try done.
    unfold attempts; simpl; lia.
  - replace (Z.of_nat (c_currentIndex c) <? Z.of_nat (length (tasks c)) - 1)
      with false by (symmetry; apply Z.ltb_ge; lia).
    simpl. rewrite <- app_assoc, attempts_app, attempts_rounds.
    split_and!; try done. unfold attempts; simpl; lia.
Qed.

Lemma upload_success_advances_witness :
  let onUpload : UploadFn :=
    λ j _, if (j <? 2)%nat then Js.Throw (Js.Error "Failed to fetch")
           else Js.Return tt in
  let st := {| currentIndex := 0; elapsedMs := 41250 # 1; chunksRef := [] |} in
  let data := {| size := 4096; type := "audio/webm;codecs=opus" |} in
  let r := handleDataAvailable (render Assessment.SPEECH_TASKS st) onUpload data st in
  attempts r.2 = 3%nat ∧ currentIndex r.1 = 1%nat ∧ elapsedMs r.1 = 0%Q ∧
  chunksRef r.1 = [].
Proof.
  intros onUpload st data r.
  assert (∀ j p, (j < 2)%nat → ∃ e, onUpload j p = Js.Throw e) as Hfail.
  { intros j p Hj. destruct j as [|[|j]]; [eexists; reflexivity..|lia]. }
  assert (size data ≠ 0%N) as Hsize by (intros H; discriminate H).
  assert (2 < 3)%nat as Hk by lia.
  pose proof (upload_success_advances (render Assessment.SPEECH_TASKS st) st
                onUpload data _ 2%nat eq_refl Hsize Hk Hfail (λ _, eq_refl))
    as (Hc & Ha & Hrest).
  destruct (decide (c_currentIndex (render Assessment.SPEECH_TASKS st) + 1
                    < length (tasks (render Assessment.SPEECH_TASKS st)))%nat)
    as [_|Hge]; [|simpl in Hge; lia].
  destruct Hrest as (Hi & He & _).
  split_and!; [exact Ha | exact Hi | exact He | exact Hc].
Defined.

(** C6 fails on a recording that lasts longer than one chunk.  The
    listener registered when a recording starts is the handler of that
    render, and the recorder hands it a chunk every second
    ([recorder.start(1000)]).  Take the three speech tasks, a recording
    started on the first one and uploads that all succeed.  The handler
    keeps deciding on task index 0: each chunk is uploaded under the
    first task's identifier and moves the component on by one task.
    When the third chunk arrives the last task is current; its upload
    succeeds, yet the completion callback is not invoked: the index
    moves past the last task, where no task is current any more. *)
Theorem stale_listener_skips_completion :
  let onUpload : UploadFn := λ _ _, Js.Return tt in
  let st0 := {| currentIndex := 0; elapsedMs := 0; chunksRef := [] |} in
  let c := render Assessment.SPEECH_TASKS st0 in
  let data := {| size := 4096; type := "audio/webm;codecs=opus" |} in
  let p := {| taskId := "picture-description"; blob := data; durationMs := 0 |} in
  let r1 := handleDataAvailable c onUpload data st0 in
  let r2 := handleDataAvailable c onUpload data r1.1 in
  let r3 := handleDataAvailable c onUpload data r2.1 in
  (currentIndex r2.1 + 1)%nat = length Assessment.SPEECH_TASKS ∧
  (id <$> currentTask (render Assessment.SPEECH_TASKS r2.1)) = Some "free-conversation" ∧
  r3.2 = [onUpload_call p] ∧
  (onComplete_call ∉ r1.2 ++ r2.2 ++ r3.2) ∧
  currentIndex r3.1 = length Assessment.SPEECH_TASKS ∧
  currentTask (render Assessment.SPEECH_TASKS r3.1) = None.
Proof.
  split_and!; [reflexivity.. | | reflexivity | reflexivity].
  intros Hin. vm_compute in Hin.
  repeat (apply elem_of_cons in Hin as [Hin|Hin]; [discriminate Hin|]).
  by apply elem_of_nil in Hin.
Qed.

(** C2, at an upload function whose promise is rejected without a
    reason ([Promise.reject()], [throw undefined]).  All three attempts
    fail, yet the final [lastErr] is falsy, [if (lastErr) throw lastErr]
    lets the run continue as after a success: the buffer is emptied and
    the next task becomes current, and nothing is logged or shown. *)
Theorem falsy_rejection_taken_for_success :
  let onUpload : UploadFn := λ _ _, Js.Throw Js.undefined in
  let st := {| currentIndex := 0; elapsedMs := 41250 # 1; chunksRef := [] |} in
  let data := {| size := 4096; type := "audio/webm;codecs=opus" |} in
  let p := {| taskId := "picture-description"; blob := data;
              durationMs := 41250 # 1 |} in
  handleDataAvailable (render Assessment.SPEECH_TASKS st) onUpload data st =
  ({| currentIndex := 1; elapsedMs := 0; chunksRef := [] |},
   [onUpload_call p; setTimeout_wait 600;
    onUpload_call p; setTimeout_wait 600;
    onUpload_call p; setTimeout_wait 600]).
Proof. reflexivity. Qed.

(** The same three failures with an [Error] as the reason: the task
    stays current and the buffer keeps the chunk. *)
Example rejection_with_Error :
  let e := Js.Error "Failed to fetch" in
  let onUpload : UploadFn := λ _ _, Js.Throw e in
  let st := {| currentIndex := 0; elapsedMs := 41250 # 1; chunksRef := [] |} in
  let data := {| size := 4096; type := "audio/webm;codecs=opus" |} in
  let r := handleDataAvailable (render Assessment.SPEECH_TASKS st) onUpload data st in
  r.1 = {| currentIndex := 0; elapsedMs := 41250 # 1; chunksRef := [data] |} ∧
  attempts r.2 = 3%nat ∧ console_error e ∈ r.2.
Proof.
  split_and!; [reflexivity..|]. vm_compute. repeat constructor.
Qed.

End UploadFacts.

(** ** Result normalisation *)

Section ApiFacts.
Import Api.

Lemma is_str_true v s : Js.is_str v s = true ↔ v = Js.str s.
Proof.
  destruct v; simpl; try (split; [discriminate | intros [=]]).
  rewrite String.eqb_eq. split; [by intros -> | by intros [= ->]].
Qed.

(** The risk level of the assembled object is the normalised label. *)
Lemma riskLevel_normalize raw :
  riskLevel (normalize raw) =
  normalizedRisk (Js.coalesce (Js.prop "riskLevel" raw) (Js.prop "risk_level" raw)).
Proof. reflexivity. Qed.

(** A result is returned only for a 2xx response with a usable body, and
    it is the assembled object. *)
Lemma fetchAssessmentResult_Return {engine : Js.Engine} http result :
  fetchAssessmentResult http = Js.Return result →
  ∃ response,
    http = Js.Return response ∧ ok response = true ∧
    Js.nullish (raw_of response) = false ∧
    result = normalize (raw_of response).
Proof.
  unfold fetchAssessmentResult. destruct http as [response|e]; [|done].
  destruct (ok response) eqn:Hok; simpl; [|done].
  destruct (Js.nullish (raw_of response)) eqn:Hn; [done|].
  intros [= <-]. by exists response.
Qed.

(** Every returned result is an object, hence truthy. *)
Lemma fetchAssessmentResult_truthy {engine : Js.Engine} http result :
  fetchAssessmentResult http = Js.Return result → Js.truthy result = true.
Proof.
  intros (response & _ & _ & _ & ->)%fetchAssessmentResult_Return. done.
Qed.

(** C9, as the code has it.  Every returned result carries the server's
    risk label, except that ["Moderate"] is replaced by ["Medium"]; so
    the canonical labels ["Low"], ["Medium"] and ["High"] are returned
    unchanged, and the returned level is canonical whenever the server's
    label is one of these four.  Any other label is returned as it
    came. *)
Theorem risk_normalisation {engine : Js.Engine} http result :
  fetchAssessmentResult http = Js.Return result →
  ∃ response,
    http = Js.Return response ∧
    let raw := raw_of response in
    let rawRisk := Js.coalesce (Js.prop "riskLevel" raw) (Js.prop "risk_level" raw) in
    (rawRisk = Js.str "Moderate" → riskLevel result = Js.str "Medium") ∧
    (rawRisk ∈ [Js.str "Low"; Js.str "Medium"; Js.str "High"] →
       riskLevel result = rawRisk) ∧
    (rawRisk ∈ [Js.str "Low"; Js.str "Medium"; Js.str "High"; Js.str "Moderate"] →
       canonical (riskLevel result) = true) ∧
    (rawRisk ≠ Js.str "Moderate" → riskLevel result = rawRisk).
Proof.
  intros (response & -> & _ & _ & ->)%fetchAssessmentResult_Return.
  exists response. split; [done|]. intros raw rawRisk.
  rewrite riskLevel_normalize. fold raw. fold rawRisk.
  assert (rawRisk ≠ Js.str "Moderate" → normalizedRisk rawRisk = rawRisk) as Hother.
  { intros Hne. unfold normalizedRisk.
    destruct (Js.is_str rawRisk "Moderate") eqn:E; [|done].
    by apply is_str_true in E. }
  split_and!.
  - by intros ->.
  - intros Hin. apply Hother. intros Heq. rewrite Heq in Hin.
    repeat (apply elem_of_cons in Hin as [[=]|Hin]). by apply elem_of_nil in Hin.
  - intros Hin.
    repeat (apply elem_of_cons in Hin as [->|Hin]); [done..|].
    by apply elem_of_nil in Hin.
  - done.
Qed.

Lemma risk_normalisation_witness :
  let http := Js.Return
    {| ok := true;
       json := Some (Js.object [("assessment_id", Js.str "a-17");
                                ("risk_level", Js.str "Moderate");
                                ("probability", Js.number (62 # 100))]) |} in
  ∃ result, fetchAssessmentResult (engine := Js.example_engine) http
              = Js.Return result ∧
            riskLevel result = Js.str "Medium".
Proof.
  intros http. eexists. split; [reflexivity|].
  destruct (risk_normalisation (engine := Js.example_engine) http _ eq_refl)
    as (response & Hr & Hmod & _).
  injection Hr as <-. exact (Hmod eq_refl).
Defined.

(** C9 as stated fails: a label outside the four known ones reaches the
    caller unchanged, so a returned result need not carry a level of the
    three-level scale. *)
Lemma unknown_risk_label_returned :
  let http := Js.Return
    {| ok := true;
       json := Some (Js.object [("assessment_id", Js.str "a-17");
                                ("risk_level", Js.str "Severe");
                                ("probability", Js.number (93 # 100))]) |} in
  ¬ (∀ result, fetchAssessmentResult (engine := Js.example_engine) http
                 = Js.Return result →
               canonical (riskLevel result) = true).
Proof.
  intros http Hall. specialize (Hall _ eq_refl). discriminate Hall.
Qed.

End ApiFacts.

(** ** The results phase *)

Section PollingFacts.
Import Assessment.

Lemma fetches_app e1 e2 : fetches (e1 ++ e2) = (fetches e1 + fetches e2)%nat.
Proof. unfold fetches. by rewrite List.filter_app, length_app. Qed.

Lemma fetches_polls k : fetches (polls k) = k.
Proof.
  induction k as [|k IH]; [done|].
  change (polls (S k)) with ([fetchAssessmentResult_call; sleep 1000] ++ polls k).
  rewrite fetches_app, IH. done.
Qed.

Lemma poll_fetches_le {engine : Js.Engine} fetch i n : (fetches (poll fetch i n).2 ≤ n)%nat.
Proof.
  revert i. induction n as [|n IH]; intros i; simpl; [done|].
  destruct (Api.fetchAssessmentResult (fetch i)) as [r|e];
    [unfold fetches; simpl; lia|].
  specialize (IH (S i)). destruct (poll fetch (S i) n) as [fetched effs].
  simpl in *. unfold fetches in *. simpl. lia.
Qed.

(** Polling stops at the first request that is answered. *)
Lemma poll_first_success {engine : Js.Engine} fetch i n k r :
  (k < n)%nat →
  (∀ j, (j < k)%nat → ∃ e, Api.fetchAssessmentResult (fetch (i + j)%nat) = Js.Throw e) →
  Api.fetchAssessmentResult (fetch (i + k)%nat) = Js.Return r →
  poll fetch i n = (r, polls k ++ [fetchAssessmentResult_call]).
Proof.
  revert i k. induction n as [|n IH]; intros i k Hk Hfail Hok; [lia|]. simpl.
  destruct k as [|k].
  - rewrite Nat.add_0_r in Hok. by rewrite Hok.
  - destruct (Hfail 0%nat ltac:(lia)) as [e He]. rewrite Nat.add_0_r in He.
    rewrite He. rewrite (IH (S i) k); [done | lia | |].
    + intros j Hj. destruct (Hfail (S j) ltac:(lia)) as [e' He'].
      exists e'. by replace (S i + j)%nat with (i + S j)%nat by lia.
    + by replace (S i + k)%nat with (i + S k)%nat by lia.
Qed.

(** When no request is answered, all are made, each followed by its
    sleep, and nothing is fetched. *)
Lemma poll_all_fail {engine : Js.Engine} fetch i n :
  (∀ j, (j < n)%nat → ∃ e, Api.fetchAssessmentResult (fetch (i + j)%nat) = Js.Throw e) →
  poll fetch i n = (Js.null, polls n).
Proof.
  revert i. induction n as [|n IH]; intros i Hfail; [done|]. simpl.
  destruct (Hfail 0%nat ltac:(lia)) as [e He]. rewrite Nat.add_0_r in He.
  rewrite He, (IH (S i)); [done|].
  intros j Hj. replace (S i + j)%nat with (i + S j)%nat by lia.
  apply Hfail. lia.
Qed.

(** The handler never requests the result more than 15 times. *)
Lemma handleCognitiveComplete_fetches_le {engine : Js.Engine} ses srv payload st :
  (fetches (handleCognitiveComplete ses srv payload st).2 ≤ 15)%nat.
Proof.
  unfold handleCognitiveComplete.
  destruct (not_started ses); [unfold fetches; simpl; lia|].
  destruct (submit srv); [|unfold fetches; simpl; lia].
  destruct (predict srv); [|unfold fetches; simpl; lia].
  pose proof (poll_fetches_le (fetch srv) 0 15) as Hle.
  destruct (poll (fetch srv) 0 15) as [fetched e2]. simpl in Hle.
  assert (∀ p t d effs,
            fetches (submitCognitiveData_call p :: toast t d
                     :: requestRiskPrediction_call :: effs) = fetches effs)
    as Hpre by done.
  assert (∀ t d, fetches [toast t d] = 0%nat) as Hpost by done.
  destruct (Js.truthy fetched); simpl;
    rewrite ?Hpre, ?fetches_app, ?Hpost; lia.
Qed.

(** The handler of the speech phase always fulfils the promise it
    returns: the recorder never sees an upload fail through it. *)
Lemma handleSpeechUpload_fulfils ses upload p st :
  (handleSpeechUpload ses upload p st).1.1 = Js.Return tt.
Proof.
  unfold handleSpeechUpload. destruct (not_started ses); [done|].
  by destruct upload.
Qed.

(** C1, as the code has it.  After the submission and the prediction
    trigger went through, the handler requests the result at most 15
    times; every unanswered request is followed by a one-second sleep;
    the first answered request ends the polling and its result is
    stored.  When all 15 requests go unanswered, the handler still ends
    normally: no error is logged, the notice "Prediction pending" is
    shown, no result is stored.  In both cases the pending flag is
    cleared when the handler ends. *)
Theorem polling_protocol {engine : Js.Engine} ses srv payload st :
  not_started ses = false →
  (∃ v, submit srv = Js.Return v) →
  (∃ v, predict srv = Js.Return v) →
  let r := handleCognitiveComplete ses srv payload st in
  let before :=
    [submitCognitiveData_call payload; toast "Cognitive data captured" None;
     requestRiskPrediction_call] in
  (fetches r.2 ≤ 15)%nat ∧
  (∀ k fetched,
     (k < 15)%nat →
     (∀ j, (j < k)%nat → ∃ e, Api.fetchAssessmentResult (fetch srv j) = Js.Throw e) →
     Api.fetchAssessmentResult (fetch srv k) = Js.Return fetched →
     r.2 = before ++ polls k ++ [fetchAssessmentResult_call] ∧
     result r.1 = Some fetched ∧ isResultPending r.1 = false) ∧
  ((∀ j, (j < 15)%nat → ∃ e, Api.fetchAssessmentResult (fetch srv j) = Js.Throw e) →
     r.2 = before ++ polls 15 ++
           [toast "Prediction pending"
              (Some (Js.str "Result is taking longer than usual. Please wait a few seconds and retry."))] ∧
     result r.1 = result st ∧ isResultPending r.1 = false ∧
     isLoading r.1 = false ∧
     activeStepIndex r.1 = Nat.min (activeStepIndex st + 1) 3).
Proof.
  intros Hstarted [v1 Hsubmit] [v2 Hpredict] r before.
  split; [apply handleCognitiveComplete_fetches_le|].
  subst r. unfold handleCognitiveComplete.
  rewrite Hstarted, Hsubmit, Hpredict. split.
  - intros k fetched Hk Hfail Hok.
    rewrite (poll_first_success (fetch srv) 0 15 k fetched Hk Hfail Hok).
    rewrite (fetchAssessmentResult_truthy _ _ Hok). done.
  - intros Hfail. rewrite (poll_all_fail (fetch srv) 0 15 Hfail). simpl.
    done.
Qed.

Lemma polling_protocol_witness :
  let ses := {| user := Some {| user_id := "u-3"; name := "Asha"; age := 67;
                                language := "hi"; consent := true;
                                accessToken := Some "token" |};
                assessmentId := Some "a-17" |} in
  let report := Js.object [("assessment_id", Js.str "a-17");
                           ("risk_level", Js.str "Low");
                           ("probability", Js.number (12 # 100))] in
  let srv := {| submit := Js.Return (Js.object [("success", Js.boolean true)]);
                predict := Js.Return (Js.object [("success", Js.boolean true)]);
                fetch := λ i, Js.Return
                  (if (i <? 14)%nat
                   then {| Api.ok := false;
                           Api.json := Some (Js.object
                             [("detail", Js.str "Prediction not ready")]) |}
                   else {| Api.ok := true; Api.json := Some report |}) |} in
  let st := {| activeStepIndex := 2; isLoading := false;
               isSpeechUploading := false; result := None;
               isResultPending := false; history := Js.array []; localStorage := ∅ |} in
  let payload := CognitiveTasks.payload_of [] ∅ in
  let r := handleCognitiveComplete (engine := Js.example_engine)
             ses srv payload st in
  fetches r.2 = 15%nat ∧ result r.1 = Some (Api.normalize report) ∧
  isResultPending r.1 = false.
Proof.
  intros ses report srv st payload r.
  assert (∀ j, (j < 14)%nat →
            ∃ e, Api.fetchAssessmentResult (engine := Js.example_engine)
                   (fetch srv j) = Js.Throw e) as Hfail.
  { intros j Hj. do 14 (destruct j as [|j]; [eexists; reflexivity|]). lia. }
  assert (14 < 15)%nat as Hk by lia.
  destruct (polling_protocol (engine := Js.example_engine) ses srv payload st
              eq_refl
              (ex_intro _ _ eq_refl) (ex_intro _ _ eq_refl))
    as (_ & Hfirst & _).
  destruct (Hfirst 14%nat (Api.normalize report) Hk Hfail eq_refl)
    as (Htrace & Hres & Hpend).
  split_and!; [|exact Hres | exact Hpend].
  unfold r. rewrite Htrace. reflexivity.
Defined.

(** C1 as stated fails on the pending flag: when the result endpoint
    answers "not ready" to all 15 requests, the flag is cleared, as it is
    on every other way out of the handler. *)
Lemma pending_flag_cleared_after_timeout :
  let ses := {| user := Some {| user_id := "u-3"; name := "Asha"; age := 67;
                                language := "hi"; consent := true;
                                accessToken := Some "token" |};
                assessmentId := Some "a-17" |} in
  let srv := {| submit := Js.Return (Js.object [("success", Js.boolean true)]);
                predict := Js.Return (Js.object [("success", Js.boolean true)]);
                fetch := λ _, Js.Return
                  {| Api.ok := false;
                     Api.json := Some (Js.object
                       [("detail", Js.str "Prediction not ready")]) |} |} in
  let st := {| activeStepIndex := 2; isLoading := false;
               isSpeechUploading := false; result := None;
               isResultPending := false; history := Js.array []; localStorage := ∅ |} in
  let r := handleCognitiveComplete (engine := Js.example_engine)
             ses srv (CognitiveTasks.payload_of [] ∅) st in
  (∀ j, ∃ e, Api.fetchAssessmentResult (engine := Js.example_engine)
               (fetch srv j) = Js.Throw e) ∧
  fetches r.2 = 15%nat ∧
  ¬ (isResultPending r.1 = true).
Proof.
  intros ses srv st r. split_and!.
  - intros j. eexists. reflexivity.
  - reflexivity.
  - intros H. discriminate H.
Qed.

End PollingFacts.

(** ** The recorder inside the page *)

Section CompositionFacts.
Import SpeechRecorder.

(** The page hands [handleSpeechUpload] to the recorder.  As that
    handler catches the failure of [uploadSpeechSample] itself (it logs
    the error and shows "Upload failed"), the recorder's retry loop sees
    a success at its first attempt and moves on to the next task. *)
Example swallowed_upload_failure :
  let ses := {| Assessment.user :=
                  Some {| Assessment.user_id := "u-3"; Assessment.name := "Asha";
                          Assessment.age := 67; Assessment.language := "hi";
                          Assessment.consent := true;
                          Assessment.accessToken := Some "token" |};
                Assessment.assessmentId := Some "a-17" |} in
  let page := {| Assessment.activeStepIndex := 1; Assessment.isLoading := false;
                 Assessment.isSpeechUploading := false;
                 Assessment.result := None; Assessment.isResultPending := false;
                 Assessment.history := Js.array [];
                 Assessment.localStorage := ∅ |} in
  let e := Js.Error "Failed to fetch" in
  let st := {| currentIndex := 0; elapsedMs := 41250 # 1; chunksRef := [] |} in
  let data := {| size := 4096; type := "audio/webm;codecs=opus" |} in
  let p := {| taskId := "picture-description"; blob := data;
              durationMs := 41250 # 1 |} in
  Assessment.speech_chunk ses (λ _, Js.Throw e)
    (render Assessment.SPEECH_TASKS st) data page st =
  ({| currentIndex := 1; elapsedMs := 0; chunksRef := [] |}, page,
   [Assessment.in_recorder (onUpload_call p);
    Assessment.on_page (Assessment.uploadSpeechSample_call "picture-description");
    Assessment.on_page (Assessment.console_error e);
    Assessment.on_page
      (Assessment.toast "Upload failed" (Some (Js.str "Failed to fetch")))]).
Proof. reflexivity. Qed.

(** The listener registered when a recording starts keeps the closure of
    that render.  A second chunk of the same recording is handled with
    the task index of the first: it is uploaded under the first task's
    identifier and advances the index once more. *)
Example second_chunk_same_closure :
  let onUpload : UploadFn := λ _ _, Js.Return tt in
  let st := {| currentIndex := 0; elapsedMs := 0; chunksRef := [] |} in
  let c := render Assessment.SPEECH_TASKS st in
  let data := {| size := 4096; type := "audio/webm;codecs=opus" |} in
  let p := {| taskId := "picture-description"; blob := data; durationMs := 0 |} in
  let r1 := handleDataAvailable c onUpload data st in
  let r2 := handleDataAvailable c onUpload data r1.1 in
  r1 = ({| currentIndex := 1; elapsedMs := 0; chunksRef := [] |}, [onUpload_call p]) ∧
  r2 = ({| currentIndex := 2; elapsedMs := 0; chunksRef := [] |}, [onUpload_call p]).
Proof. split; reflexivity. Qed.

(** Resetting the session clears the identifiers, the result and the
    pending flag and goes back to the first step. *)
Lemma resetAssessment_clears ses st :
  let r := Assessment.resetAssessment ses st in
  Assessment.user r.1 = None ∧ Assessment.assessmentId r.1 = None ∧
  Assessment.activeStepIndex r.2 = 0%nat ∧ Assessment.result r.2 = None ∧
  Assessment.isResultPending r.2 = false.
Proof. done. Qed.

End CompositionFacts.

(* ================================================================== *)
(** * Further properties of the modelled code *)
(* ================================================================== *)

(** ** The result history *)

Section HistoryFacts.
Import History.

Lemma strict_eq_sym a b : Js.strict_eq a b = Js.strict_eq b a.
Proof.
  destruct a, b; simpl; try done.
  - by destruct b, b0.
  - apply Qeq_bool_comm.
  - apply String.eqb_sym.
Qed.

Lemma KEY_inj u u' : KEY u = KEY u' → u = u'.
Proof. unfold KEY. apply (inj _). Qed.

(** *** Values read back from JSON text *)



Lemma JSON_image_object fields :
  Js.JSON_image (Js.object fields) =
  Some (Js.object
          (Js.written [] ((λ kv, (kv.1, Js.JSON_image kv.2)) <$> fields))).
Proof.
  simpl. f_equal. f_equal. f_equal.
  induction fields as [|[k x] fields IH]; [done|].
  by rewrite fmap_cons, IH.
Qed.

Lemma lookup_field_cons k k' v fields :
  Js.lookup_field k ((k', v) :: fields) =
  if decide (k' = k) then v else Js.lookup_field k fields.
Proof.
  unfold Js.lookup_field. simpl.
  destruct (decide (k' = k)); [done|].
  by destruct (list_find _ fields) as [[? [? ?]]|].
Qed.

(** A key already met is not written. *)
Lemma written_seen k seen (l : list (string * option Js.value)) :
  k ∈ seen → Js.lookup_field k (Js.written seen l) = Js.undefined.
Proof.
  revert seen. induction l as [|[k' o] l IH]; intros seen Hin; [done|].
  simpl. case_bool_decide as Hk'; [by apply IH|].
  assert (k' ≠ k) as Hne by (by intros ->).
  destruct o as [v|].
  - rewrite lookup_field_cons. destruct (decide (k' = k)); [done|].
    apply IH. by right.
  - apply IH. by right.
Qed.

(** Reading a written object gives what the first binding of the key
    was written as. *)
Lemma written_lookup k seen (l : list (string * Js.value)) :
  k ∉ seen →
  Js.lookup_field k
    (Js.written seen ((λ kv, (kv.1, Js.JSON_image kv.2)) <$> l)) =
  default Js.undefined (Js.JSON_image (Js.lookup_field k l)).
Proof.
  revert seen. induction l as [|[k' x] l IH]; intros seen Hk; [done|].
  rewrite fmap_cons. simpl. rewrite (lookup_field_cons k k' x l).
  case_bool_decide as Hk'.
  - destruct (decide (k' = k)) as [->|Hne]; [done|]. by apply IH.
  - destruct (decide (k' = k)) as [->|Hne].
    + destruct (Js.JSON_image x) as [y|] eqn:Hx.
      * rewrite lookup_field_cons. by destruct (decide (k = k)).
      * apply written_seen. by left.
    + destruct (Js.JSON_image x) as [y|];
        [rewrite lookup_field_cons; destruct (decide (k' = k)); [done|]|];
        apply IH; by intros [->|?]%elem_of_cons.
Qed.

(** Under [===] a value read back compares as the value written. *)
Lemma strict_eq_image v x :
  Js.strict_eq (default Js.undefined (Js.JSON_image v)) x = Js.strict_eq v x.
Proof.
  by destruct v.
Qed.

(** The identifier of an entry read back compares as the one of the
    entry written. *)
Lemma assessmentId_image r x :
  Js.strict_eq (Js.prop "assessmentId" (Js.JSON_element r)) x =
  Js.strict_eq (Js.prop "assessmentId" r) x.
Proof.
  destruct r as [| |b|q|s|items|fields|name message]; try done.
  unfold Js.JSON_element. rewrite JSON_image_object. unfold Js.prop. simpl.
  rewrite written_lookup by apply not_elem_of_nil.
  apply strict_eq_image.
Qed.

Lemma truthy_image r : Js.truthy (Js.JSON_element r) = Js.truthy r.
Proof.
  by destruct r.
Qed.






(** *** [find] *)

Lemma same_id_prop result r b :
  same_id result r = Some b →
  Js.strict_eq (Js.prop "assessmentId" r) (Js.prop "assessmentId" result) = b.
Proof.
  unfold same_id, Js.prop.
  destruct (Js.get "assessmentId" r), (Js.get "assessmentId" result); try done.
  by intros [= <-].
Qed.

Lemma same_id_throws result r :
  same_id result r = None → Js.nullish r = true ∨ Js.nullish result = true.
Proof.
  unfold same_id.
  destruct r; simpl; auto; destruct result; simpl; auto; done.
Qed.

Lemma nullish_falsy r : Js.nullish r = true → Js.truthy r = false.
Proof. by destruct r. Qed.

Lemma same_id_image result r :
  Js.truthy r = true → same_id result (Js.JSON_element r) = same_id result r.
Proof.
  intros Hr. unfold same_id.
  assert (∃ a, Js.get "assessmentId" r = Some a) as [a Ha]
    by (destruct r; try done; by eexists).
  assert (∃ a', Js.get "assessmentId" (Js.JSON_element r) = Some a') as [a' Ha']
    by (destruct r; try done; by eexists).
  rewrite Ha, Ha'. destruct (Js.get "assessmentId" result) as [b|]; [|done].
  f_equal. pose proof (assessmentId_image r b) as Himg.
  unfold Js.prop in Himg. by rewrite Ha, Ha' in Himg.
Qed.



Lemma find_truthy result old :
  Forall (λ r, Js.truthy r = true) old →
  Exists (λ r, same_id result r = Some true) old →
  ∃ r, find result old = Some r ∧ Js.truthy r = true ∧
       same_id result r = Some true.
Proof.
  intros Htruthy Hex.
  assert (Js.nullish result = false) as Hresult.
  { apply Exists_exists in Hex as (r & _ & Hr). unfold same_id in Hr.
    destruct (Js.get "assessmentId" r); [|done]. by destruct result. }
  induction old as [|r old IH]; [by apply Exists_nil in Hex|].
  apply Forall_cons in Htruthy as [Hr Htruthy]. simpl.
  destruct (same_id result r) as [[|]|] eqn:Hsame.
  - by exists r.
  - apply Exists_cons in Hex as [Hex|Hex]; [congruence | by apply IH].
  - apply same_id_throws in Hsame as [Hn|Hn]; [|congruence].
    apply nullish_falsy in Hn. congruence.
Qed.

(** With truthy entries, [find] returns something falsy only when no
    entry has the identifier. *)
Lemma find_falsy result old found :
  Forall (λ r, Js.truthy r = true) old →
  find result old = Some found → Js.truthy found = false →
  Forall (λ r, same_id result r = Some false) old.
Proof.
  intros Htruthy. induction Htruthy as [|r old Hr _ IH]; [done|]. simpl.
  destruct (same_id result r) as [[|]|] eqn:Hsame; [|auto|done].
  intros [= <-]. congruence.
Qed.

Lemma load_insert ls userId v :
  loadAssessmentHistory (<[KEY userId := parsed v]> ls) userId = v.
Proof. unfold loadAssessmentHistory, Storage. by rewrite lookup_insert_eq. Qed.

(** The two ways a call of [saveAssessmentResult] ends. *)
Lemma save_cases ls userId result :
  let ls' := saveAssessmentResult ls userId result in
  match loadAssessmentHistory ls userId with
  | Js.array old =>
      match find result old with
      | Some found =>
          if Js.truthy found then ls' = ls
          else loadAssessmentHistory ls' userId
               = Js.array (Js.JSON_element <$> (old ++ [result]))
      | None => ls' = ls
      end
  | _ => ls' = ls
  end.
Proof.
  unfold saveAssessmentResult.
  destruct (loadAssessmentHistory ls userId) as [| |b|q|s|old|fields|name message];
    try done.
  destruct (find result old) as [found|]; [|done].
  destruct (Js.truthy found); [done|]. by rewrite load_insert.
Qed.



(** While the stored entries are truthy (objects, as every entry this
    module writes for a result): a history without two entries of the
    same [assessmentId] stays so under saving, and saving a truthy
    result a second time changes nothing, provided its identifier equals
    itself under [===] (a string or a number does, an object does
    not). *)
Theorem history_ids_stay_distinct ls userId result old :
  loadAssessmentHistory ls userId = Js.array old →
  Forall (λ r, Js.truthy r = true) old →
  (distinct_ids old →
   ∃ new,
     loadAssessmentHistory (saveAssessmentResult ls userId result) userId
     = Js.array new ∧ distinct_ids new)
  ∧
  (Js.truthy result = true →
   Js.strict_eq (Js.prop "assessmentId" result)
     (Js.prop "assessmentId" result) = true →
   saveAssessmentResult (saveAssessmentResult ls userId result) userId result
   = saveAssessmentResult ls userId result).
Proof.
  intros Hload Htruthy.
  pose proof (save_cases ls userId result) as Hcases. simpl in Hcases.
  rewrite Hload in Hcases.
  destruct (find result old) as [found|] eqn:Hfind;
    [destruct (Js.truthy found) eqn:Hfound|];
    try (rewrite Hcases; split; [intros Hd; exists old; by rewrite Hload | done]).
  pose proof (find_falsy _ _ _ Htruthy Hfind Hfound) as Hnone.
  split.
  - intros Hd. eexists. split; [exact Hcases|]. clear Hcases Hfind Hload.
    induction old as [|r old IH]; simpl.
    + split; [constructor | done].
    + destruct Hd as [Hr Hd]. apply Forall_cons in Htruthy as [_ Htruthy].
      apply Forall_cons in Hnone as [Hhead Hnone]. split; [|by apply IH].
      apply Forall_fmap, Forall_app. split.
      * eapply Forall_impl; [exact Hr|]. intros r' H'. simpl.
        by rewrite assessmentId_image, strict_eq_sym, assessmentId_image,
          strict_eq_sym.
      * apply Forall_singleton. simpl.
        rewrite assessmentId_image, strict_eq_sym, assessmentId_image.
        by apply same_id_prop.
  - intros Hresult Hself.
    pose proof (save_cases (saveAssessmentResult ls userId result) userId result)
      as Hagain. simpl in Hagain. rewrite Hcases in Hagain.
    assert (∃ r, find result (Js.JSON_element <$> (old ++ [result])) = Some r ∧
                 Js.truthy r = true) as (r & Hr & Htr).
    { destruct (find_truthy result (Js.JSON_element <$> (old ++ [result])))
        as (r & Hr & Htr & _); [| |by exists r].
      - apply Forall_fmap, Forall_app. split.
        + eapply Forall_impl; [exact Htruthy|]. intros r' H'. simpl.
          by rewrite truthy_image.
        + apply Forall_singleton. simpl. by rewrite truthy_image.
      - apply Exists_exists. exists (Js.JSON_element result). split.
        + rewrite fmap_app. apply elem_of_app. right. by left.
        + rewrite same_id_image by done. unfold same_id, Js.prop in *.
          destruct (Js.get "assessmentId" result) as [a|] eqn:Ha; [|by destruct result].
          simpl in Hself. by rewrite Hself. }
    by rewrite Hr, Htr in Hagain.
Qed.

Lemma history_ids_stay_distinct_witness :
  let result := Js.object [("assessmentId", Js.str "a-17");
                           ("riskLevel", Js.str "Low")] in
  let ls : Storage := ∅ in
  saveAssessmentResult (saveAssessmentResult ls "u-3" result) "u-3" result
  = saveAssessmentResult ls "u-3" result.
Proof.
  intros result ls.
  exact (proj2 (history_ids_stay_distinct ls "u-3" result [] eq_refl
                  (Forall_nil_2 _)) eq_refl eq_refl).
Defined.


(** Histories are kept per user: saving for one user, or clearing one
    user's history, leaves every other user's history as it was; a
    cleared history loads as empty. *)
Theorem history_is_per_user ls userId other result :
  userId ≠ other →
  loadAssessmentHistory (saveAssessmentResult ls userId result) other
    = loadAssessmentHistory ls other ∧
  loadAssessmentHistory (clearAssessmentHistory ls userId) other
    = loadAssessmentHistory ls other ∧
  loadAssessmentHistory (clearAssessmentHistory ls userId) userId = Js.array [].
Proof.
  intros Hne. assert (KEY userId ≠ KEY other) as Hkey
    by (intros H; by apply KEY_inj in H).
  split_and!.
  - unfold saveAssessmentResult.
    destruct (loadAssessmentHistory ls userId); try done.
    destruct (find _ _) as [found|]; [|done].
    destruct (Js.truthy found); [done|].
    unfold loadAssessmentHistory, Storage. by rewrite lookup_insert_ne.
  - unfold loadAssessmentHistory, clearAssessmentHistory, Storage.
    by rewrite lookup_delete_ne.
  - unfold loadAssessmentHistory, clearAssessmentHistory, Storage.
    by rewrite lookup_delete_eq.
Qed.

Lemma history_is_per_user_witness :
  let result := Js.object [("assessmentId", Js.str "a-17")] in
  let stored := Js.object [("assessmentId", Js.str "a-02")] in
  let ls : Storage := {[ KEY "u-1" := parsed (Js.array [stored]) ]} in
  loadAssessmentHistory (saveAssessmentResult ls "u-3" result) "u-1"
  = Js.array [stored].
Proof.
  intros result stored ls.
  assert ("u-3" ≠ "u-1") as Hne by (intros H; discriminate H).
  exact (eq_trans (proj1 (history_is_per_user ls "u-3" "u-1" result Hne)) eq_refl).
Defined.

End HistoryFacts.

(** ** The service calls *)

Section ServiceFacts.
Import Api.

Lemma round_near (x : Q) :
  (x - (1 # 2) < inject_Z (Js.round x))%Q ∧ (inject_Z (Js.round x) <= x + (1 # 2))%Q.
Proof.
  unfold Js.round.
  pose proof (Qfloor_le (x + (1 # 2))) as Hle.
  pose proof (Qlt_floor (x + (1 # 2))) as Hlt.
  rewrite inject_Z_plus in Hlt. change (inject_Z 1) with 1%Q in Hlt.
  split; lra.
Qed.

(** The three calls that read the body leniently answer a non-2xx
    status by throwing, never by returning.  What they throw is an
    [Error] whose message is the body itself when that is a JSON string;
    else the [detail] of the body converted to a string when that is
    truthy, so that a [detail] listing one object, as a validation
    failure sends it, gives ["[object Object]"]; else "Request failed".
    (When the conversion itself throws, its [TypeError] is what is
    thrown.)  A 2xx response whose body is missing, unparsable or [null]
    makes each of them throw the [TypeError] of the first property it
    reads. *)
Theorem lenient_calls_failures {engine : Js.Engine} (response : Response) :
  (ok response = false →
     let e := Js.thrown_new_Error (failure_message (raw_of response)) in
     registerUser (Js.Return response) = Js.Throw e ∧
     startAssessment (Js.Return response) = Js.Throw e ∧
     fetchAssessmentResult (Js.Return response) = Js.Throw e ∧
     (∀ s, json response = Some (Js.str s) → e = Js.Error s) ∧
     (∀ fields, json response = Some (Js.object fields) →
        let detail := Js.lookup_field "detail" fields in
        e = if Js.truthy detail
            then match Js.ToString detail with
                 | Some message => Js.Error message
                 | None => Js.TypeError Js.cannot_convert
                 end
            else Js.Error "Request failed") ∧
     (∀ fields item, json response = Some (Js.object fields) →
        Js.lookup_field "detail" fields = Js.array [Js.object item] →
        "toString" ∉ item.*1 →
        e = Js.Error "[object Object]") ∧
     (json response = None ∨ json response = Some Js.null →
        e = Js.Error "Request failed"))
  ∧
  (ok response = true →
   json response = None ∨ json response = Some Js.null →
     registerUser (Js.Return response)
       = Js.Throw (Js.TypeError (Js.cannot_read Js.null "user")) ∧
     startAssessment (Js.Return response)
       = Js.Throw (Js.TypeError (Js.cannot_read Js.null "assessmentId")) ∧
     fetchAssessmentResult (Js.Return response)
       = Js.Throw (Js.TypeError (Js.cannot_read Js.null "riskLevel"))).
Proof.
  split.
  - intros Hok e. subst e.
    unfold registerUser, startAssessment, fetchAssessmentResult.
    rewrite Hok. simpl. unfold raw_of. split_and!; try done.
    + by intros s ->.
    + intros fields ->. simpl.
      destruct (Js.truthy (Js.lookup_field "detail" fields)) eqn:E; [|done].
      unfold Js.thrown_new_Error.
      by destruct (Js.lookup_field "detail" fields).
    + intros fields item -> Hdetail Hitem. simpl. rewrite Hdetail. simpl.
      by rewrite bool_decide_eq_false_2.
    + by intros [->| ->].
  - intros Hok Hbody.
    unfold registerUser, startAssessment, fetchAssessmentResult, raw_of.
    rewrite Hok. by destruct Hbody as [->| ->].
Qed.

Lemma lenient_calls_failures_witness :
  let response :=
    {| ok := false;
       json := Some (Js.object
                 [("detail",
                   Js.array [Js.object [("loc", Js.array [Js.str "body"; Js.str "age"]);
                                        ("msg", Js.str "field required");
                                        ("type", Js.str "value_error.missing")]])]) |} in
  registerUser (engine := Js.example_engine) (Js.Return response)
  = Js.Throw (Js.Error "[object Object]").
Proof.
  intros response.
  destruct (proj1 (lenient_calls_failures (engine := Js.example_engine) response)
              eq_refl)
    as (Hregister & _ & _ & _ & _ & Hdetail & _).
  refine (eq_trans Hregister (f_equal Js.Throw (Hdetail _ _ eq_refl eq_refl _))).
  intros Hin. vm_compute in Hin.
  repeat (apply elem_of_cons in Hin as [Hin|Hin]; [discriminate Hin|]).
  by apply elem_of_nil in Hin.
Defined.

(** The sub-scores of a returned result.  When the body carries a truthy
    [sub_scores], the result holds its four scores under the camel-case
    names, a missing or [null] score reading as 0, and this takes
    precedence over a [subScores] field of the body.  Otherwise the
    body's [subScores] is passed on, and four zeros stand in when the
    body has neither. *)
Theorem sub_scores_normalised (raw : Js.value) :
  let out := Js.prop "subScores" (normalize raw) in
  let snake := Js.prop "sub_scores" raw in
  let camel := Js.prop "subScores" raw in
  (Js.truthy snake = true →
     out = Js.object
             [("memoryScore", Js.coalesce (Js.prop "memory_score" snake) (Js.number 0));
              ("attentionScore", Js.coalesce (Js.prop "attention_score" snake) (Js.number 0));
              ("languageScore", Js.coalesce (Js.prop "language_score" snake) (Js.number 0));
              ("executiveScore", Js.coalesce (Js.prop "executive_score" snake) (Js.number 0))])
  ∧ (Js.truthy snake = false → Js.nullish camel = false → out = camel)
  ∧ (Js.nullish snake = true → Js.nullish camel = true → out = zero_scores)
  ∧ (∀ k, Js.truthy snake = true →
          k ∈ ["memoryScore"; "attentionScore"; "languageScore"; "executiveScore"] →
          Js.nullish (Js.prop k out) = false).
Proof.
  intros out snake camel. subst out.
  change (Js.prop "subScores" (normalize raw))
    with (if Js.truthy snake then camel_scores snake
          else Js.coalesce camel (Js.coalesce snake zero_scores)).
  split_and!.
  - by intros ->.
  - intros -> Hc. unfold Js.coalesce. by rewrite Hc.
  - intros Hs Hc.
    assert (Js.truthy snake = false) as -> by (by destruct snake).
    unfold Js.coalesce. by rewrite Hc, Hs.
  - intros k -> Hk. unfold camel_scores, Js.coalesce.
    repeat (apply elem_of_cons in Hk as [->|Hk]);
      [..|by apply elem_of_nil in Hk];
      match goal with
      | |- context [Js.nullish (Js.prop ?f snake)] =>
          change (Js.nullish
                    (if Js.nullish (Js.prop f snake) then Js.number 0
                     else Js.prop f snake) = false);
          by destruct (Js.nullish (Js.prop f snake)) eqn:E
      end.
Qed.

Lemma sub_scores_normalised_witness :
  let raw := Js.object
    [("risk_level", Js.str "Low");
     ("subScores", Js.object [("memoryScore", Js.number 2)]);
     ("sub_scores", Js.object [("memory_score", Js.number 1);
                               ("attention_score", Js.null)])] in
  Js.prop "subScores" (normalize raw)
  = Js.object [("memoryScore", Js.number 1); ("attentionScore", Js.number 0);
               ("languageScore", Js.number 0); ("executiveScore", Js.number 0)].
Proof.
  intros raw. exact (proj1 (sub_scores_normalised raw) eq_refl).
Defined.

(** The submitted body holds one log per interaction log, in the same
    order and under the same task identifier; each response time is sent
    as a whole number of milliseconds at most half a millisecond away
    from the recorded one; an unknown correctness is sent as [null]. *)
Theorem submitted_logs (payload : CognitiveSubmissionPayload) :
  ∃ entries,
    Js.prop "logs" (cognitive_body payload) = Js.array entries ∧
    Forall2
      (λ l e,
         Js.prop "task_id" e = Js.str (taskId l) ∧
         (∃ t : Z,
            Js.prop "response_time_ms" e = Js.number (inject_Z t) ∧
            (responseTimeMs l - (1 # 2) < inject_Z t)%Q ∧
            (inject_Z t <= responseTimeMs l + (1 # 2))%Q ∧
            ((0 <= responseTimeMs l)%Q → 0 ≤ t)) ∧
         (Js.prop "correct" e = Js.null ↔ correct l = None))
      (logs payload) entries.
Proof.
  exists (log_snake <$> logs payload). split; [done|].
  apply Forall2_fmap_r, Forall_Forall2_diag, Forall_forall. intros l _.
  split_and!.
  - done.
  - exists (Js.round (responseTimeMs l)).
    destruct (round_near (responseTimeMs l)) as [Hlo Hhi].
    split_and!; [done..|].
    intros Hpos. unfold Js.round.
    change 0 with (Qfloor 0). apply Qfloor_resp_le. lra.
  - change (Js.prop "correct" (log_snake l))
      with (match correct l with Some b => Js.boolean b | None => Js.null end).
    by destruct (correct l).
Qed.

Lemma submitted_logs_witness :
  let l := {| taskId := "attention-visual"; taskType := cognitive;
              prompt := "Square, Square, Circle, Square";
              responseTimeMs := 2469 # 2; correct := Some true;
              errors := Some 0%nat; metadata := None |} in
  let payload := {| assessmentId := "a-17"; logs := [l];
                    cognitiveScores :=
                      {| memoryScore := 0; attentionScore := 1;
                         languageScore := 0; executiveScore := 0 |};
                    clockDrawing := None |} in
  ∃ entries t,
    Js.prop "logs" (cognitive_body payload) = Js.array entries ∧
    (Js.prop "response_time_ms" <$> entries) = [Js.number (inject_Z t)] ∧
    0 ≤ t.
Proof.
  intros l payload.
  destruct (submitted_logs payload) as (entries & Hentries & Hall).
  assert (length entries = 1%nat) as Hlen
    by (symmetry; exact (Forall2_length _ _ _ Hall)).
  destruct entries as [|e [|e' entries]]; try discriminate Hlen.
  apply Forall2_cons_1 in Hall as [(_ & (t & Ht & _ & _ & Hpos) & _) _].
  exists [e], t. split; [exact Hentries|]. split.
  - simpl. f_equal. exact Ht.
  - apply Hpos. unfold Qle. simpl. lia.
Defined.

End ServiceFacts.

(** ** The orchestrator *)

Section OrchestratorFacts.
Import Assessment.

Lemma advanceStep_index st :
  activeStepIndex (advanceStep st) = Nat.min (activeStepIndex st + 1) 3.
Proof. done. Qed.

(** What is shown for a caught error: the message of an [Error], the
    fallback text for anything else. *)
Lemma describe_Error m fallback : describe (Js.Error m) fallback = Js.str m.
Proof. done. Qed.

(** The results handler, whatever the backend does.  Before onboarding
    is complete it only shows a notice and leaves the page as it is.
    Otherwise the first thing it does outside the page is to send the
    submission, and however the backend answers, failures included, it
    ends one step further (never past the last one), with the loading
    and pending flags off and the upload flag as it was. *)
Theorem results_handler_settles {engine : Js.Engine} ses srv payload st :
  let r := handleCognitiveComplete ses srv payload st in
  (not_started ses = true →
     r = (st, [toast "Assessment not started"
                 (Some (Js.str "Please complete onboarding first."))]))
  ∧
  (not_started ses = false →
     isLoading r.1 = false ∧ isResultPending r.1 = false ∧
     activeStepIndex r.1 = Nat.min (activeStepIndex st + 1) 3 ∧
     isSpeechUploading r.1 = isSpeechUploading st ∧
     ∃ rest, r.2 = submitCognitiveData_call payload :: rest).
Proof.
  intros r. subst r. unfold handleCognitiveComplete. split; intros ->; [done|].
  destruct (submit srv) as [v1|e1]; [|split_and!; try done; eauto].
  destruct (predict srv) as [v2|e2]; [|split_and!; try done; eauto].
  destruct (poll (fetch srv) 0 15) as [fetched e2].
  destruct (Js.truthy fetched); split_and!; try done; eauto.
Qed.

Lemma results_handler_settles_witness :
  let ses := {| user := Some {| user_id := "u-3"; name := "Asha"; age := 67;
                                language := "hi"; consent := true;
                                accessToken := Some "token" |};
                assessmentId := Some "a-17" |} in
  let srv := {| submit := Js.Throw (Js.Error "Failed to fetch");
                predict := Js.Return Js.null;
                fetch := λ _, Js.Throw Js.null |} in
  let st := {| activeStepIndex := 2; isLoading := false;
               isSpeechUploading := false; result := None;
               isResultPending := false; history := Js.array [];
               localStorage := ∅ |} in
  let r := handleCognitiveComplete (engine := Js.example_engine)
             ses srv (CognitiveTasks.payload_of [] ∅) st in
  isLoading r.1 = false ∧ isResultPending r.1 = false ∧
  activeStepIndex r.1 = 3%nat.
Proof.
  intros ses srv st r.
  destruct (proj2 (results_handler_settles (engine := Js.example_engine)
                     ses srv (CognitiveTasks.payload_of [] ∅) st) eq_refl)
    as (Hl & Hp & Hs & _).
  split_and!; [exact Hl | exact Hp | exact Hs].
Defined.

(** A failed submission ends the handler: no prediction is requested and
    no result is fetched.  A failed prediction request ends it as well,
    before any result is fetched.  In both cases the error is logged, its
    message is shown under "Prediction failed", and neither the result
    nor the stored history changes; the page has moved on to the results
    step all the same. *)
Theorem results_handler_stops_at_failure {engine : Js.Engine}
    ses srv payload st :
  not_started ses = false →
  let r := handleCognitiveComplete ses srv payload st in
  let notice e :=
    [console_error e;
     toast "Prediction failed" (Some (describe e "Please try again later."))] in
  (∀ e, submit srv = Js.Throw e →
     r.2 = submitCognitiveData_call payload :: notice e ∧
     result r.1 = result st ∧ history r.1 = history st ∧
     localStorage r.1 = localStorage st ∧
     activeStepIndex r.1 = Nat.min (activeStepIndex st + 1) 3)
  ∧
  (∀ v e, submit srv = Js.Return v → predict srv = Js.Throw e →
     r.2 = [submitCognitiveData_call payload;
            toast "Cognitive data captured" None;
            requestRiskPrediction_call] ++ notice e ∧
     result r.1 = result st ∧ history r.1 = history st ∧
     localStorage r.1 = localStorage st ∧
     activeStepIndex r.1 = Nat.min (activeStepIndex st + 1) 3).
Proof.
  intros Hstarted r notice. subst r. unfold handleCognitiveComplete.
  rewrite Hstarted. split.
  - by intros e ->.
  - by intros v e -> ->.
Qed.

Lemma results_handler_stops_at_failure_witness :
  let ses := {| user := Some {| user_id := "u-3"; name := "Asha"; age := 67;
                                language := "hi"; consent := true;
                                accessToken := Some "token" |};
                assessmentId := Some "a-17" |} in
  let e := Js.Error "Assessment not found" in
  let srv := {| submit := Js.Throw e; predict := Js.Return Js.null;
                fetch := λ _, Js.Throw Js.null |} in
  let st := {| activeStepIndex := 2; isLoading := false;
               isSpeechUploading := false; result := None;
               isResultPending := false; history := Js.array [];
               localStorage := ∅ |} in
  let payload := CognitiveTasks.payload_of [] ∅ in
  (handleCognitiveComplete (engine := Js.example_engine) ses srv payload st).2
  = [submitCognitiveData_call payload; console_error e;
     toast "Prediction failed" (Some (Js.str "Assessment not found"))].
Proof.
  intros ses e srv st payload.
  exact (proj1 (proj1 (results_handler_stops_at_failure
                         (engine := Js.example_engine) ses srv payload st eq_refl)
                  e eq_refl)).
Defined.



(** The recorder on the page.  The page's upload handler takes every
    failure of the upload on itself: it logs the error and shows "Upload
    failed", and the promise it returns is fulfilled all the same.  So
    the recorder makes exactly one attempt per chunk, adds no wait, error
    log or notice of its own, and goes on as after a success, whether or
    not the sample reached the server: the buffer is emptied, and the
    next task becomes current or the completion callback runs, which
    moves the page to the next step. *)
Theorem page_upload_is_never_retried ses upload page c data st task :
  SpeechRecorder.currentTask c = Some task →
  SpeechRecorder.size data ≠ 0%N →
  let p := {| SpeechRecorder.taskId := SpeechRecorder.id task;
              SpeechRecorder.blob :=
                SpeechRecorder.assemble (SpeechRecorder.chunksRef st ++ [data]);
              SpeechRecorder.durationMs := SpeechRecorder.c_elapsedMs c |} in
  let call := handleSpeechUpload ses (upload 0%nat) p page in
  let done := handleSpeechComplete call.1.2 in
  let r := speech_chunk ses upload c data page st in
  call.1.1 = Js.Return tt ∧
  (∀ error, not_started ses = false → upload 0%nat = Js.Throw error →
     call.2 = [uploadSpeechSample_call (SpeechRecorder.id task);
               console_error error;
               toast "Upload failed"
                 (Some (describe error "Check your connection and try again."))]) ∧
  SpeechRecorder.chunksRef r.1.1 = [] ∧
  if decide (SpeechRecorder.c_currentIndex c + 1
             < length (SpeechRecorder.tasks c))%nat
  then
    SpeechRecorder.currentIndex r.1.1 = (SpeechRecorder.currentIndex st + 1)%nat ∧
    r.1.2 = call.1.2 ∧
    r.2 = in_recorder (SpeechRecorder.onUpload_call p) :: (on_page <$> call.2)
  else
    SpeechRecorder.currentIndex r.1.1 = SpeechRecorder.currentIndex st ∧
    r.1.2 = done.1 ∧
    r.2 = in_recorder (SpeechRecorder.onUpload_call p) :: (on_page <$> call.2)
          ++ in_recorder SpeechRecorder.onComplete_call :: (on_page <$> done.2).
Proof.
  intros Hcurrent Hsize p call done r.
  split; [apply handleSpeechUpload_fulfils|].
  split.
  { intros error Hstarted Hthrow. subst call. unfold handleSpeechUpload.
    by rewrite Hstarted, Hthrow. }
  subst r. unfold speech_chunk, SpeechRecorder.handleDataAvailable.
  rewrite Hcurrent. apply N.eqb_neq in Hsize. rewrite Hsize. fold p.
  rewrite (retry_first_success (onUpload_settles ses upload page) p 0 3 0
             Js.undefined)
    by (lia || (intros j Hj; lia) || apply handleSpeechUpload_fulfils).
  simpl.
  destruct (decide (SpeechRecorder.c_currentIndex c + 1
                    < length (SpeechRecorder.tasks c))%nat) as [Hlt|Hge].
  - replace (Z.of_nat (SpeechRecorder.c_currentIndex c)
             <? Z.of_nat (length (SpeechRecorder.tasks c)) - 1)
      with true by (symmetry; apply Z.ltb_lt; lia).
    simpl. fold call. destruct call as [[settled st1] here]. simpl.
    by rewrite app_nil_r.
  - replace (Z.of_nat (SpeechRecorder.c_currentIndex c)
             <? Z.of_nat (length (SpeechRecorder.tasks c)) - 1)
      with false by (symmetry; apply Z.ltb_ge; lia).
    simpl. fold call. subst done. by destruct call as [[settled st1] here].
Qed.

Lemma page_upload_is_never_retried_witness :
  let ses := {| user := Some {| user_id := "u-3"; name := "Asha"; age := 67;
                                language := "hi"; consent := true;
                                accessToken := Some "token" |};
                assessmentId := Some "a-17" |} in
  let page := {| activeStepIndex := 1; isLoading := false;
                 isSpeechUploading := false; result := None;
                 isResultPending := false; history := Js.array [];
                 localStorage := ∅ |} in
  let st := {| SpeechRecorder.currentIndex := 0; SpeechRecorder.elapsedMs := 0;
               SpeechRecorder.chunksRef := [] |} in
  let data := {| SpeechRecorder.size := 4096; SpeechRecorder.type := "audio/webm" |} in
  let e := Js.Error "Failed to fetch" in
  let p := {| SpeechRecorder.taskId := "picture-description";
              SpeechRecorder.blob := data; SpeechRecorder.durationMs := 0 |} in
  let r := speech_chunk ses (λ _, Js.Throw e)
             (SpeechRecorder.render SPEECH_TASKS st) data page st in
  SpeechRecorder.currentIndex r.1.1 = 1%nat ∧
  r.2 = [in_recorder (SpeechRecorder.onUpload_call p);
         on_page (uploadSpeechSample_call "picture-description");
         on_page (console_error e);
         on_page (toast "Upload failed" (Some (Js.str "Failed to fetch")))].
Proof.
  intros ses page st data e p r.
  assert (SpeechRecorder.size data ≠ 0%N) as Hsize by (intros H; discriminate H).
  pose proof (page_upload_is_never_retried ses (λ _, Js.Throw e) page
                (SpeechRecorder.render SPEECH_TASKS st) data st _ eq_refl Hsize)
    as (_ & _ & _ & H).
  destruct (decide (SpeechRecorder.c_currentIndex
                      (SpeechRecorder.render SPEECH_TASKS st) + 1
                    < length (SpeechRecorder.tasks
                                (SpeechRecorder.render SPEECH_TASKS st)))%nat)
    as [_|Hge]; [|simpl in Hge; lia].
  destruct H as (Hi & _ & Ht). split; [exact Hi | exact Ht].
Defined.

(** Onboarding, by outcome.  A failed registration leaves the session
    and the step as they were.  When the registration succeeds but the
    assessment cannot be started, the user is stored all the same, while
    the assessment identifier and the step stay as they were.  When both
    succeed, user and identifier are stored and the page moves one step
    on.  The loading flag is off at the end in every case. *)
Theorem onboarding_outcomes values register start ses st :
  let r := handleOnboardingSubmit values register start ses st in
  isLoading r.1.2 = false ∧
  (∀ e, register = Js.Throw e →
     r.1.1 = ses ∧ activeStepIndex r.1.2 = activeStepIndex st ∧
     r.2 = [registerUser_call values; onboarding_error e;
            onboarding_toast "Could not register"
              (Some (describe e "Please try again later."))]) ∧
  (∀ profile e, register = Js.Return profile → start = Js.Throw e →
     user r.1.1 = Some profile ∧ assessmentId r.1.1 = assessmentId ses ∧
     activeStepIndex r.1.2 = activeStepIndex st ∧
     startAssessment_call (accessToken profile) ∈ r.2) ∧
  (∀ profile newId, register = Js.Return profile → start = Js.Return newId →
     user r.1.1 = Some profile ∧ assessmentId r.1.1 = newId ∧
     activeStepIndex r.1.2 = Nat.min (activeStepIndex st + 1) 3).
Proof.
  intros r. subst r. unfold handleOnboardingSubmit. split_and!.
  - by destruct register as [profile|e]; [destruct start|].
  - by intros e ->.
  - intros profile e -> ->. split_and!; try done.
    simpl. apply elem_of_cons. right. by left.
  - by intros profile newId -> ->.
Qed.

Lemma onboarding_outcomes_witness :
  let values := {| v_name := "Asha"; v_age := 67; v_language := "hi";
                   v_consent := true |} in
  let profile := {| user_id := "u-3"; name := "Asha"; age := 67;
                    language := "hi"; consent := true;
                    accessToken := Some "token" |} in
  let ses := {| user := None; assessmentId := None |} in
  let st := {| activeStepIndex := 0; isLoading := false;
               isSpeechUploading := false; result := None;
               isResultPending := false; history := Js.array []; localStorage := ∅ |} in
  let r := handleOnboardingSubmit values (Js.Return profile)
             (Js.Throw (Js.Error "Service unavailable")) ses st in
  user r.1.1 = Some profile ∧ assessmentId r.1.1 = None ∧
  activeStepIndex r.1.2 = 0%nat.
Proof.
  intros values profile ses st r.
  destruct (proj1 (proj2 (proj2 (onboarding_outcomes values (Js.Return profile)
              (Js.Throw (Js.Error "Service unavailable")) ses st)))
              profile _ eq_refl eq_refl) as (Hu & Ha & Hs & _).
  split_and!; [exact Hu | exact Ha | exact Hs].
Defined.

End OrchestratorFacts.

(** ** The generated catalog *)

Section GeneratedCatalogFacts.
Import CognitiveTasks Assessment.

Lemma filter_bool {A} (f : A → bool) (l : list A) :
  List.filter f l = filter (λ x, f x = true) l.
Proof.
  induction l as [|x l IH]; [done|]. simpl. rewrite filter_cons, IH.
  destruct (f x); by destruct (decide _).
Qed.

Lemma shuffle_length {A} picks (arr : list A) :
  length (shuffle picks arr) = length arr.
Proof. apply Permutation_length, shuffle_Permutation. Qed.

Lemma shuffle_NoDup {A} picks (arr : list A) : NoDup arr → NoDup (shuffle picks arr).
Proof. by rewrite shuffle_Permutation. Qed.

Lemma elem_of_shuffle {A} picks (arr : list A) x : x ∈ shuffle picks arr ↔ x ∈ arr.
Proof. by rewrite shuffle_Permutation. Qed.

Lemma NoDup_take {A} n (l : list A) : NoDup l → NoDup (take n l).
Proof. intros Hnd. exact (sublist_NoDup _ _ Hnd (sublist_take l n)). Qed.

(** Distinct members of an array have distinct first positions. *)
Lemma indexOf_NoDup {A B} `{EqDecision B} (f : A → B) targets (opts : list B) :
  NoDup (f <$> targets) → (∀ x, x ∈ targets → f x ∈ opts) →
  NoDup ((λ x, Js.indexOf opts (f x)) <$> targets).
Proof.
  intros Hnd Hin.
  change ((λ x, Js.indexOf opts (f x)) <$> targets)
    with ((Js.indexOf opts ∘ f) <$> targets).
  rewrite list_fmap_compose. apply NoDup_fmap_2_strong; [|done].
  intros y1 y2 [x1 [-> Hx1]]%list_elem_of_fmap [x2 [-> Hx2]]%list_elem_of_fmap Heq.
  destruct (nth_js_indexOf opts (f x1) (Hin _ Hx1)) as [_ H1].
  destruct (nth_js_indexOf opts (f x2) (Hin _ Hx2)) as [_ H2].
  rewrite Heq in H1. congruence.
Qed.

Lemma lexicon_cases language :
  lexicon language ∈ (snd <$> map_to_list WORDS_BY_LANG).
Proof.
  unfold lexicon. destruct (WORDS_BY_LANG !! language) as [lex|] eqn:E.
  - apply list_elem_of_fmap. exists (language, lex). split; [done|].
    by apply elem_of_map_to_list.
  - apply list_elem_of_fmap. eexists ("en", _). split; [done|].
    by apply elem_of_map_to_list.
Qed.

(** Every lexicon, the fallback included, holds eleven distinct words. *)
Lemma lexicon_words language :
  NoDup (lexicon language) ∧ length (lexicon language) = 11%nat.
Proof.
  assert (Forall (λ lex : list string, NoDup lex ∧ length lex = 11%nat)
            (snd <$> map_to_list WORDS_BY_LANG)) as Hall.
  { apply (bool_decide_unpack _). vm_compute. exact I. }
  rewrite Forall_forall in Hall. apply Hall, lexicon_cases.
Qed.

(** The two word pools drawn from a duplicate-free lexicon. *)
Lemma word_pools (lex : list string) picks0 picks1 :
  NoDup lex →
  let poolA := take 5 (shuffle picks0 lex) in
  let poolB :=
    take 5 (shuffle picks1 (List.filter (λ w, negb (Js.includes poolA w)) lex)) in
  NoDup (poolA ++ poolB) ∧ Forall (λ w, w ∈ lex) (poolA ++ poolB) ∧
  length poolA = Nat.min 5 (length lex) ∧
  length poolB = Nat.min 5 (length lex - Nat.min 5 (length lex)).
Proof.
  intros Hnd poolA poolB.
  assert (NoDup poolA) as HA by (by apply NoDup_take, shuffle_NoDup).
  assert (∀ w, w ∈ poolA → w ∈ lex) as HAin.
  { intros w Hw. apply (subseteq_take 5) in Hw. by apply elem_of_shuffle in Hw. }
  assert (length poolA = Nat.min 5 (length lex)) as HAlen
    by (unfold poolA; by rewrite length_take, shuffle_length).
  set (rest := List.filter (λ w, negb (Js.includes poolA w)) lex) in *.
  assert (rest = filter (λ w, w ∉ poolA) lex) as Hrest.
  { unfold rest. rewrite filter_bool. apply list_filter_iff. intros w.
    unfold Js.includes. rewrite negb_true_iff, bool_decide_eq_false. done. }
  assert (length rest = (length lex - Nat.min 5 (length lex))%nat) as Hrestlen.
  { pose proof (filter_app_complement (λ w, w ∈ poolA) lex) as Hsplit.
    apply Permutation_length in Hsplit. rewrite length_app in Hsplit.
    assert (filter (λ w, w ∈ poolA) lex ≡ₚ poolA) as HPA.
    { apply NoDup_Permutation; [by apply NoDup_filter | done |].
      intros w. rewrite list_elem_of_filter. split; [tauto | auto]. }
    rewrite (Permutation_length HPA), HAlen in Hsplit. rewrite Hrest. lia. }
  assert (∀ w, w ∈ poolB → w ∈ lex ∧ w ∉ poolA) as HBin.
  { intros w Hw. apply (subseteq_take 5) in Hw. apply elem_of_shuffle in Hw.
    rewrite Hrest in Hw. apply list_elem_of_filter in Hw. tauto. }
  split_and!.
  - apply NoDup_app. split_and!; [done| |].
    + intros w Hw HwB. by apply HBin in HwB as [_ ?].
    + apply NoDup_take, shuffle_NoDup. rewrite Hrest. by apply NoDup_filter.
  - apply Forall_forall. intros w [Hw|Hw]%elem_of_app; [by apply HAin|].
    by apply HBin.
  - done.
  - unfold poolB. by rewrite length_take, shuffle_length, Hrestlen.
Qed.

(** In every generated catalog, whatever the language and the random
    draws: the two word-recall tasks offer five words each, all from the
    session's lexicon, and no word occurs twice among the ten. *)
Theorem generated_word_tasks rnd language :
  ∃ word1 word2 opts1 opts2,
    generateCognitiveTasks rnd language !! 0%nat = Some word1 ∧
    generateCognitiveTasks rnd language !! 3%nat = Some word2 ∧
    options word1 = Some opts1 ∧ options word2 = Some opts2 ∧
    length opts1 = 5%nat ∧ length opts2 = 5%nat ∧
    NoDup (opts1 ++ opts2) ∧
    Forall (λ w, w ∈ lexicon language) (opts1 ++ opts2).
Proof.
  destruct (lexicon_words language) as [Hnd Hlen].
  destruct (word_pools (lexicon language) (rnd 0%nat) (rnd 1%nat) Hnd)
    as (Hpools & Hin & HA & HB).
  rewrite Hlen in HA, HB. simpl in HA, HB.
  eexists _, _, _, _.
  split_and!; [reflexivity | reflexivity | reflexivity | reflexivity | | | |].
  - by rewrite shuffle_length.
  - by rewrite shuffle_length.
  - by rewrite (shuffle_Permutation (rnd 2%nat)), (shuffle_Permutation (rnd 3%nat)).
  - by rewrite (shuffle_Permutation (rnd 2%nat)), (shuffle_Permutation (rnd 3%nat)).
Qed.

(** Every generated catalog has the same seven tasks in the same order,
    under pairwise distinct identifiers, and the expected answer of each
    of its sequence tasks names no option twice. *)
Theorem generated_catalog rnd language :
  (type <$> generateCognitiveTasks rnd language)
    = [word_recall; digit_span; attention; word_recall; digit_span;
       attention; clock_drawing] ∧
  (id <$> generateCognitiveTasks rnd language)
    = ["word-recall"; "digit-span"; "attention-sequence"; "word-recall-2";
       "digit-span-reverse"; "attention-visual"; "clock-drawing"] ∧
  NoDup (id <$> generateCognitiveTasks rnd language) ∧
  Forall (λ t, NoDup (default [] (sequenceAnswer t)))
    (generateCognitiveTasks rnd language).
Proof.
  split_and!; [done | done | apply generated_ids_distinct |].
  destruct (lexicon_words language) as [Hnd Hlen].
  destruct (word_pools (lexicon language) (rnd 0%nat) (rnd 1%nat) Hnd)
    as (Hpools & _).
  apply NoDup_app in Hpools as (HA & _ & HB).
  unfold generateCognitiveTasks.
  repeat apply Forall_cons_2; [..|apply Forall_nil_2];
    try apply NoDup_nil_2.
  - apply (indexOf_NoDup (λ w, w)); [by rewrite list_fmap_id|].
    intros w Hw. by apply elem_of_shuffle.
  - apply (indexOf_NoDup Js.String_of).
    + apply (NoDup_fmap_2 _); try apply String_of_inj.
      apply (bool_decide_unpack _). vm_compute. exact I.
    + intros d Hd. apply list_elem_of_fmap_2.
      by apply (proj2 (digit_pool _ _ _)).
  - apply (indexOf_NoDup (λ w, w)); [by rewrite list_fmap_id|].
    intros w Hw. by apply elem_of_shuffle.
  - apply (indexOf_NoDup Js.String_of).
    + apply (NoDup_fmap_2 _); try apply String_of_inj.
      apply (bool_decide_unpack _). vm_compute. exact I.
    + intros d Hd. apply list_elem_of_fmap_2.
      by apply (proj2 (digit_pool _ _ _)).
Qed.

Lemma from_Set_app_length {A} `{EqDecision A} (l1 l2 : list A) :
  (length (Js.from_Set l1) ≤ length (Js.from_Set (l1 ++ l2)))%nat ∧
  (length (Js.from_Set (l1 ++ l2)) ≤ length (Js.from_Set l1) + length l2)%nat.
Proof.
  split.
  - apply submseteq_length, NoDup_submseteq; [apply from_Set_NoDup|].
    intros x. rewrite !elem_of_from_Set, elem_of_app. tauto.
  - rewrite <- length_app.
    apply submseteq_length, NoDup_submseteq; [apply from_Set_NoDup|].
    intros x. rewrite elem_of_from_Set, !elem_of_app, elem_of_from_Set. tauto.
Qed.

(** The options of a digit-span task are the target digits and at most
    five distractors, each a digit from 0 to 9: nothing else is offered,
    and their number lies between the number of distinct targets and
    that number plus five. *)
Theorem digit_span_options picks1 picks2 id title (digits : list Z) :
  ∃ opts,
    options (makeDigitSpanTask picks1 picks2 id title digits) = Some opts ∧
    Forall (λ o, o ∈ Js.String_of <$> (digits ++ [0; 1; 2; 3; 4; 5; 6; 7; 8; 9]))
      opts ∧
    (length (Js.from_Set digits) ≤ length opts)%nat ∧
    (length opts ≤ length (Js.from_Set digits) + 5)%nat.
Proof.
  eexists. split; [reflexivity|].
  set (drawn := take 5 (shuffle picks1 [0; 1; 2; 3; 4; 5; 6; 7; 8; 9])).
  assert (length drawn = 5%nat) as Hdrawn
    by (unfold drawn; by rewrite length_take, shuffle_length).
  destruct (from_Set_app_length digits drawn) as [Hlo Hhi].
  rewrite length_fmap, shuffle_length. split_and!; [|done|lia].
  apply Forall_forall. intros o [d [-> Hd]]%list_elem_of_fmap.
  apply list_elem_of_fmap_2.
  apply elem_of_shuffle, elem_of_from_Set, elem_of_app in Hd as [Hd|Hd].
  - apply elem_of_app. by left.
  - apply elem_of_app. right.
    apply (subseteq_take 5) in Hd. by apply elem_of_shuffle in Hd.
Qed.

(** For every generated catalog and every state of the tasks, the
    submitted language score is 0 (no generated task is of the kind
    attributed to it), the memory score lies between 0 and 2, the
    attention score between 0 and 4 and the executive score between
    0 and 1. *)
Theorem generated_score_bounds rnd language (states : gmap string TaskState) :
  let s := scores (payload_of (generateCognitiveTasks rnd language) states) in
  (Api.languageScore s == 0)%Q ∧
  (0 <= Api.memoryScore s)%Q ∧ (Api.memoryScore s <= 2)%Q ∧
  (0 <= Api.attentionScore s)%Q ∧ (Api.attentionScore s <= 4)%Q ∧
  (0 <= Api.executiveScore s)%Q ∧ (Api.executiveScore s <= 1)%Q.
Proof.
  pose proof (adjustedScore_bounds (states !! "word-recall")) as [? ?].
  pose proof (adjustedScore_bounds (states !! "word-recall-2")) as [? ?].
  pose proof (adjustedScore_bounds (states !! "digit-span")) as [? ?].
  pose proof (adjustedScore_bounds (states !! "digit-span-reverse")) as [? ?].
  pose proof (adjustedScore_bounds (states !! "attention-sequence")) as [? ?].
  pose proof (adjustedScore_bounds (states !! "attention-visual")) as [? ?].
  pose proof (adjustedScore_bounds (states !! "clock-drawing")) as [? ?].
  unfold payload_of, generateCognitiveTasks, score_step. cbn.
  repeat match goal with
         | |- context [bool_decide ?P] =>
             let b := eval vm_compute in (bool_decide P) in
             change (bool_decide P) with b
         end.
  cbn. split_and!; lra.
Qed.

End GeneratedCatalogFacts.

(** ** More on the cognitive task component *)

Section TaskComponentFacts.
Import CognitiveTasks.

(** What [completeTask] leaves under the key it was called for. *)
Lemma completeTask_lookup ts c taskId overrides now st :
  taskStates (completeTask ts c taskId overrides now st) !! taskId =
  match taskStates st !! taskId with
  | Some cur =>
      match startTime cur with
      | Some t0 =>
          if Js.truthy_time (Some t0)
          then Some (completed cur overrides
                       (default (now - t0)%Q (o_responseTimeMs overrides)))
          else Some cur
      | None => Some cur
      end
  | None => None
  end.
Proof.
  unfold completeTask.
  destruct (taskStates st !! taskId) as [cur|] eqn:Hcur.
  - destruct (startTime cur) as [t0|];
      [destruct (Js.truthy_time (Some t0))|];
      destruct (_ <? _); simpl; by rewrite ?lookup_insert_eq.
  - by destruct (_ <? _).
Qed.

Lemma completeTask_other ts c taskId overrides now st k :
  k ≠ taskId →
  taskStates (completeTask ts c taskId overrides now st) !! k = taskStates st !! k.
Proof.
  intros Hk. unfold completeTask.
  destruct (taskStates st !! taskId) as [cur|];
    [destruct (startTime cur) as [t0|];
       [destruct (Js.truthy_time (Some t0))|]|];
    destruct (_ <? _); simpl; by rewrite ?lookup_insert_ne.
Qed.

(** Where [completeTask] leaves the task pointer. *)
Lemma completeTask_pointer ts c taskId overrides now st :
  let st' := completeTask ts c taskId overrides now st in
  if decide (currentIndex c + 1 < length ts)%nat
  then currentIndex st' = (currentIndex st + 1)%nat ∧ isFinished st' = isFinished st
  else currentIndex st' = currentIndex st ∧ isFinished st' = true.
Proof.
  unfold completeTask.
  destruct (decide (currentIndex c + 1 < length ts)%nat).
  - replace (Z.of_nat (currentIndex c) <? Z.of_nat (length ts) - 1) with true
      by (symmetry; apply Z.ltb_lt; lia). done.
  - replace (Z.of_nat (currentIndex c) <? Z.of_nat (length ts) - 1) with false
      by (symmetry; apply Z.ltb_ge; lia). done.
Qed.

(** One event leaves the pointer and the finished flag alone, or moves
    the pointer to the next task, or (at the last task) raises the
    flag. *)
Lemma step_pointer ts st ev :
  let st' := step ts st ev in
  (currentIndex st' = currentIndex st ∧ isFinished st' = isFinished st) ∨
  ((currentIndex st + 1 < length ts)%nat ∧
   currentIndex st' = (currentIndex st + 1)%nat ∧ isFinished st' = isFinished st) ∨
  (¬ (currentIndex st + 1 < length ts)%nat ∧
   currentIndex st' = currentIndex st ∧ isFinished st' = true).
Proof.
  unfold step. destruct (ts !! currentIndex st) as [task|]; [|by left].
  assert (∀ k o now st1,
            currentIndex st1 = currentIndex st → isFinished st1 = isFinished st →
            let st' := completeTask ts st k o now st1 in
            ((currentIndex st + 1 < length ts)%nat ∧
             currentIndex st' = (currentIndex st + 1)%nat ∧
             isFinished st' = isFinished st) ∨
            (¬ (currentIndex st + 1 < length ts)%nat ∧
             currentIndex st' = currentIndex st ∧ isFinished st' = true)) as Hc.
  { intros k o now st1 Hi Hf.
    pose proof (completeTask_pointer ts st k o now st1) as Hp. simpl in Hp.
    rewrite Hi, Hf in Hp. destruct (decide _); [left|right]; tauto. }
  destruct ev as [now|now0 now1|i now| |text]; simpl.
  - by left.
  - right. unfold handleCompleteClick.
    destruct (sequenceAnswer task); [by apply Hc|].
    apply Hc; by destruct (_ && _).
  - unfold handleOptionSelect.
    destruct (started _ _); simpl; [|by left].
    destruct (sequenceAnswer task), (options task); simpl;
      try (right; by apply Hc).
    destruct (_ || _); by left.
  - left. unfold handleUndoClick.
    destruct (taskStates st !! id task) as [cur|]; [|done].
    by destruct (sequence cur) as [[|??]|].
  - by left.
Qed.

Lemma pointer_inv ts evs st :
  (currentIndex st < length ts)%nat →
  (isFinished st = true → (currentIndex st + 1)%nat = length ts) →
  let st' := fold_left (step ts) evs st in
  (currentIndex st ≤ currentIndex st')%nat ∧
  (currentIndex st' < length ts)%nat ∧
  (isFinished st' = true → (currentIndex st' + 1)%nat = length ts).
Proof.
  revert st. induction evs as [|ev evs IH]; intros st Hlt Hfin; simpl; [auto|].
  destruct (step_pointer ts st ev) as [[Hi Hf]|[(Hnext & Hi & Hf)|(Hlast & Hi & Hf)]].
  - destruct (IH (step ts st ev)) as (Hmono & Hlt' & Hfin');
      [lia | rewrite Hi, Hf; auto |]. split_and!; [lia | done..].
  - destruct (IH (step ts st ev)) as (Hmono & Hlt' & Hfin');
      [lia | rewrite Hi, Hf; intros H; specialize (Hfin H); lia |].
    split_and!; [lia | done..].
  - destruct (IH (step ts st ev)) as (Hmono & Hlt' & Hfin');
      [lia | rewrite Hi; intros _; lia |]. split_and!; [lia | done..].
Qed.

Lemma round_whole (z : Z) : Js.round (inject_Z z) = z.
Proof.
  unfold Js.round. apply Z.le_antisymm.
  - apply Z.lt_succ_r. rewrite Zlt_Qlt.
    eapply Qle_lt_trans; [apply Qfloor_le|].
    unfold Z.succ. rewrite inject_Z_plus. change (inject_Z 1) with 1%Q. lra.
  - rewrite <- (Qfloor_Z z) at 1. apply Qfloor_resp_le. lra.
Qed.

Lemma round_mono x y : (x <= y)%Q → Js.round x ≤ Js.round y.
Proof. intros H. unfold Js.round. apply Qfloor_resp_le. lra. Qed.

(** Along every run over a non-empty task list the pointer stays on a
    task and never moves back; the run is marked finished only at the
    last task; the progress shown lies between 0 and 100 and is 100 once
    the run is finished. *)
Theorem pointer_stays_on_a_task (ts : list CognitiveTask) (evs : list Event) :
  ts ≠ [] →
  let st := run ts evs in
  (currentIndex st < length ts)%nat ∧
  (isFinished st = true → (currentIndex st + 1)%nat = length ts) ∧
  0 ≤ progress ts st ≤ 100 ∧
  (isFinished st = true → progress ts st = 100) ∧
  (∀ more, currentIndex st ≤ currentIndex (run ts (evs ++ more)))%nat.
Proof.
  intros Hne st.
  assert (0 < length ts)%nat as Hlen by (destruct ts; [done | simpl; lia]).
  destruct (pointer_inv ts evs initial) as (_ & Hlt & Hfin);
    [done | done |]. fold (run ts evs) in Hlt, Hfin. fold st in Hlt, Hfin.
  set (k := (currentIndex st + (if isFinished st then 1 else 0))%nat).
  assert (k ≤ length ts)%nat as Hk.
  { unfold k. destruct (isFinished st); [specialize (Hfin eq_refl)|]; lia. }
  assert (0 < inject_Z (Z.of_nat (length ts)))%Q as Hpos
    by (change 0%Q with (inject_Z 0); rewrite <- Zlt_Qlt; lia).
  assert (0 <= inject_Z (Z.of_nat k) / inject_Z (Z.of_nat (length ts)))%Q as H0.
  { apply Qle_shift_div_l; [done|]. rewrite Qmult_0_l.
    change 0%Q with (inject_Z 0). rewrite <- Zle_Qle. lia. }
  assert (inject_Z (Z.of_nat k) / inject_Z (Z.of_nat (length ts)) <= 1)%Q as H1.
  { apply Qle_shift_div_r; [done|]. rewrite Qmult_1_l. rewrite <- Zle_Qle. lia. }
  split_and!; [done | done | | | |].
  - unfold progress. fold k.
    etrans; [|apply (round_mono (inject_Z 0))]; [by rewrite round_whole|].
    change (inject_Z 0) with 0%Q.
    set (q := (inject_Z (Z.of_nat k) / inject_Z (Z.of_nat (length ts)))%Q) in *. lra.
  - unfold progress. fold k.
    etrans; [apply (round_mono _ (inject_Z 100))|]; [|by rewrite round_whole].
    change (inject_Z 100) with 100%Q.
    set (q := (inject_Z (Z.of_nat k) / inject_Z (Z.of_nat (length ts)))%Q) in *. lra.
  - intros Hf. unfold progress. fold k.
    assert (k = length ts) as -> by (unfold k; rewrite Hf; auto).
    unfold Js.round.
    assert (inject_Z (Z.of_nat (length ts)) / inject_Z (Z.of_nat (length ts)) * 100
              + (1 # 2) == inject_Z 100 + (1 # 2))%Q as ->.
    { change (inject_Z 100) with 100%Q. field. lra. }
    apply (round_whole 100).
  - intros more. unfold run. rewrite fold_left_app.
    by destruct (pointer_inv ts more (fold_left (step ts) evs initial) Hlt Hfin).
Qed.

Lemma pointer_stays_on_a_task_witness :
  let ts := Assessment.generateCognitiveTasks (λ _, []) "en" in
  let evs := [BeginClick 100; OptionClick 3 200; CompleteClick 900 900;
              CompleteClick 950 950] in
  (currentIndex (run ts evs) < length ts)%nat ∧ 0 ≤ progress ts (run ts evs) ≤ 100.
Proof.
  intros ts evs.
  assert (ts ≠ []) as Hne by (intros H; discriminate H).
  destruct (pointer_stays_on_a_task ts evs Hne) as (Hlt & _ & Hp & _).
  split; [exact Hlt | exact Hp].
Defined.

(** An answer given before Begin is refused with a notice and changes
    nothing.  On an active task without expected sequence one click on
    an option is final: the option and whether it is the right one are
    recorded (nothing is recorded about correctness when the task has
    no right answer), the timer is stopped, the response time is the
    time since Begin, and the component moves to the next task, or is
    finished at the last one. *)
Theorem single_choice_answer ts st task i now :
  ts !! currentIndex st = Some task →
  sequenceAnswer task = None →
  let st' := step ts st (OptionClick i now) in
  (started (taskStates st) (id task) = false →
     st' = st ∧
     (handleOptionSelect ts task i now st).2 =
       [toast "Start the task first" (Some "Press Begin before answering.")]) ∧
  (∀ cur t0,
     taskStates st !! id task = Some cur →
     startTime cur = Some t0 → ¬ (t0 == 0)%Q →
     taskStates st' !! id task =
       Some {| startTime := None; responseTimeMs := (now - t0)%Q;
               correct := (λ a, bool_decide (i = a)) <$> correctAnswer task;
               errors := errors cur; selectedOption := Some i;
               freeResponse := freeResponse cur; sequence := sequence cur |} ∧
     (handleOptionSelect ts task i now st).2 = [] ∧
     if decide (currentIndex st + 1 < length ts)%nat
     then currentIndex st' = (currentIndex st + 1)%nat ∧ isFinished st' = isFinished st
     else currentIndex st' = currentIndex st ∧ isFinished st' = true).
Proof.
  intros Hcurrent Hseq st'. subst st'. unfold step. rewrite Hcurrent.
  unfold handleOptionSelect. rewrite Hseq. split.
  - by intros ->.
  - intros cur t0 Hcur Ht0 Hne.
    assert (started (taskStates st) (id task) = true) as ->.
    { unfold started. rewrite Hcur, Ht0. by apply truthy_time_Some. }
    simpl. split_and!; [|done|].
    + erewrite completeTask_active;
        [| simpl; apply lookup_insert_eq | rewrite Hcur; exact Ht0 | done].
      rewrite Hcur. simpl. by destruct (correctAnswer task).
    + exact (completeTask_pointer ts st _ _ _ (set_taskStates st _)).
Qed.

Lemma single_choice_answer_witness :
  let ts := [Assessment.attention1; Assessment.clock] in
  let st := step ts initial (BeginClick 100) in
  ∃ cur', taskStates (step ts st (OptionClick 0 350)) !! "attention-sequence"
            = Some cur' ∧
          selectedOption cur' = Some 0 ∧ correct cur' = Some true ∧
          responseTimeMs cur' = (350 - 100)%Q.
Proof.
  intros ts st.
  destruct (single_choice_answer ts st Assessment.attention1 0 350 eq_refl eq_refl)
    as [_ H].
  destruct (H (with_startTime blank (Some 100%Q)) 100%Q) as (Hcur & _).
  - vm_compute. reflexivity.
  - reflexivity.
  - intros E. discriminate E.
  - eexists. split; [exact Hcur|]. simpl. split_and!; reflexivity.
Defined.

(** Pressing Complete on the clock task always records it as correct,
    whatever was typed, also when nothing was typed and Begin was never
    pressed (the handler starts the timer itself); the typed text and
    the error count are kept. *)
Theorem clock_task_is_always_correct ts st task now0 now1 :
  ts !! currentIndex st = Some task →
  type task = clock_drawing → sequenceAnswer task = None → options task = None →
  ¬ (now0 == 0)%Q →
  let before := taskStates st !! id task in
  ∃ cur',
    taskStates (step ts st (CompleteClick now0 now1)) !! id task = Some cur' ∧
    correct cur' = Some true ∧ startTime cur' = None ∧
    freeResponse cur' = before ≫= freeResponse ∧
    errors cur' = default 0%nat (errors <$> before) ∧
    (before = None → responseTimeMs cur' = (now1 - now0)%Q ∧
                     (adjustedScore (Some cur') == 1)%Q).
Proof.
  intros Hcurrent Hty Hseq Hopt Hne before. subst before.
  unfold step. rewrite Hcurrent. unfold handleCompleteClick.
  rewrite Hseq, Hopt, Hty. simpl.
  destruct (decide (clock_drawing = clock_drawing)) as [_|]; [|done].
  unfold started.
  destruct (taskStates st !! id task) as [cur|] eqn:Hcur.
  - destruct (startTime cur) as [t0|] eqn:Ht0;
      [destruct (Qeq_bool t0 0) eqn:Hz|]; simpl; rewrite ?Hz; simpl.
    + erewrite completeTask_active;
        [| unfold startTaskTimer; simpl; apply lookup_insert_eq | done | done].
      eexists. split; [done|]. rewrite Hcur. by simpl.
    + erewrite completeTask_active; [| exact Hcur | exact Ht0 |].
      * eexists. split; [done|]. by simpl.
      * intros E. apply Qeq_bool_iff in E. congruence.
    + erewrite completeTask_active;
        [| unfold startTaskTimer; simpl; apply lookup_insert_eq | done | done].
      eexists. split; [done|]. rewrite Hcur. by simpl.
  - simpl. erewrite completeTask_active;
      [| unfold startTaskTimer; simpl; apply lookup_insert_eq | done | done].
    eexists. split; [done|]. rewrite Hcur. simpl. split_and!; done.
Qed.

Lemma clock_task_is_always_correct_witness :
  let ts := [Assessment.clock] in
  ∃ cur', taskStates (step ts initial (CompleteClick 40 40)) !! "clock-drawing"
            = Some cur' ∧
          correct cur' = Some true ∧ freeResponse cur' = None.
Proof.
  intros ts.
  destruct (clock_task_is_always_correct ts initial Assessment.clock 40 40
              eq_refl eq_refl eq_refl eq_refl) as (cur' & H1 & H2 & _ & H3 & _);
    [intros E; discriminate E|].
  exists cur'. split_and!; [exact H1 | exact H2 | exact H3].
Defined.

(** An event touches only the state of the task it is delivered to. *)
Lemma step_lookup_other ts st ev task k :
  ts !! currentIndex st = Some task → k ≠ id task →
  taskStates (step ts st ev) !! k = taskStates st !! k.
Proof.
  intros Hcurrent Hk. unfold step. rewrite Hcurrent.
  destruct ev as [now|now0 now1|i now| |text]; simpl.
  - by rewrite lookup_insert_ne.
  - unfold handleCompleteClick.
    destruct (sequenceAnswer task); rewrite completeTask_other by done; [done|].
    destruct (_ && _); simpl; by rewrite ?lookup_insert_ne.
  - unfold handleOptionSelect.
    destruct (started _ _); simpl; [|done].
    destruct (sequenceAnswer task), (options task); simpl;
      rewrite ?completeTask_other by done; simpl; rewrite ?lookup_insert_ne by done;
      try done.
    destruct (_ || _); simpl; by rewrite ?lookup_insert_ne.
  - unfold handleUndoClick.
    destruct (taskStates st !! id task) as [cur|]; [|done].
    destruct (sequence cur) as [[|??]|]; simpl; by rewrite ?lookup_insert_ne.
  - by rewrite lookup_insert_ne.
Qed.

Lemma completed_scores cur o q :
  correct (completed cur o q) = default (correct cur) (o_correct o) ∧
  errors (completed cur o q) = default (errors cur) (o_errors o).
Proof. done. Qed.

(** The state [completeTask] leaves under its key is the one it found
    or its completion. *)
Lemma completeTask_result ts c taskId o now st cur' :
  taskStates (completeTask ts c taskId o now st) !! taskId = Some cur' →
  ∃ cur, taskStates st !! taskId = Some cur ∧
         (cur' = cur ∨ ∃ q, cur' = completed cur o q).
Proof.
  rewrite completeTask_lookup.
  destruct (taskStates st !! taskId) as [cur|]; [|done].
  intros H. exists cur. split; [done|].
  destruct (startTime cur) as [t0|]; [destruct (Js.truthy_time _)|];
    simplify_eq; eauto.
Qed.

Lemma step_score_current ts st ev task :
  ts !! currentIndex st = Some task →
  (is_Some (sequenceAnswer task) → is_Some (options task)) →
  let P cur := (sequenceAnswer task = None → errors cur = 0%nat) ∧
               (correct cur = Some true → errors cur = 0%nat) in
  (∀ cur, taskStates st !! id task = Some cur → P cur) →
  ∀ cur', taskStates (step ts st ev) !! id task = Some cur' → P cur'.
Proof.
  intros Hcurrent Hwf P Hinv cur'. unfold step. rewrite Hcurrent.
  assert (P (default blank (taskStates st !! id task))) as Hdef.
  { destruct (taskStates st !! id task) as [cur|]; [by apply Hinv | done]. }
  destruct ev as [now|now0 now1|i now| |text]; simpl.
  - rewrite lookup_insert_eq. by intros [= <-].
  - unfold handleCompleteClick.
    destruct (sequenceAnswer task) as [expected|] eqn:Hseq.
    + intros (cur & Hcur & [->|[q ->]])%completeTask_result; [by apply Hinv|].
      split; [done|]. simpl. intros [= [H _]%andb_prop]. by apply Nat.eqb_eq.
    + intros (cur & Hcur & Hcases)%completeTask_result.
      assert (P cur) as [Hc1 Hc2].
      { destruct (_ && _); simpl in Hcur; [|by apply Hinv].
        rewrite lookup_insert_eq in Hcur. by injection Hcur as <-. }
      destruct Hcases as [->|[q ->]]; [done|].
      split; intros _; destruct (decide _); simpl; by apply Hc1.
  - unfold handleOptionSelect.
    destruct (started _ _); simpl; [|apply Hinv].
    destruct (sequenceAnswer task) as [expected|] eqn:Hseq.
    + destruct (Hwf (ltac:(eauto))) as [opts ->].
      destruct (_ || _); simpl; [apply Hinv|].
      rewrite lookup_insert_eq. by intros [= <-].
    + assert (errors (default blank (taskStates st !! id task)) = 0%nat) as He
        by (destruct Hdef as [Hd _]; by apply Hd).
      intros (cur & Hcur & Hcases)%completeTask_result.
      simpl in Hcur. rewrite lookup_insert_eq in Hcur. injection Hcur as <-.
      destruct Hcases as [->|[q ->]]; split; intros _; exact He.
  - unfold handleUndoClick.
    destruct (taskStates st !! id task) as [cur|] eqn:Hcur; [|by rewrite Hcur].
    assert (P cur) as HP by (by apply Hinv).
    destruct (sequence cur) as [[|??]|]; simpl;
      rewrite ?lookup_insert_eq, ?Hcur; intros [= <-]; exact HP.
  - rewrite lookup_insert_eq. by intros [= <-].
Qed.

Lemma step_score_inv ts st ev :
  NoDup (id <$> ts) →
  Forall (λ t, is_Some (sequenceAnswer t) → is_Some (options t)) ts →
  score_inv ts st → score_inv ts (step ts st ev).
Proof.
  intros Hnd Hwf Hinv t cur' Ht Hcur'.
  destruct (ts !! currentIndex st) as [task|] eqn:Hcurrent;
    [|unfold step in Hcur'; rewrite Hcurrent in Hcur'; by apply Hinv].
  assert (task ∈ ts) as Htask by (by eapply list_elem_of_lookup_2).
  destruct (decide (id t = id task)) as [Hid|Hid].
  - assert (t = task) as -> by (by eapply same_id_same_task).
    eapply (step_score_current ts st ev task); [done| |by intros; apply Hinv|done].
    by apply (proj1 (Forall_forall _ _) Hwf).
  - rewrite (step_lookup_other ts st ev task) in Hcur' by done. by apply Hinv.
Qed.

Lemma adjustedScore_whole (state : option TaskState) :
  (∀ cur, state = Some cur → correct cur = Some true → errors cur = 0%nat) →
  (adjustedScore state ==
   if bool_decide (state ≫= correct = Some true) then 1 else 0)%Q.
Proof.
  intros Hinv. destruct state as [cur|]; [|done].
  case_bool_decide as Hc; simpl in Hc.
  - apply adjustedScore_perfect; [done | by apply Hinv].
  - unfold adjustedScore. simpl.
    assert (0 <= inject_Z (Z.of_nat (errors cur)))%Q
      by (change 0%Q with (inject_Z 0); rewrite <- Zle_Qle; lia).
    destruct (correct cur) as [[|]|]; [done| |]; apply Q.max_l; lra.
Qed.

(** Along every run the error penalty never changes a score: the
    adjusted score of each task is 1 when the task is recorded as
    correct and 0 otherwise, so each domain total counts correct tasks.
    (Task ids are distinct and every task with an expected sequence has
    options, as in every generated catalog.) *)
Theorem scores_count_correct_tasks (ts : list CognitiveTask) (evs : list Event) :
  NoDup (id <$> ts) →
  Forall (λ t, is_Some (sequenceAnswer t) → is_Some (options t)) ts →
  Forall (λ t, let state := taskStates (run ts evs) !! id t in
               (adjustedScore state ==
                if bool_decide (state ≫= correct = Some true) then 1 else 0)%Q) ts.
Proof.
  intros Hnd Hwf.
  assert (score_inv ts (run ts evs)) as Hinv.
  { unfold run.
    assert (score_inv ts initial) as Hinit by (intros t cur _ H; discriminate H).
    revert Hinit. generalize initial.
    induction evs as [|ev evs IH]; intros st Hst; [done|].
    simpl. apply IH. by apply step_score_inv. }
  apply Forall_forall. intros t Ht. simpl.
  apply adjustedScore_whole. intros cur Hcur. by apply (Hinv t cur Ht Hcur).
Qed.

Lemma scores_count_correct_tasks_witness :
  let ts := [Assessment.attention1; Assessment.clock] in
  let evs := [BeginClick 100; OptionClick 0 350; CompleteClick 400 500] in
  Forall (λ t, let state := taskStates (run ts evs) !! id t in
               (adjustedScore state ==
                if bool_decide (state ≫= correct = Some true) then 1 else 0)%Q) ts.
Proof.
  intros ts evs. apply (scores_count_correct_tasks ts evs).
  - apply (bool_decide_unpack _). vm_compute. exact I.
  - repeat constructor; simpl; intros [? H]; discriminate H.
Defined.

(** Clicks on options that are new, while the selection is shorter than
    the expected sequence, are appended to it one by one; the task stays
    current and its timer keeps running. *)
Lemma clicks_accumulate ts task expected opts t0 (clicks : list (Z * Q)) :
  sequenceAnswer task = Some expected → options task = Some opts →
  ¬ (t0 == 0)%Q →
  ∀ st sel,
    ts !! currentIndex st = Some task →
    taskStates st !! id task ≫= startTime = Some t0 →
    selection (taskStates st) (id task) = sel →
    NoDup (sel ++ clicks.*1) →
    (length (sel ++ clicks.*1) ≤ length expected)%nat →
    let st' := fold_left (step ts) ((λ c, OptionClick c.1 c.2) <$> clicks) st in
    currentIndex st' = currentIndex st ∧
    taskStates st' !! id task ≫= startTime = Some t0 ∧
    selection (taskStates st') (id task) = sel ++ clicks.*1.
Proof.
  intros Hseq Hopt Hne.
  induction clicks as [|[i t] clicks IH]; intros st sel Hcurrent Ht0 Hsel Hnd Hlen.
  { simpl. by rewrite app_nil_r. }
  rewrite !fmap_cons in *. cbn [fst snd fold_left] in *.
  destruct (handleOptionSelect_sequence ts task expected opts i t st Hseq Hopt)
    as (Hidx & _ & Hstart & _ & _ & Hpush).
  assert (step ts st (OptionClick i t) = (handleOptionSelect ts task i t st).1) as Hstep
    by (unfold step; by rewrite Hcurrent).
  rewrite Hstep.
  assert (started (taskStates st) (id task) = true) as Hstarted.
  { unfold started. destruct (taskStates st !! id task) as [cur|]; [|done].
    simpl in Ht0. rewrite Ht0. by apply truthy_time_Some. }
  apply NoDup_app in Hnd as Hparts. destruct Hparts as (_ & Hdisj & _).
  rewrite length_app, length_cons in Hlen.
  specialize (Hpush Hstarted). rewrite Hsel in Hpush.
  specialize (Hpush ltac:(intros Hin; apply (Hdisj i Hin); left) ltac:(lia)).
  destruct (IH (handleOptionSelect ts task i t st).1 (sel ++ [i])) as (Hi & Hs & Hl).
  - by rewrite Hidx.
  - by rewrite Hstart.
  - done.
  - by rewrite <- app_assoc.
  - rewrite <- app_assoc, length_app. simpl. lia.
  - split_and!; [congruence | done |]. by rewrite Hl, <- app_assoc.
Qed.

(** Pressing Begin, clicking the options of the expected sequence in
    order and pressing Complete records the task as correct with no
    error, a response time counted from Begin and an adjusted score
    of 1, whatever the times of the clicks. *)
Theorem entering_expected_sequence ts st task expected opts t0
    (clicks : list (Z * Q)) now0 now1 :
  ts !! currentIndex st = Some task →
  sequenceAnswer task = Some expected → options task = Some opts →
  NoDup expected →
  selection (taskStates st) (id task) = [] →
  ¬ (t0 == 0)%Q →
  clicks.*1 = expected →
  let evs := BeginClick t0 :: ((λ c, OptionClick c.1 c.2) <$> clicks)
               ++ [CompleteClick now0 now1] in
  ∃ cur',
    taskStates (fold_left (step ts) evs st) !! id task = Some cur' ∧
    correct cur' = Some true ∧ errors cur' = 0%nat ∧
    responseTimeMs cur' = (now1 - t0)%Q ∧ startTime cur' = None ∧
    default [] (sequence cur') = expected ∧
    (adjustedScore (Some cur') == 1)%Q.
Proof.
  intros Hcurrent Hseq Hopt Hnd Hempty Hne Hclicks evs. subst evs.
  simpl. rewrite fold_left_app. simpl.
  set (st1 := step ts st (BeginClick t0)).
  assert (st1 = startTaskTimer (id task) t0 st) as Hst1
    by (unfold st1, step; by rewrite Hcurrent).
  destruct (clicks_accumulate ts task expected opts t0 clicks Hseq Hopt Hne st1 [])
    as (Hidx & Hstart & Hsel).
  - by rewrite Hst1.
  - rewrite Hst1. simpl. by rewrite lookup_insert_eq.
  - by rewrite Hst1, selection_startTaskTimer.
  - simpl. by rewrite Hclicks.
  - simpl. by rewrite Hclicks.
  - set (st2 := fold_left (step ts) ((λ c, OptionClick c.1 c.2) <$> clicks) st1) in *.
    simpl in Hsel. rewrite Hclicks in Hsel.
    assert (ts !! currentIndex st2 = Some task) as Hcurrent2
      by (by rewrite Hidx, Hst1).
    destruct (taskStates st2 !! id task) as [cur2|] eqn:Hcur2; [|done].
    simpl in Hstart.
    assert (default [] (sequence cur2) = expected) as Hseq2
      by (unfold selection in Hsel; by rewrite Hcur2 in Hsel).
    unfold step. rewrite Hcurrent2. unfold handleCompleteClick.
    rewrite Hseq, Hcur2, Hseq2, count_mismatches_same, !Nat.eqb_refl. simpl.
    erewrite completeTask_active; [|exact Hcur2|exact Hstart|exact Hne].
    eexists. split; [done|]. simpl. split_and!; done.
Qed.

Lemma entering_expected_sequence_witness :
  let task := Assessment.makeDigitSpanTask [] [] "digit-span" "Digit Span" [3; 9; 1] in
  let expected := default [] (sequenceAnswer task) in
  let clicks := (λ i, (i, 20%Q)) <$> expected in
  ∃ cur',
    taskStates
      (fold_left (step [task])
         (BeginClick 10 :: ((λ c, OptionClick c.1 c.2) <$> clicks)
            ++ [CompleteClick 30 30]) initial) !! id task = Some cur' ∧
    correct cur' = Some true ∧ errors cur' = 0%nat.
Proof.
  intros task expected clicks.
  destruct (entering_expected_sequence [task] initial task expected
              (default [] (options task)) 10 clicks 30 30)
    as (cur' & H1 & H2 & H3 & _).
  - reflexivity.
  - reflexivity.
  - reflexivity.
  - apply (bool_decide_unpack _). vm_compute. exact I.
  - reflexivity.
  - intros E. discriminate E.
  - vm_compute. reflexivity.
  - exists cur'. split_and!; [exact H1 | exact H2 | exact H3].
Defined.

Lemma count_from_shift x y expected sel i n m :
  count_from (x :: expected) (y :: sel) (S i) n m = count_from expected sel i n m.
Proof. revert i m. induction n as [|n IH]; intros i m; simpl; [done|]. apply IH. Qed.

Lemma count_mismatches_cons x y expected sel :
  count_mismatches (x :: expected) (y :: sel) =
  ((if decide (x = y) then 0 else 1) + count_mismatches expected sel)%nat.
Proof.
  unfold count_mismatches. simpl. rewrite count_from_shift.
  rewrite (count_from_spec expected sel 0 _ 0), count_from_spec.
  destruct (decide (Some x = Some y)) as [Heq|Hne], (decide (x = y)) as [Hxy|Hxy];
    simpl; congruence.
Qed.

(** The error count is positional: entering the expected sequence with
    two different neighbouring items exchanged counts two errors. *)
Theorem swapped_neighbours_count_two (l1 l2 : list Z) (a b : Z) :
  a ≠ b →
  count_mismatches (l1 ++ a :: b :: l2) (l1 ++ b :: a :: l2) = 2%nat.
Proof.
  intros Hab. induction l1 as [|x l1 IH]; simpl.
  - rewrite !count_mismatches_cons, count_mismatches_same.
    destruct (decide (a = b)), (decide (b = a)); done.
  - rewrite count_mismatches_cons, IH. by destruct (decide (x = x)).
Qed.

Lemma swapped_neighbours_count_two_witness :
  count_mismatches [4; 0; 2; 1; 3] [4; 2; 0; 1; 3] = 2%nat.
Proof. apply (swapped_neighbours_count_two [4] [1; 3] 0 2). lia. Defined.

Lemma completeTask_freeResponse ts c taskId o now st :
  o_freeResponse o = None →
  taskStates (completeTask ts c taskId o now st) !! taskId ≫= freeResponse =
  taskStates st !! taskId ≫= freeResponse.
Proof.
  intros Ho. rewrite completeTask_lookup.
  destruct (taskStates st !! taskId) as [cur|]; [|done].
  destruct (startTime cur) as [t0|]; [destruct (Js.truthy_time _)|]; simpl;
    by rewrite ?Ho.
Qed.

(** What is typed into the description field of the first clock task is
    what the submission carries as [clockDrawing], before and after
    Complete is pressed on that task. *)
Theorem clock_description_is_submitted ts st task text now0 now1 :
  list_find (λ t, type t = clock_drawing) ts = Some (currentIndex st, task) →
  let st1 := step ts st (FreeResponseChange text) in
  let st2 := step ts st1 (CompleteClick now0 now1) in
  clockDrawing (payload_of ts (taskStates st1)) = Some text ∧
  clockDrawing (payload_of ts (taskStates st2)) = Some text.
Proof.
  intros Hfind st1 st2.
  pose proof Hfind as (Hcurrent & _ & _)%list_find_Some.
  assert (st1 = handleFreeResponseChange task text st) as Hst1
    by (unfold st1, step; by rewrite Hcurrent).
  assert (taskStates st1 !! id task ≫= freeResponse = Some text) as H1.
  { rewrite Hst1. simpl. by rewrite lookup_insert_eq. }
  unfold payload_of. simpl. rewrite Hfind. split; [done|].
  unfold st2, step. rewrite Hst1 at 1. simpl. rewrite Hcurrent.
  unfold handleCompleteClick.
  destruct (sequenceAnswer task).
  - by rewrite completeTask_freeResponse.
  - rewrite completeTask_freeResponse by (by destruct (decide _)).
    destruct (_ && _); [|done].
    simpl. rewrite lookup_insert_eq. simpl.
    destruct (taskStates st1 !! id task); done.
Qed.

Lemma clock_description_is_submitted_witness :
  let ts := [Assessment.attention1; Assessment.clock] in
  let st := {| currentIndex := 1; taskStates := ∅; isFinished := false |} in
  clockDrawing
    (payload_of ts
       (taskStates (step ts (step ts st (FreeResponseChange "hands at 11 and 2"))
                      (CompleteClick 7 9)))) = Some "hands at 11 and 2".
Proof.
  intros ts st.
  exact (proj2 (clock_description_is_submitted ts st Assessment.clock
                  "hands at 11 and 2" 7 9 eq_refl)).
Defined.

End TaskComponentFacts.

(** ** More on the speech recorder *)

Section RecorderFacts.
Import SpeechRecorder.

Lemma retry_effects onUpload p i n lastErr :
  Forall (λ e, e = onUpload_call p ∨ e = setTimeout_wait 600)
    (retry onUpload p i n lastErr).2.
Proof.
  revert i lastErr. induction n as [|n IH]; intros i lastErr; simpl; [done|].
  destruct (onUpload i p) as [[]|e]; [apply Forall_singleton; by left|].
  specialize (IH (S i) e). destruct (retry onUpload p (S i) n e) as [l effs].
  simpl in *. apply Forall_cons; split; [by left|].
  apply Forall_cons; split; [by right | done].
Qed.

(** Whatever the upload function does, handling one chunk calls it at
    most three times, every time with the same payload: the id of the
    task at the index the handler was created with (from the second
    chunk of a recording on, this need not be the task the component
    shows), the recording assembled from the buffered chunks and the new
    one, and the elapsed time of the handler's render; waits are 600 ms.
    Then either the failure is reported and the stored index is kept
    with the buffer extended by the chunk; or the buffer is emptied and
    the stored index grows by one, the handler's own index not being the
    last one; or the buffer is emptied and [onComplete] is called, once
    and last, the handler's own index being the last one.  An empty
    chunk, or a chunk that arrives when the handler's index names no
    task, does nothing. *)
Theorem chunk_handling_bounds c (onUpload : UploadFn) data st :
  let r := handleDataAvailable c onUpload data st in
  (attempts r.2 ≤ 3)%nat ∧
  Forall (λ e, match e with
               | onUpload_call p =>
                   Some (taskId p) = id <$> tasks c !! c_currentIndex c ∧
                   blob p = assemble (chunksRef st ++ [data]) ∧
                   durationMs p = c_elapsedMs c
               | setTimeout_wait ms => ms = 600
               | _ => True
               end) r.2 ∧
  ((r.1 = st ∧ r.2 = []) ∨
   is_Some (tasks c !! c_currentIndex c) ∧ (size data ≠ 0%N) ∧
   ((currentIndex r.1 = currentIndex st ∧ chunksRef r.1 = chunksRef st ++ [data] ∧
     ∃ effs e, r.2 = effs ++ [console_error e; toast "Upload failed"
                  (Some "Could not upload speech sample. Please try again.")] ∧
               (onComplete_call ∉ effs) ∧ Js.truthy e = true) ∨
    ((c_currentIndex c + 1 < length (tasks c))%nat ∧
     currentIndex r.1 = S (currentIndex st) ∧ chunksRef r.1 = [] ∧
     elapsedMs r.1 = 0%Q ∧ (onComplete_call ∉ r.2)) ∨
    ((c_currentIndex c + 1 = length (tasks c))%nat ∧
     currentIndex r.1 = currentIndex st ∧ chunksRef r.1 = [] ∧
     ∃ effs, r.2 = effs ++ [onComplete_call] ∧ (onComplete_call ∉ effs)))).
Proof.
  intros r. split; [apply handleDataAvailable_attempts_le|]. subst r.
  unfold handleDataAvailable, currentTask.
  destruct (tasks c !! c_currentIndex c) as [task|] eqn:Htask;
    [|split; [done | by left]].
  apply lookup_lt_Some in Htask as Hlt.
  destruct (size data =? 0)%N eqn:Hsize; [split; [done | by left]|].
  apply N.eqb_neq in Hsize.
  match goal with |- context [retry ?f ?p 0 3 ?e] =>
    pose proof (retry_effects f p 0 3 e) as Heffs;
    destruct (retry f p 0 3 e) as [lastErr effects] end.
  simpl in Heffs.
  assert (onComplete_call ∉ effects) as Hnot.
  { intros Hin. apply (proj1 (Forall_forall _ _) Heffs) in Hin.
    by destruct Hin. }
  assert (Forall (λ e, match e with
               | onUpload_call p =>
                   Some (taskId p) = Some (id task) ∧
                   blob p = assemble (chunksRef st ++ [data]) ∧
                   durationMs p = c_elapsedMs c
               | setTimeout_wait ms => ms = 600
               | _ => True
               end) effects) as Hall.
  { eapply Forall_impl; [exact Heffs|]. by intros e [-> | ->]. }
  destruct (Js.truthy lastErr) eqn:Htruthy;
    [|destruct (_ <? _) eqn:Hlast;
      [apply Z.ltb_lt in Hlast | apply Z.ltb_ge in Hlast]]; simpl.
  - split; [apply Forall_app; by repeat constructor|].
    right. split_and!; [by eexists | done |].
    left. split_and!; [done..|]. by exists effects, lastErr.
  - split; [done|]. right. split_and!; [by eexists | done |]. right. left.
    split_and!; [lia | lia | done..].
  - split; [apply Forall_app; by repeat constructor|].
    right. split_and!; [by eexists | done |].
    right. right. split_and!; [lia | done..|]. by exists effects.
Qed.

End RecorderFacts.
